(** * LockFreeStack: a lock-free stack with deferred reclamation

    A shallow embedding of [lock_free_stack.h].  The class keeps three atomic
    members ([head], [to_be_deleted], [threads_in_pop]) and a heap of [node]
    objects linked through raw pointers.  Every member function is cut at
    its shared-memory accesses into a small-step machine over a program
    counter, so that the calls of one thread can be run alone (the
    sequential reading of [push], [pop] and the destructor) or interleaved
    with the steps of other threads. *)

From stdpp Require Import functions gmap list.
From Stdlib Require Import ZArith Lia.

Local Open Scope Z_scope.

(** ** Memory *)

(** A [node*] is the address of a node or [nullptr]. *)
Abbreviation ptr := (option positive).

(** [new node(...)]: the allocator sees the live addresses and either
    returns one that is not live or fails ([std::bad_alloc]).  An address
    that was freed may be handed out again. *)
Class Allocator : Type := {
  new_addr : gset positive → option positive;
  new_addr_fresh : ∀ live a, new_addr live = Some a → a ∉ live
}.

(** [std::atomic<int>] arithmetic wraps in two's complement. *)
Definition wrap_int (z : Z) : Z := (z + 2 ^ 31) mod 2 ^ 32 - 2 ^ 31.

Definition int_range (z : Z) : Prop := - 2 ^ 31 ≤ z < 2 ^ 31.

(** The default constructor of [std::atomic<U>] value-initialises the
    object it holds ([atomics.types.operations], C++20): the two members the
    constructor of the stack does not mention start as [0] and [nullptr]. *)
Definition atomic_int_default : Z := 0.
Definition atomic_ptr_default : ptr := None.

Section LockFreeStack.

Context {T : Type}.

(** [struct node]: [data] is the [shared_ptr<T>] ([None] once the handle was
    swapped out), [next] the raw pointer to the node below. *)
Record node : Type := Node { data : option T; next : ptr }.

(** The members of the class, the live nodes, and two counters that
    instrument [new] and [delete]. *)
Record shared : Type := Shared {
  heap : gmap positive node;
  head : ptr;
  to_be_deleted : ptr;
  threads_in_pop : Z;
  allocated : nat;
  freed : nat
}.

Definition set_heap (h : gmap positive node) (g : shared) : shared :=
  Shared h (head g) (to_be_deleted g) (threads_in_pop g) (allocated g) (freed g).
Definition set_head (p : ptr) (g : shared) : shared :=
  Shared (heap g) p (to_be_deleted g) (threads_in_pop g) (allocated g) (freed g).
Definition set_to_be_deleted (p : ptr) (g : shared) : shared :=
  Shared (heap g) (head g) p (threads_in_pop g) (allocated g) (freed g).
Definition set_threads_in_pop (z : Z) (g : shared) : shared :=
  Shared (heap g) (head g) (to_be_deleted g) z (allocated g) (freed g).

(** [new node(data_)]: the node starts with a live handle and a null link. *)
Definition new_node (a : positive) (v : T) (g : shared) : shared :=
  Shared (<[a := Node (Some v) None]> (heap g)) (head g) (to_be_deleted g)
         (threads_in_pop g) (S (allocated g)) (freed g).

(** [delete p] on a live node. *)
Definition delete_node (a : positive) (g : shared) : shared :=
  Shared (delete a (heap g)) (head g) (to_be_deleted g)
         (threads_in_pop g) (allocated g) (S (freed g)).

(** [delete p]: nothing happens when [p] is null. *)
Definition delete_ptr (p : ptr) (g : shared) : shared :=
  match p with
  | None => g
  | Some a => delete_node a g
  end.

(** [p->next = q] on a live node. *)
Definition set_next (a : positive) (n : node) (q : ptr) (g : shared) : shared :=
  set_heap (<[a := Node (data n) q]> (heap g)) g.

(** What a step or a call ends in. *)
Inductive outcome (A : Type) : Type :=
| Ok (x : A) (g : shared)   (* normal completion *)
| Throw (g : shared)        (* [std::bad_alloc] leaves the call *)
| Fault                     (* undefined behaviour: a null or dead node is used *)
| Diverge.                  (* the loop does not end *)
Global Arguments Ok {A} x g.
Global Arguments Throw {A} g.
Global Arguments Fault {A}.
Global Arguments Diverge {A}.

(** ** The member functions as a machine *)

(** Where [chain_pending_nodes(first, last)] returns to: the call of line 30
    is the last statement of [try_reclaim], the call of line 35 is followed
    by [--threads_in_pop]. *)
Inductive after_chain : Type := ThenReturn | ThenDecrement.

Inductive pc : Type :=
(* push, lines 96-103 *)
| PushNew (v : T)
| PushLoad (new_node : positive)
| PushCAS (new_node : positive)
| PushDone
(* pop, lines 105-117 *)
| PopEnter
| PopLoad
| PopLoop (old_head : ptr)
| PopCAS (old_head : positive) (desired : ptr)
| PopSwap (old_head : ptr)
(* try_reclaim, lines 17-38 *)
| ReclaimCheck (old_head : ptr) (res : option T)
| ReclaimDelete (old_head : ptr) (res : option T)
| ReclaimExchange (res : option T)
| ReclaimDec (nodes_to_delete : ptr) (res : option T)
| ReclaimDeferDec (res : option T)
(* delete_nodes, lines 63-71 *)
| DeleteNodes (nodes : ptr) (res : option T)
(* chain_pending_nodes(nodes), lines 40-48 *)
| ChainWalk (nodes last : ptr) (res : option T)
(* chain_pending_nodes(first, last), lines 50-55 *)
| ChainLoad (first last : ptr) (k : after_chain) (res : option T)
| ChainCAS (first last : ptr) (k : after_chain) (res : option T)
| PopDone (res : option T).

Definition after (k : after_chain) (res : option T) : pc :=
  match k with
  | ThenReturn => PopDone res
  | ThenDecrement => ReclaimDeferDec res
  end.

Definition deref (g : shared) (p : ptr) : option (positive * node) :=
  match p with
  | None => None
  | Some a => match heap g !! a with
              | None => None
              | Some n => Some (a, n)
              end
  end.

Context `{Allocator}.

(** One step of one thread.  [spurious] tells a [compare_exchange_weak] of
    this step to fail although the expected value is there.

    The header declares [chain_pending_nodes] with one parameter twice
    (lines 40 and 57); the two bodies are told apart by their parameter:
    the list taken from [to_be_deleted] (line 30) goes to the body that walks
    to the tail ([nodes]), the single detached node (line 35) to the body
    that chains [one] as both first and last. *)
Definition tstep (spurious : bool) (p : pc) (g : shared) : outcome pc :=
  match p with
  | PushNew v =>
      (* node *const new_node = new node(data); *)
      match new_addr (dom (heap g)) with
      | None => Throw g
      | Some a => Ok (PushLoad a) (new_node a v g)
      end
  | PushLoad a =>
      (* new_node->next = head.load(); *)
      match heap g !! a with
      | None => Fault
      | Some n => Ok (PushCAS a) (set_next a n (head g) g)
      end
  | PushCAS a =>
      (* while (!head.compare_exchange_weak(new_node->next, new_node)); *)
      match heap g !! a with
      | None => Fault
      | Some n =>
          if bool_decide (head g = next n) && negb spurious
          then Ok PushDone (set_head (Some a) g)
          else Ok (PushCAS a) (set_next a n (head g) g)
      end
  | PushDone => Ok PushDone g
  | PopEnter =>
      (* ++threads_in_pop; *)
      Ok PopLoad (set_threads_in_pop (wrap_int (threads_in_pop g + 1)) g)
  | PopLoad =>
      (* node *old_head = head.load(); *)
      Ok (PopLoop (head g)) g
  | PopLoop old_head =>
      (* while (old_head && ... old_head->next ...) *)
      match old_head with
      | None => Ok (PopSwap None) g
      | Some a =>
          match heap g !! a with
          | None => Fault
          | Some n => Ok (PopCAS a (next n)) g
          end
      end
  | PopCAS a desired =>
      (* !head.compare_exchange_weak(old_head, old_head->next) *)
      if bool_decide (head g = Some a) && negb spurious
      then Ok (PopSwap (Some a)) (set_head desired g)
      else Ok (PopLoop (head g)) g
  | PopSwap old_head =>
      (* std::shared_ptr<T> res; if (old_head) res.swap(old_head->data); *)
      match old_head with
      | None => Ok (ReclaimCheck None None) g
      | Some a =>
          match heap g !! a with
          | None => Fault
          | Some n =>
              Ok (ReclaimCheck (Some a) (data n))
                 (set_heap (<[a := Node None (next n)]> (heap g)) g)
          end
      end
  | ReclaimCheck old_head res =>
      (* if (threads_in_pop == 1) ... else chain_pending_nodes(old_head) *)
      if bool_decide (threads_in_pop g = 1)
      then Ok (ReclaimDelete old_head res) g
      else Ok (ChainLoad old_head old_head ThenDecrement res) g
  | ReclaimDelete old_head res =>
      (* delete old_head; *)
      match old_head with
      | None => Ok (ReclaimExchange res) g
      | Some a =>
          match heap g !! a with
          | None => Fault
          | Some _ => Ok (ReclaimExchange res) (delete_node a g)
          end
      end
  | ReclaimExchange res =>
      (* node *nodes_to_delete = to_be_deleted.exchange(nullptr); *)
      Ok (ReclaimDec (to_be_deleted g) res) (set_to_be_deleted None g)
  | ReclaimDec nodes_to_delete res =>
      (* if (!--threads_in_pop) delete_nodes(nodes_to_delete);
         else if (nodes_to_delete) chain_pending_nodes(nodes_to_delete); *)
      let c := wrap_int (threads_in_pop g - 1) in
      let g' := set_threads_in_pop c g in
      if bool_decide (c = 0) then Ok (DeleteNodes nodes_to_delete res) g'
      else match nodes_to_delete with
           | Some _ => Ok (ChainWalk nodes_to_delete nodes_to_delete res) g'
           | None => Ok (PopDone res) g'
           end
  | ReclaimDeferDec res =>
      (* --threads_in_pop; *)
      Ok (PopDone res) (set_threads_in_pop (wrap_int (threads_in_pop g - 1)) g)
  | DeleteNodes nodes res =>
      (* while (nodes) { node *next = nodes->next; delete nodes; nodes = next; } *)
      match nodes with
      | None => Ok (PopDone res) g
      | Some a =>
          match heap g !! a with
          | None => Fault
          | Some n => Ok (DeleteNodes (next n) res) (delete_node a g)
          end
      end
  | ChainWalk nodes last res =>
      (* while (node *const next = last->next) last = next; *)
      match deref g last with
      | None => Fault
      | Some (_, n) =>
          match next n with
          | Some b => Ok (ChainWalk nodes (Some b) res) g
          | None => Ok (ChainLoad nodes last ThenReturn res) g
          end
      end
  | ChainLoad first last k res =>
      (* last->next = to_be_deleted.load(); *)
      match deref g last with
      | None => Fault
      | Some (l, n) => Ok (ChainCAS first last k res) (set_next l n (to_be_deleted g) g)
      end
  | ChainCAS first last k res =>
      (* while (!to_be_deleted.compare_exchange_weak(last->next, first)); *)
      match deref g last with
      | None => Fault
      | Some (l, n) =>
          if bool_decide (to_be_deleted g = next n) && negb spurious
          then Ok (after k res) (set_to_be_deleted first g)
          else Ok (ChainCAS first last k res) (set_next l n (to_be_deleted g) g)
      end
  | PopDone res => Ok (PopDone res) g
  end.

(** ** One thread running alone *)

Definition done (p : pc) : bool :=
  match p with
  | PushDone | PopDone _ => true
  | _ => false
  end.

(** The steps of one call with no other thread in between and no spurious
    failure.  [fuel] bounds the number of steps. *)
Fixpoint run_solo (fuel : nat) (p : pc) (g : shared) : outcome pc :=
  if done p then Ok p g
  else match fuel with
       | O => Diverge
       | S fuel' =>
           match tstep false p g with
           | Ok p' g' => run_solo fuel' p' g'
           | Throw g' => Throw g'
           | Fault => Fault
           | Diverge => Diverge
           end
       end.

(** A call alone makes a bounded number of steps outside its two list
    loops, and a list of live nodes longer than the heap has a cycle: with
    this fuel [Diverge] is a loop that does not end. *)
Definition call_fuel (g : shared) : nat := (16 + size (heap g))%nat.

(** [LockFreeStack()]: only [head] is initialised by the constructor. *)
Definition construct : shared :=
  Shared ∅ None atomic_ptr_default atomic_int_default 0 0.

(** [LockFreeStack()] with the trivial default constructor [std::atomic] has
    before C++20: [to_be_deleted] and [threads_in_pop] have no initialiser
    (lines 14-15) and the constructor does not mention them (line 84), so
    they keep what their storage held, [p] and [c]. *)
Definition construct_over (c : Z) (p : ptr) : shared :=
  Shared ∅ None p c 0 0.

(** [void push(T const &data)] *)
Definition push (v : T) (g : shared) : outcome unit :=
  match run_solo (call_fuel g) (PushNew v) g with
  | Ok _ g' => Ok tt g'
  | Throw g' => Throw g'
  | Fault => Fault
  | Diverge => Diverge
  end.

(** [std::shared_ptr<T> pop()]: [None] is the empty handle. *)
Definition pop (g : shared) : outcome (option T) :=
  match run_solo (call_fuel g) PopEnter g with
  | Ok (PopDone res) g' => Ok res g'
  | Ok _ _ => Diverge
  | Throw g' => Throw g'
  | Fault => Fault
  | Diverge => Diverge
  end.

(** [~LockFreeStack()]: [while (pop());] *)
Fixpoint drain (fuel : nat) (g : shared) : outcome unit :=
  match fuel with
  | O => Diverge
  | S fuel' =>
      match pop g with
      | Ok (Some _) g' => drain fuel' g'
      | Ok None g' => Ok tt g'
      | Throw g' => Throw g'
      | Fault => Fault
      | Diverge => Diverge
      end
  end.

Definition destroy (g : shared) : outcome unit :=
  drain (S (size (heap g))) g.

(** Calls in sequence on one thread. *)
Fixpoint push_all (vs : list T) (g : shared) : outcome unit :=
  match vs with
  | [] => Ok tt g
  | v :: vs' =>
      match push v g with
      | Ok _ g' => push_all vs' g'
      | Throw g' => Throw g'
      | Fault => Fault
      | Diverge => Diverge
      end
  end.

Fixpoint pop_n (n : nat) (g : shared) : outcome (list (option T)) :=
  match n with
  | O => Ok [] g
  | S n' =>
      match pop g with
      | Ok r g' =>
          match pop_n n' g' with
          | Ok rs g'' => Ok (r :: rs) g''
          | Throw g'' => Throw g''
          | Fault => Fault
          | Diverge => Diverge
          end
      | Throw g' => Throw g'
      | Fault => Fault
      | Diverge => Diverge
      end
  end.

(** [steps n]: exactly [n] steps of one thread, finished or not. *)
Fixpoint steps (n : nat) (p : pc) (g : shared) : outcome pc :=
  match n with
  | O => Ok p g
  | S n' =>
      match tstep false p g with
      | Ok p' g' => steps n' p' g'
      | Throw g' => Throw g'
      | Fault => Fault
      | Diverge => Diverge
      end
  end.

(** The thread finishes the call it is in, alone from here on. *)
Definition resume (p : pc) (g : shared) : outcome pc :=
  run_solo (call_fuel g) p g.

(** ** Several threads *)

Inductive call : Type := CallPush (v : T) | CallPop.

(** A thread: the call it is in (if any), the calls it still makes, and what
    its calls of [pop] returned so far. *)
Record thread : Type := Thread {
  at_pc : option pc;
  todo : list call;
  returned : list (option T)
}.

Definition enter (c : call) : pc :=
  match c with
  | CallPush v => PushNew v
  | CallPop => PopEnter
  end.

(** Thread [t] makes one step: it enters its next call, moves inside the
    call, or returns from it. *)
Definition cstep (spurious : bool) (t : nat) (ths : list thread) (g : shared)
  : outcome (list thread) :=
  match ths !! t with
  | None => Ok ths g
  | Some th =>
      match at_pc th with
      | None =>
          match todo th with
          | [] => Ok ths g
          | c :: cs => Ok (<[t := Thread (Some (enter c)) cs (returned th)]> ths) g
          end
      | Some PushDone =>
          Ok (<[t := Thread None (todo th) (returned th)]> ths) g
      | Some (PopDone res) =>
          Ok (<[t := Thread None (todo th) (returned th ++ [res])]> ths) g
      | Some p =>
          match tstep spurious p g with
          | Ok p' g' => Ok (<[t := Thread (Some p') (todo th) (returned th)]> ths) g'
          | Throw g' => Throw g'
          | Fault => Fault
          | Diverge => Diverge
          end
      end
  end.

(** Threads that have not started, each with the calls it will make. *)
Definition start (cs : list (list call)) : list thread :=
  map (λ c, Thread None c []) cs.

(** A schedule names the thread of each step, in order. *)
Fixpoint run_schedule (sched : list nat) (ths : list thread) (g : shared)
  : outcome (list thread) :=
  match sched with
  | [] => Ok ths g
  | t :: sched' =>
      match cstep false t ths g with
      | Ok ths' g' => run_schedule sched' ths' g'
      | Throw g' => Throw g'
      | Fault => Fault
      | Diverge => Diverge
      end
  end.

(** ** Lists of nodes and the invariants of the data model *)

(** [chain h p l]: following [next] from [p] visits exactly the live nodes
    [l] and ends at [nullptr]. *)
Fixpoint chain (h : gmap positive node) (p : ptr) (l : list positive) : Prop :=
  match l with
  | [] => p = None
  | a :: l' => p = Some a ∧ ∃ n, h !! a = Some n ∧ chain h (next n) l'
  end.

(** The values held by the nodes [l], top first. *)
Fixpoint holds (h : gmap positive node) (l : list positive) (vs : list T) : Prop :=
  match l, vs with
  | [], [] => True
  | a :: l', v :: vs' => (∃ q, h !! a = Some (Node (Some v) q)) ∧ holds h l' vs'
  | _, _ => False
  end.

(** [delete] on each node of a list, first to last. *)
Fixpoint free_list (l : list positive) (g : shared) : shared :=
  match l with
  | [] => g
  | a :: l' => free_list l' (delete_node a g)
  end.

Definition live_handles (h : gmap positive node) (l : list positive) : Prop :=
  ∀ a, a ∈ l → ∃ v q, h !! a = Some (Node (Some v) q).

Definition released_handles (h : gmap positive node) (l : list positive) : Prop :=
  ∀ a, a ∈ l → ∃ q, h !! a = Some (Node None q).

(** The invariant set of the data model: [ms] is the main list, [ps] the
    pending-deletion list. *)
Record stack_inv (g : shared) (ms ps : list positive) : Prop := StackInv {
  inv_main : chain (heap g) (head g) ms;
  inv_pending : chain (heap g) (to_be_deleted g) ps;
  inv_disjoint : ∀ a, a ∈ ms → a ∉ ps;
  inv_live : live_handles (heap g) ms;
  inv_released : released_handles (heap g) ps
}.

(** A stack no thread is working on: every live node is on one of the two
    lists, and the instrumentation counts the live nodes. *)
Record quiescent (g : shared) (ms ps : list positive) : Prop := Quiescent {
  q_inv : stack_inv g ms ps;
  q_counter : threads_in_pop g = 0;
  q_listed : ∀ a, is_Some (heap g !! a) → a ∈ ms ∨ a ∈ ps;
  q_count : allocated g = (freed g + size (heap g))%nat
}.

(** The program counters of [push]. *)
Definition in_push (p : pc) : bool :=
  match p with
  | PushNew _ | PushLoad _ | PushCAS _ | PushDone => true
  | _ => false
  end.

(** A stack as one thread sees it between its calls: the values [vs], top
    first, nothing pending, no thread inside [pop]. *)
Definition sequential (g : shared) (vs : list T) : Prop :=
  ∃ ms, chain (heap g) (head g) ms ∧ holds (heap g) ms vs ∧
        to_be_deleted g = None ∧ threads_in_pop g = 0.

End LockFreeStack.

Global Arguments node : clear implicits.
Global Arguments shared : clear implicits.
Global Arguments pc : clear implicits.
Global Arguments outcome : clear implicits.
Global Arguments call : clear implicits.
Global Arguments thread : clear implicits.

(** ** Threads interleaved: what each thread owns *)

Section Ownership.
Context {T : Type}.
Implicit Types (h : gmap positive (node T)) (p q : ptr) (l o : list positive).

(** [seg h p l q]: following [next] from [p] visits the live nodes [l] and
    arrives at [q]. *)
Fixpoint seg h p l q : Prop :=
  match l with
  | [] => p = q
  | a :: l' => p = Some a ∧ ∃ n, h !! a = Some n ∧ seg h (next n) l' q
  end.

(** The program counters between [++threads_in_pop] and
    [--threads_in_pop]. *)
Definition in_pop (p : pc T) : bool :=
  match p with
  | PopLoad | PopLoop _ | PopCAS _ _ | PopSwap _
  | ReclaimCheck _ _ | ReclaimDelete _ _ | ReclaimExchange _
  | ReclaimDec _ _ | ReclaimDeferDec _ => true
  | ChainLoad _ _ ThenDecrement _ | ChainCAS _ _ ThenDecrement _ => true
  | _ => false
  end.

Definition inside (th : thread T) : bool :=
  match at_pc th with
  | Some p => in_pop p
  | None => false
  end.

Fixpoint count_inside (ths : list (thread T)) : nat :=
  match ths with
  | [] => 0
  | th :: ths' => (if inside th then 1 else 0) + count_inside ths'
  end.

(** The node a thread has read from [head] and may still dereference. *)
Definition held (p : option (pc T)) : option positive :=
  match p with
  | Some (PopLoop (Some a)) | Some (PopCAS a _) => Some a
  | _ => None
  end.

(** The states in which a thread may free what it owns, or owns a node no
    other thread has ever seen. *)
Definition exclusive (p : option (pc T)) : bool :=
  match p with
  | Some (PushLoad _) | Some (PushCAS _)
  | Some (ReclaimDelete _ _) | Some (DeleteNodes _ _) => true
  | _ => false
  end.

(** [owns h p o]: a thread at [p] owns exactly the nodes [o]: they are
    reachable from its local pointers and from nowhere else. *)
Definition owns h (p : option (pc T)) o : Prop :=
  match p with
  | Some (PushLoad a) | Some (PushCAS a) | Some (PopSwap (Some a)) =>
      o = [a] ∧ ∃ v q, h !! a = Some (Node (Some v) q)
  | Some (ReclaimCheck (Some a) _) | Some (ReclaimDelete (Some a) _) =>
      o = [a] ∧ ∃ q, h !! a = Some (Node None q)
  | Some (ReclaimDec nodes _) | Some (DeleteNodes nodes _) =>
      chain h nodes o ∧ released_handles h o
  | Some (ChainWalk nodes last _) =>
      chain h nodes o ∧ released_handles h o ∧
      ∃ l1 l2, o = l1 ++ l2 ∧ l2 ≠ [] ∧ chain h last l2
  | Some (ChainLoad first last k _) =>
      (first = None ∧ last = None ∧ o = [] ∧ k = ThenDecrement) ∨
      ∃ l z, o = l ++ [z] ∧ seg h first l (Some z) ∧ last = Some z ∧
             released_handles h o
  | Some (ChainCAS first last k _) =>
      ∃ l z, o = l ++ [z] ∧ seg h first l (Some z) ∧ last = Some z ∧
             released_handles h o
  | _ => o = []
  end.

(** The values a thread is answerable for: those it will push, the one it is
    pushing or has just detached, and those its calls of [pop] returned. *)
Definition todo_values (cs : list (call T)) : list T :=
  concat (map (λ c, match c with CallPush v => [v] | CallPop => [] end) cs).

Definition node_value h (a : positive) : list T :=
  match h !! a with
  | Some (Node (Some v) _) => [v]
  | _ => []
  end.

Definition pc_values h (p : option (pc T)) : list T :=
  match p with
  | Some (PushNew v) => [v]
  | Some (PushLoad a) | Some (PushCAS a) | Some (PopSwap (Some a)) => node_value h a
  | Some (ReclaimCheck _ res) | Some (ReclaimDelete _ res)
  | Some (ReclaimExchange res) | Some (ReclaimDec _ res)
  | Some (ReclaimDeferDec res) | Some (DeleteNodes _ res)
  | Some (ChainWalk _ _ res) | Some (ChainLoad _ _ _ res)
  | Some (ChainCAS _ _ _ res) | Some (PopDone res) => option_list res
  | _ => []
  end.

Definition carried h (th : thread T) : list T :=
  todo_values (todo th) ++ pc_values h (at_pc th) ++ omap id (returned th).

(** The invariant of the interleaved machine.  [cs] are the calls the
    threads were started with, [ms] is the main list and [vs] its values,
    [ps] the pending list, [os t] the nodes thread [t] owns. *)
Record cinv (cs : list (list (call T))) (ths : list (thread T)) (g : shared T)
    (ms ps : list positive) (os : nat → list positive) (vs : list T) : Prop := CInv {
  ci_main : chain (heap g) (head g) ms;
  ci_pending : chain (heap g) (to_be_deleted g) ps;
  ci_values : holds (heap g) ms vs;
  ci_released : released_handles (heap g) ps;
  ci_disjoint : ∀ a, a ∈ ms → a ∉ ps;
  ci_owns : ∀ t th, ths !! t = Some th → owns (heap g) (at_pc th) (os t);
  ci_none : ∀ t, ths !! t = None → os t = [];
  ci_nodup : ∀ t, NoDup (os t);
  ci_apart : ∀ t a, a ∈ os t → (a ∉ ms) ∧ (a ∉ ps);
  ci_others : ∀ t1 t2 a, t1 ≠ t2 → a ∈ os t1 → a ∉ os t2;
  ci_listed : ∀ a, is_Some (heap g !! a) → a ∈ ms ∨ a ∈ ps ∨ ∃ t, a ∈ os t;
  ci_counter : threads_in_pop g = Z.of_nat (count_inside ths);
  ci_bound : Z.of_nat (length ths) < 2 ^ 31;
  ci_held_live : ∀ t th a,
    ths !! t = Some th → held (at_pc th) = Some a → is_Some (heap g !! a);
  ci_held_safe : ∀ t th a t' th',
    ths !! t = Some th → held (at_pc th) = Some a →
    t' ≠ t → ths !! t' = Some th' → exclusive (at_pc th') = true → a ∉ os t';
  ci_cas : ∀ t th a nx,
    ths !! t = Some th → at_pc th = Some (PopCAS a nx) → a ∈ ms →
    ∃ n, heap g !! a = Some n ∧ next n = nx;
  ci_count : allocated g = (freed g + size (heap g))%nat;
  ci_conserved :
    vs ++ concat (map (carried (heap g)) ths) ≡ₚ concat (map todo_values cs)
}.

(** The values pushed by the calls the threads were started with, and the
    values their calls of [pop] have returned. *)
Definition pushed (cs : list (list (call T))) : list T :=
  concat (map todo_values cs).

Definition delivered (ths : list (thread T)) : list T :=
  concat (map (λ th, omap id (returned th)) ths).

(** The shape of the conclusion of every case of the invariant proof. *)
Definition kept cs ths (g : shared T) (t : nat) (p' : pc T)
    (td : list (call T)) (ret : list (option T)) (g' : shared T) : Prop :=
  ∃ ms' ps' os' vs',
    cinv cs (<[t := Thread (Some p') td ret]> ths) g' ms' ps' os' vs'.

(** The configurations some interleaving reaches.  Each allocation may
    follow another allocator. *)
Inductive reachable (cs : list (list (call T))) :
    list (thread T) → shared T → Prop :=
| reach_start : reachable cs (start cs) construct
| reach_step (A : Allocator) ths g spurious t ths' g' :
    reachable cs ths g →
    cstep (H := A) spurious t ths g = Ok ths' g' →
    reachable cs ths' g'.

End Ownership.

(** ** One thread and the stack of the data model *)

Section Client.
Context {T : Type} `{Allocator}.

(** The calls of one thread in the order it makes them, with what its calls
    of [pop] return. *)
Fixpoint run_calls (cs : list (call T)) (g : shared T)
  : outcome T (list (option T)) :=
  match cs with
  | [] => Ok [] g
  | CallPush v :: cs' =>
      match push v g with
      | Ok _ g' => run_calls cs' g'
      | Throw g' => Throw g'
      | Fault => Fault
      | Diverge => Diverge
      end
  | CallPop :: cs' =>
      match pop g with
      | Ok r g' =>
          match run_calls cs' g' with
          | Ok rs g'' => Ok (r :: rs) g''
          | Throw g'' => Throw g''
          | Fault => Fault
          | Diverge => Diverge
          end
      | Throw g' => Throw g'
      | Fault => Fault
      | Diverge => Diverge
      end
  end.

(** The same calls on the stack of the data model, a list of values with
    the top first: what the calls of [pop] return, and the values left. *)
Fixpoint list_stack (cs : list (call T)) (vs : list T)
  : list (option T) * list T :=
  match cs with
  | [] => ([], vs)
  | CallPush v :: cs' => list_stack cs' (v :: vs)
  | CallPop :: cs' =>
      match vs with
      | [] => let '(rs, ws) := list_stack cs' [] in (None :: rs, ws)
      | v :: vs' => let '(rs, ws) := list_stack cs' vs' in (Some v :: rs, ws)
      end
  end.

End Client.

(** ** A thread left alone *)

Section Progress.
Context {T : Type} `{Allocator}.

(** The program counters of [chain_pending_nodes]. *)
Definition in_chain (p : pc T) : bool :=
  match p with
  | ChainWalk _ _ _ | ChainLoad _ _ _ _ | ChainCAS _ _ _ _ => true
  | _ => false
  end.

(** [finishes k p g]: left alone in the memory [g], a thread at [p] ends its
    call within [k] steps.  Only the allocation of [push] throws, and no
    step of [push] faults. *)
Definition finishes (k : nat) (p : pc T) (g : shared T) : Prop :=
  ∀ fuel, (k ≤ fuel)%nat →
    match run_solo fuel p g with
    | Ok p' _ => done p' = true
    | Throw _ => ∃ v, p = PushNew v
    | Fault => in_push p = false
    | Diverge => False
    end.

(** One thread left alone when [compare_exchange_weak] may fail although
    the expected value is there: [flags] tells for each of the first steps
    whether an exchange in it fails so; the steps after these have no such
    failure, and [fuel] bounds their number. *)
Fixpoint run_weak (flags : list bool) (fuel : nat) (p : pc T) (g : shared T)
  : outcome T (pc T) :=
  match flags with
  | [] => run_solo fuel p g
  | spurious :: flags' =>
      if done p then Ok p g
      else match tstep spurious p g with
           | Ok p' g' => run_weak flags' fuel p' g'
           | Throw g' => Throw g'
           | Fault => Fault
           | Diverge => Diverge
           end
  end.

(** The values of the calls of [push] a thread has not allocated a node
    for yet. *)
Definition unpushed (th : thread T) : list T :=
  todo_values (todo th) ++
  match at_pc th with
  | Some (PushNew v) => [v]
  | _ => []
  end.

End Progress.

(** An allocator that never fails (it returns an address above every live
    one) and one that always fails. *)
#[export] Program Instance fresh_allocator : Allocator :=
  {| new_addr live := Some (fresh live) |}.
Next Obligation. intros live a [= <-]. apply is_fresh. Qed.

Definition no_memory : Allocator :=
  {| new_addr _ := None; new_addr_fresh _ _ Hfail := match Hfail with end |}.

(** ** Concrete stacks and schedules *)

(** Thread 0 pushes, then threads 1 and 2 call [pop] so that both are
    inside before either reads the counter: both enter, both detach a node
    and read the counter as 2, then each chains its node and leaves. *)
Definition both_defer (pushes : nat) : list nat :=
  (replicate (5 * pushes) 0 ++ [1; 1; 2; 2] ++ [1; 1; 1; 1; 1] ++ [2; 2; 2; 2; 2]
   ++ [1; 1; 1; 1] ++ [2; 2; 2; 2])%nat.

(** What that schedule leaves of the values 1, 2: nothing on the main list,
    the nodes at 1 and 2 pending. *)
Definition both_deferred : shared nat :=
  Shared (list_to_map [(1%positive, Node None (Some 2%positive));
                       (2%positive, Node None None)])
         None (Some 1%positive) 0 2 0.

(** What it leaves of the values 1, 2, 3: the node at 1 on the main list,
    the nodes at 2 and 3 pending. *)
Definition two_deferred : shared nat :=
  Shared (list_to_map [(1%positive, Node (Some 1%nat) None);
                       (2%positive, Node None (Some 3%positive));
                       (3%positive, Node None None)])
         (Some 1%positive) (Some 2%positive) 0 3 0.

(** The empty stack while one other thread is inside [pop]. *)
Definition one_in_flight : shared nat := Shared ∅ None None 1 0 0.

(** A thread about to run [try_reclaim] on the node at 3 while the nodes at
    1 and 2 are pending, and the memory after it took them and a second
    thread entered [pop]. *)
Definition two_pending : shared nat :=
  Shared (list_to_map [(1%positive, Node None (Some 2%positive));
                       (2%positive, Node None None);
                       (3%positive, Node None None)])
         None (Some 1%positive) 1 3 0.

Definition two_taken : shared nat :=
  Shared (list_to_map [(1%positive, Node None (Some 2%positive));
                       (2%positive, Node None None)])
         None None 2 3 1.

(** One value is pushed, then two threads call [pop]: both enter, thread 1
    detaches the node, thread 2 finds the stack empty and reads the counter
    as 2. *)
Definition pop_beside_empty_pop : list nat :=
  (replicate 5 0 ++ [1; 1; 2; 2] ++ [1; 1; 1] ++ [2; 2; 2; 2])%nat.

(** The calls of the threads in these runs, and the threads at the end. *)
Definition three_pushes_two_pops : list (list (call nat)) :=
  [[CallPush 1; CallPush 2; CallPush 3]; [CallPop]; [CallPop]]%nat.

Definition both_returned : list (thread nat) :=
  [Thread None [] []; Thread None [] [Some 3%nat]; Thread None [] [Some 2%nat]].

Definition one_push_two_pops : list (list (call nat)) :=
  [[CallPush 10%nat]; [CallPop]; [CallPop]].

Definition before_fault : list (thread nat) :=
  [Thread None [] [];
   Thread (Some (PopSwap (Some 1%positive))) [] [];
   Thread (Some (ChainLoad None None ThenDecrement None)) [] []].

Definition detached_ten : shared nat :=
  Shared {[1%positive := Node (Some 10%nat) None]} None None 2 1 0.

(** Two values pushed while a thread that entered [pop] is stalled after
    its increment. *)
Definition two_pushed_one_stalled : shared nat :=
  Shared (list_to_map [(1%positive, Node (Some 1%nat) None);
                       (2%positive, Node (Some 2%nat) (Some 1%positive))])
         (Some 2%positive) None 1 2 0.

(** [two_deferred] after [push(7)]. *)
Definition seven_on_two_deferred : shared nat :=
  Shared (list_to_map [(1%positive, Node (Some 1%nat) None);
                       (2%positive, Node None (Some 3%positive));
                       (3%positive, Node None None);
                       (4%positive, Node (Some 7%nat) (Some 1%positive))])
         (Some 4%positive) (Some 2%positive) 0 4 0.

(** Calls of [push] and [pop] in some order on one thread. *)
Definition mixed_calls : list (call nat) :=
  [CallPush 1; CallPush 2; CallPop; CallPush 3; CallPop; CallPop; CallPop]%nat.

(** Two threads that push and one that pops.  Thread 0 pushes its first
    value, then thread 1 enters [pop] and reads [head] and [old_head->next]:
    it is at the exchange of line 110 with the node at 1 on top. *)
Definition producers_consumer : list (list (call nat)) :=
  [[CallPush 1; CallPush 2]; [CallPop; CallPop]; [CallPush 3]]%nat.

Definition to_exchange : list nat := (replicate 5 0 ++ replicate 4 1)%nat.

Definition at_exchange : list (thread nat) :=
  [Thread None [CallPush 2%nat] [];
   Thread (Some (PopCAS 1%positive None)) [CallPop] [];
   Thread None [CallPush 3%nat] []].

Definition one_on_top : shared nat :=
  Shared {[1%positive := Node (Some 1%nat) None]} (Some 1%positive) None 1 1 0.

(** The same after the exchange. *)
Definition after_exchange : list (thread nat) :=
  [Thread None [CallPush 2%nat] [];
   Thread (Some (PopSwap (Some 1%positive))) [CallPop] [];
   Thread None [CallPush 3%nat] []].

Definition one_detached : shared nat :=
  Shared {[1%positive := Node (Some 1%nat) None]} None None 1 1 0.

(** A thread chaining the nodes at 1 and 2 after another thread has put the
    node at 3 on the pending list: [last->next] is stale. *)
Definition stale_last : shared nat :=
  Shared (list_to_map [(1%positive, Node None (Some 2%positive));
                       (2%positive, Node None None);
                       (3%positive, Node None None)])
         None (Some 3%positive) 2 3 0.

Create HintDb state discriminated.
#[export] Hint Unfold set_heap set_head set_to_be_deleted set_threads_in_pop
  new_node delete_node set_next : state.

Ltac state_simpl :=
  autounfold with state;
  cbn [done tstep after deref heap head to_be_deleted threads_in_pop
       allocated freed data next andb negb].

Ltac open_state g :=
  destruct g as [?h ?hd ?tbd ?c ?al ?fr];
  cbn [heap head to_be_deleted threads_in_pop allocated freed].

(** ** The counter *)

Lemma wrap_int_id z : int_range z → wrap_int z = z.
Proof.
  unfold wrap_int, int_range. change (2 ^ 31) with 2147483648.
  change (2 ^ 32) with 4294967296. intros Hz.
  rewrite Z.mod_small by lia. lia.
Qed.

Lemma wrap_int_range z : int_range (wrap_int z).
Proof.
  unfold wrap_int, int_range. change (2 ^ 31) with 2147483648.
  change (2 ^ 32) with 4294967296.
  pose proof (Z.mod_pos_bound (z + 2147483648) 4294967296). lia.
Qed.

Lemma wrap_int_inc_dec c : int_range c → wrap_int (wrap_int (c + 1) - 1) = c.
Proof.
  unfold wrap_int, int_range. change (2 ^ 31) with 2147483648.
  change (2 ^ 32) with 4294967296. intros Hc.
  replace ((c + 1 + 2147483648) mod 4294967296 - 2147483648 - 1 + 2147483648)
    with ((c + 1 + 2147483648) mod 4294967296 - 1) by lia.
  rewrite Zminus_mod_idemp_l.
  replace (c + 1 + 2147483648 - 1) with (c + 2147483648) by lia.
  rewrite Z.mod_small by lia. lia.
Qed.

Lemma wrap_int_inc_one c : int_range c → wrap_int (c + 1) = 1 ↔ c = 0.
Proof.
  intros Hc. split; [|intros ->; reflexivity].
  intros H1. rewrite <- (wrap_int_inc_dec c Hc), H1. reflexivity.
Qed.

(** ** Linked lists in the heap *)

Section Lists.
Context {T : Type}.
Implicit Types (h : gmap positive (node T)) (p q : ptr) (l : list positive).

Lemma chain_fun h p l1 l2 : chain h p l1 → chain h p l2 → l1 = l2.
Proof.
  revert p l2. induction l1 as [|a l1 IH]; intros p [|b l2]; cbn; try congruence.
  - intros -> [? _]; congruence.
  - intros [-> _] ?; congruence.
  - intros [-> (n & Hn & H1)] [[= <-] (m & Hm & H2)].
    rewrite Hn in Hm. injection Hm as <-. f_equal. eauto.
Qed.

Lemma chain_suffix h p l1 l2 : chain h p (l1 ++ l2) → ∃ q, chain h q l2.
Proof.
  revert p. induction l1 as [|a l1 IH]; intros p; cbn; [eauto|].
  intros (_ & n & _ & Hc). eauto.
Qed.

Lemma chain_head h p a l : chain h p (a :: l) → p = Some a.
Proof. by intros [-> _]. Qed.

(** A list that ends at [nullptr] visits no node twice. *)
Lemma chain_NoDup h p l : chain h p l → NoDup l.
Proof.
  revert p. induction l as [|a l IH]; intros p Hc; [constructor|].
  pose proof Hc as [-> (n & Hn & Hl)].
  constructor; [|eauto].
  intros (l1 & l2 & ->)%list_elem_of_split.
  destruct (chain_suffix _ _ _ _ Hl) as [q Hq].
  pose proof (chain_head _ _ _ _ Hq) as ->.
  pose proof (chain_fun _ _ _ _ Hc Hq) as Heq.
  apply (f_equal length) in Heq. cbn in Heq.
  rewrite length_app in Heq. cbn in Heq. lia.
Qed.

Lemma chain_live h p l a : chain h p l → a ∈ l → is_Some (h !! a).
Proof.
  revert p. induction l as [|b l IH]; intros p; cbn.
  - intros _ Hin. by apply elem_of_nil in Hin.
  - intros (_ & n & Hn & Hl) [->|Hin]%elem_of_cons; eauto.
Qed.

Lemma chain_ext h h' p l :
  (∀ a, a ∈ l → h' !! a = h !! a) → chain h p l → chain h' p l.
Proof.
  revert p. induction l as [|b l IH]; intros p Hext; cbn; [done|].
  intros (-> & n & Hn & Hl). split; [done|]. exists n. split.
  - rewrite Hext; [done|]. apply elem_of_cons; auto.
  - apply IH; [|done]. intros a Ha. apply Hext, elem_of_cons; auto.
Qed.

Lemma chain_delete h p l a : a ∉ l → chain h p l → chain (delete a h) p l.
Proof.
  intros Ha. apply chain_ext. intros b Hb.
  apply lookup_delete_ne. intros ->. contradiction.
Qed.

Lemma chain_insert h p l a n : a ∉ l → chain h p l → chain (<[a := n]> h) p l.
Proof.
  intros Ha. apply chain_ext. intros b Hb.
  apply lookup_insert_ne. intros ->. contradiction.
Qed.

Lemma chain_length h p l : chain h p l → (length l ≤ size h)%nat.
Proof.
  intros Hc. rewrite <- size_dom.
  rewrite <- (size_list_to_set (C := gset positive) l) by (eapply chain_NoDup; eauto).
  apply subseteq_size. intros a Ha%elem_of_list_to_set.
  apply elem_of_dom. eapply chain_live; eauto.
Qed.

Lemma free_list_proj l : ∀ g : shared T,
  head (free_list l g) = head g ∧ to_be_deleted (free_list l g) = to_be_deleted g ∧
  threads_in_pop (free_list l g) = threads_in_pop g ∧
  allocated (free_list l g) = allocated g ∧
  freed (free_list l g) = (freed g + length l)%nat ∧
  heap (free_list l g) = foldr delete (heap g) l.
Proof.
  induction l as [|a l IH]; intros g; cbn [free_list length foldr].
  - repeat split; lia.
  - destruct (IH (delete_node a g)) as (-> & -> & -> & -> & -> & ->).
    cbn [delete_node head to_be_deleted threads_in_pop allocated freed heap].
    repeat split; [lia|].
    clear. induction l as [|b l IH]; cbn [foldr]; [done|].
    by rewrite IH, delete_delete.
Qed.

End Lists.

(** ** One call alone *)

Section Run.
Context {T : Type} `{Allocator}.
Implicit Types (g : shared T) (p : pc T).

Lemma run_solo_S fuel p g :
  run_solo (S fuel) p g =
  if done p then Ok p g
  else match tstep false p g with
       | Ok p' g' => run_solo fuel p' g'
       | Throw g' => Throw g'
       | Fault => Fault
       | Diverge => Diverge
       end.
Proof. reflexivity. Qed.

Lemma run_solo_done fuel p g : done p = true → run_solo fuel p g = Ok p g.
Proof. intros Hd. destruct fuel; cbn [run_solo]; by rewrite Hd. Qed.

(** Only [new] throws, and it leaves the memory as it was. *)
Lemma tstep_throw sp p g g' :
  tstep sp p g = Throw g' →
  ∃ v, p = PushNew v ∧ g' = g ∧ new_addr (dom (heap g)) = None.
Proof.
  destruct p; cbn [tstep]; repeat case_match; try discriminate.
  intros [= <-]. eauto.
Qed.

Lemma tstep_in_push sp p g p' g' :
  tstep sp p g = Ok p' g' → in_push p' = in_push p.
Proof.
  destruct p; cbn [tstep]; repeat case_match; try discriminate;
    intros [= <- <-]; try reflexivity.
  all: by match goal with k : after_chain |- _ => destruct k end.
Qed.

Lemma run_solo_throw fuel : ∀ p g g',
  run_solo fuel p g = Throw g' → in_push p = true.
Proof.
  induction fuel as [|fuel IH]; intros p g g'; cbn [run_solo];
    destruct (done p) eqn:Hd; try discriminate.
  destruct (tstep false p g) as [p1 g1| g1 | |] eqn:Hs; try discriminate.
  - intros Hr. rewrite <- (tstep_in_push _ _ _ _ _ Hs). eauto.
  - intros _. by destruct (tstep_throw _ _ _ _ Hs) as (v & -> & _).
Qed.

End Run.

Ltac solo_step := rewrite run_solo_S; state_simpl.

Section Solo.
Context {T : Type} `{Allocator}.
Implicit Types (g : shared T) (p : pc T) (h : gmap positive (node T)).
Implicit Types (l ms ps : list positive) (res : option T).

Lemma push_ok v g a :
  new_addr (dom (heap g)) = Some a →
  push v g = Ok tt (Shared (<[a := Node (Some v) (head g)]> (heap g)) (Some a)
                      (to_be_deleted g) (threads_in_pop g) (S (allocated g)) (freed g)).
Proof.
  intros Ha. unfold push, call_fuel. cbn [Nat.add].
  solo_step. rewrite Ha.
  solo_step. rewrite lookup_insert_eq.
  solo_step. rewrite lookup_insert_eq. state_simpl.
  rewrite bool_decide_eq_true_2 by done. state_simpl.
  rewrite run_solo_done by done. state_simpl. by rewrite !insert_insert_eq.
Qed.

Lemma push_throw v g :
  new_addr (dom (heap g)) = None → push v g = Throw g.
Proof.
  intros Ha. unfold push, call_fuel. cbn [Nat.add]. solo_step. by rewrite Ha.
Qed.

(** The loop of [delete_nodes] over a list of live nodes. *)
Lemma delete_nodes_run l : ∀ g nodes res fuel,
  chain (heap g) nodes l → (length l < fuel)%nat →
  run_solo fuel (DeleteNodes nodes res) g = Ok (PopDone res) (free_list l g).
Proof.
  induction l as [|a l IH]; intros g nodes res [|fuel] Hc Hf; cbn in Hf; try lia.
  - cbn in Hc. subst nodes. solo_step. by rewrite run_solo_done.
  - pose proof (chain_NoDup _ _ _ Hc) as [Ha _]%NoDup_cons.
    destruct Hc as (-> & n & Hn & Hl).
    solo_step. rewrite Hn. cbn [free_list]. apply IH; [|lia].
    cbn [delete_node heap]. by apply chain_delete.
Qed.

(** [pop] when no other thread is inside [pop]: the detached node and the
    whole pending list are freed. *)
Lemma pop_top_idle g a n ps :
  head g = Some a → heap g !! a = Some n →
  wrap_int (threads_in_pop g + 1) = 1 →
  chain (heap g) (to_be_deleted g) ps → a ∉ ps →
  pop g = Ok (data n)
    (free_list ps (Shared (delete a (heap g)) (next n) None 0
                          (allocated g) (S (freed g)))).
Proof.
  open_state g. intros -> Ha Hc Hps Hn.
  pose proof (chain_length _ _ _ Hps) as Hlen.
  unfold pop, call_fuel. cbn [Nat.add].
  do 3 solo_step. rewrite Ha.
  solo_step. rewrite bool_decide_eq_true_2 by done. state_simpl.
  solo_step. rewrite Ha.
  solo_step. rewrite Hc, bool_decide_eq_true_2 by done.
  solo_step. rewrite lookup_insert_eq.
  do 2 solo_step.
  change (wrap_int (1 - 1)) with 0. rewrite bool_decide_eq_true_2 by done.
  rewrite delete_insert_eq.
  rewrite (delete_nodes_run ps); [done| |cbn [heap]; lia].
  cbn [heap]. by apply chain_delete.
Qed.

(** [pop] of a node while another thread is inside [pop]: the node goes
    to the pending list. *)
Lemma pop_top_busy g a n :
  head g = Some a → heap g !! a = Some n →
  wrap_int (threads_in_pop g + 1) ≠ 1 →
  pop g = Ok (data n)
    (Shared (<[a := Node None (to_be_deleted g)]> (heap g)) (next n) (Some a)
            (wrap_int (wrap_int (threads_in_pop g + 1) - 1))
            (allocated g) (freed g)).
Proof.
  open_state g. intros -> Ha Hc.
  unfold pop, call_fuel. cbn [Nat.add].
  do 3 solo_step. rewrite Ha.
  solo_step. rewrite bool_decide_eq_true_2 by done. state_simpl.
  solo_step. rewrite Ha.
  solo_step. rewrite bool_decide_eq_false_2 by done.
  solo_step. rewrite lookup_insert_eq.
  solo_step. rewrite lookup_insert_eq. state_simpl.
  rewrite bool_decide_eq_true_2 by done. state_simpl.
  solo_step. rewrite run_solo_done by done. by rewrite !insert_insert_eq.
Qed.

(** [pop] on an empty stack when no other thread is inside [pop]: the
    pending list is freed all the same. *)
Lemma pop_empty_idle g ps :
  head g = None → wrap_int (threads_in_pop g + 1) = 1 →
  chain (heap g) (to_be_deleted g) ps →
  pop g = Ok None
    (free_list ps (Shared (heap g) None None 0 (allocated g) (freed g))).
Proof.
  open_state g. intros -> Hc Hps.
  pose proof (chain_length _ _ _ Hps) as Hlen.
  unfold pop, call_fuel. cbn [Nat.add].
  do 5 solo_step. rewrite Hc, bool_decide_eq_true_2 by done.
  do 3 solo_step.
  change (wrap_int (1 - 1)) with 0. rewrite bool_decide_eq_true_2 by done.
  rewrite (delete_nodes_run ps); [done|done|cbn [heap]; lia].
Qed.

(** [pop] on an empty stack while another thread is inside [pop]:
    [chain_pending_nodes] is called with [nullptr] and writes through it. *)
Lemma pop_empty_busy g :
  head g = None → wrap_int (threads_in_pop g + 1) ≠ 1 → pop g = Fault.
Proof.
  open_state g. intros -> Hc.
  unfold pop, call_fuel. cbn [Nat.add].
  do 5 solo_step. rewrite bool_decide_eq_false_2 by done.
  by solo_step.
Qed.

End Solo.

(** ** One thread using the stack *)

Section Sequential.
Context {T : Type} `{Allocator}.
Implicit Types (g : shared T) (h : gmap positive (node T)).
Implicit Types (l ms ps : list positive) (vs ws : list T).

Lemma holds_ext h h' l vs :
  (∀ a, a ∈ l → h' !! a = h !! a) → holds h l vs → holds h' l vs.
Proof.
  revert vs. induction l as [|b l IH]; intros [|v vs] Hext; cbn; try done.
  intros [[q Hq] Hl]. split.
  - exists q. rewrite Hext; [done|]. apply elem_of_cons; auto.
  - apply IH; [|done]. intros a Ha. apply Hext, elem_of_cons; auto.
Qed.

Lemma holds_length h l vs : holds h l vs → length l = length vs.
Proof.
  revert vs. induction l as [|b l IH]; intros [|v vs]; cbn; try done.
  intros [_ Hl]. f_equal. eauto.
Qed.

Lemma construct_sequential : sequential (T := T) construct [].
Proof. by exists []. Qed.

Lemma push_sequential v g vs g' :
  sequential g vs → push v g = Ok tt g' → sequential g' (v :: vs).
Proof.
  intros (ms & Hc & Hv & Hp & Hn).
  destruct (new_addr (dom (heap g))) as [a|] eqn:Ha.
  - rewrite (push_ok _ _ _ Ha). intros [= <-].
    apply new_addr_fresh, not_elem_of_dom in Ha.
    assert (a ∉ ms) as Hfresh.
    { intros [n Hn']%(chain_live _ _ _ _ Hc). congruence. }
    exists (a :: ms). cbn [heap head to_be_deleted threads_in_pop].
    repeat split; try done.
    + exists (Node (Some v) (head g)). rewrite lookup_insert_eq.
      split; [done|]. by apply chain_insert.
    + eexists. by rewrite lookup_insert_eq.
    + eapply holds_ext; [|done]. intros b Hb. apply lookup_insert_ne. congruence.
  - by rewrite push_throw.
Qed.

Lemma push_all_sequential vs : ∀ g ws g',
  sequential g ws → push_all vs g = Ok tt g' → sequential g' (rev vs ++ ws).
Proof.
  induction vs as [|v vs IH]; intros g ws g' Hs; cbn [push_all rev].
  - by intros [= <-].
  - destruct (push v g) as [[] g1| | |] eqn:Hp; try discriminate.
    intros Hr. rewrite <- app_assoc. cbn [app].
    eapply IH; [|done]. by eapply push_sequential.
Qed.

Lemma pop_sequential g v vs :
  sequential g (v :: vs) → ∃ g', pop g = Ok (Some v) g' ∧ sequential g' vs.
Proof.
  intros (ms & Hc & Hv & Hp & Hn). destruct ms as [|a ms]; [done|].
  pose proof (chain_NoDup _ _ _ Hc) as [Ha _]%NoDup_cons.
  destruct Hc as (Hh & n & Hlook & Hc). destruct Hv as [[q Hq] Hv].
  rewrite Hlook in Hq. injection Hq as ->.
  eexists. split.
  - rewrite (pop_top_idle g a (Node (Some v) q) []); cbn [data chain];
      [done|done|done|by rewrite Hn|done|apply not_elem_of_nil].
  - cbn [free_list]. exists ms.
    cbn [heap head to_be_deleted threads_in_pop next] in *.
    repeat split; try done.
    + by apply chain_delete.
    + eapply holds_ext; [|done]. intros b Hb. apply lookup_delete_ne. congruence.
Qed.

Lemma pop_sequential_empty g :
  sequential g [] → pop g = Ok None g.
Proof.
  intros (ms & Hc & Hv & Hp & Hn). destruct ms; [|done]. cbn in Hc.
  rewrite (pop_empty_idle g []); cbn [free_list chain];
    [|done|by rewrite Hn|done].
  open_state g. cbn in *. by subst.
Qed.

Lemma pop_n_sequential vs : ∀ g,
  sequential g vs →
  ∃ g', pop_n (S (length vs)) g = Ok (map Some vs ++ [None]) g' ∧ sequential g' [].
Proof.
  induction vs as [|v vs IH]; intros g Hs.
  - exists g. cbn [pop_n length]. by rewrite pop_sequential_empty.
  - destruct (pop_sequential _ _ _ Hs) as (g1 & Hp & Hs1).
    destruct (IH _ Hs1) as (g' & Hn & Hs').
    exists g'. split; [|done].
    cbn [length]. change (pop_n (S (S (length vs))) g)
      with (match pop g with
            | Ok r g1 => match pop_n (S (length vs)) g1 with
                         | Ok rs g2 => Ok (r :: rs) g2
                         | Throw g2 => Throw g2
                         | Fault => Fault
                         | Diverge => Diverge
                         end
            | Throw g1 => Throw g1
            | Fault => Fault
            | Diverge => Diverge
            end).
    by rewrite Hp, Hn.
Qed.

(** C1 (sequential LIFO law): when one thread has pushed [v1 ... vn] onto
    a freshly constructed stack (no allocation failed), the next [n] calls of
    [pop] return [vn ... v1] in that order and the call after them returns
    the empty handle. *)
Theorem sequential_lifo vs g :
  push_all vs construct = Ok tt g →
  ∃ g', pop_n (S (length vs)) g = Ok (map Some (rev vs) ++ [None]) g'.
Proof.
  intros Hp.
  pose proof (push_all_sequential vs construct [] g construct_sequential Hp) as Hs.
  rewrite app_nil_r in Hs.
  destruct (pop_n_sequential _ _ Hs) as (g' & Hn & _).
  exists g'. by rewrite length_rev in Hn.
Qed.

(** With the default constructor of C++20, which value-initialises the two
    members the constructor does not mention: right after the constructor
    [head] is null, the pending list is empty, the counter of threads
    inside [pop] is zero, no node is live, and the first [pop] returns the
    empty handle. *)
Lemma construct_empty :
  head (T := T) construct = None ∧ to_be_deleted (T := T) construct = None ∧
  threads_in_pop (T := T) construct = 0 ∧ heap (T := T) construct = ∅ ∧
  pop (T := T) construct = Ok None construct.
Proof.
  refine (conj eq_refl (conj eq_refl (conj eq_refl (conj eq_refl _)))).
  apply pop_sequential_empty, construct_sequential.
Qed.

(** C5 (empty-pop idempotence): any number of calls of [pop] on a freshly
    constructed stack all return the empty handle, none faults, and the
    stack is left exactly as constructed. *)
Theorem empty_pop_idempotent (n : nat) :
  pop_n (T := T) n construct = Ok (replicate n None) construct.
Proof.
  induction n as [|n IH]; [done|].
  cbn [pop_n replicate].
  by rewrite (pop_sequential_empty _ construct_sequential), IH.
Qed.

End Sequential.

(** ** Failures *)

Section Failures.
Context {T : Type} `{Allocator}.
Implicit Types (g : shared T) (ps : list positive).

Lemma pop_no_throw g g' : pop g ≠ Throw g'.
Proof.
  unfold pop. destruct (run_solo _ _ g) as [p g1|g1| |] eqn:Hr;
    [by destruct p|..|done|done].
  by apply run_solo_throw in Hr.
Qed.

Lemma drain_no_throw fuel : ∀ g g', drain fuel g ≠ Throw g'.
Proof.
  induction fuel as [|fuel IH]; intros g g'; cbn [drain]; [done|].
  destruct (pop g) as [[v|] g1|g1| |] eqn:Hp; try done.
  by destruct (pop_no_throw g g1).
Qed.

(** C6 (allocation failure): [push] throws exactly when [new] fails, the
    exception leaves the call with the stack as it was before the call, and
    alone [push] ends in no other way than normally or by this exception;
    neither [pop] nor the destructor throws. *)
Theorem push_allocation_failure (v : T) g :
  (new_addr (dom (heap g)) = None → push v g = Throw g) ∧
  (∀ g', push v g = Throw g' → g' = g ∧ new_addr (dom (heap g)) = None) ∧
  (push v g = Throw g ∨ ∃ g', push v g = Ok tt g') ∧
  (∀ g', pop g ≠ Throw g') ∧
  (∀ g', destroy g ≠ Throw g').
Proof.
  split; [apply push_throw|].
  destruct (new_addr (dom (heap g))) as [a|] eqn:Ha.
  - rewrite (push_ok _ _ _ Ha). repeat split; try done; [eauto| |].
    + apply pop_no_throw.
    + apply drain_no_throw.
  - rewrite (push_throw _ _ Ha). repeat split; try congruence; [eauto| |].
    + apply pop_no_throw.
    + apply drain_no_throw.
Qed.

(** C2, amended: on an empty stack with no other thread inside [pop], the
    call returns the empty handle without fault, [head] stays null and the
    counter is back at zero; the pending list is taken and every node on it
    is freed. *)
Theorem empty_pop_idle g ps :
  head g = None → threads_in_pop g = 0 →
  chain (heap g) (to_be_deleted g) ps →
  ∃ g', pop g = Ok None g' ∧
        head g' = None ∧ threads_in_pop g' = 0 ∧ to_be_deleted g' = None ∧
        (∀ a, a ∈ ps → heap g' !! a = None) ∧
        (∀ a, a ∉ ps → heap g' !! a = heap g !! a) ∧
        freed g' = (freed g + length ps)%nat ∧ allocated g' = allocated g.
Proof.
  intros Hh Hc Hps. eexists. split.
  { apply pop_empty_idle; [done|by rewrite Hc|done]. }
  destruct (free_list_proj ps (Shared (heap g) None None 0 (allocated g) (freed g)))
    as (-> & -> & -> & -> & -> & ->).
  cbn [heap head to_be_deleted threads_in_pop allocated freed].
  repeat split.
  - intros a Ha. by apply lookup_foldr_delete.
  - intros a Ha. by apply lookup_foldr_delete_not_elem_of.
Qed.

End Failures.

(** ** The invariants under the calls *)

Section Invariants.
Context {T : Type} `{Allocator}.
Implicit Types (g : shared T) (h : gmap positive (node T)).
Implicit Types (l ms ps : list positive).

Lemma live_handles_ext h h' l :
  (∀ a, a ∈ l → h' !! a = h !! a) → live_handles h l → live_handles h' l.
Proof. intros Hext Hl a Ha. rewrite Hext by done. by apply Hl. Qed.

Lemma released_handles_ext h h' l :
  (∀ a, a ∈ l → h' !! a = h !! a) → released_handles h l → released_handles h' l.
Proof. intros Hext Hl a Ha. rewrite Hext by done. by apply Hl. Qed.

Lemma construct_inv : stack_inv (T := T) construct [] [].
Proof.
  split; try done; intros a Ha; by apply elem_of_nil in Ha.
Qed.

Lemma push_inv v g ms ps g' :
  stack_inv g ms ps → push v g = Ok tt g' →
  ∃ a, head g' = Some a ∧ stack_inv g' (a :: ms) ps.
Proof.
  intros [Hm Hp Hd Hl Hr].
  destruct (new_addr (dom (heap g))) as [a|] eqn:Ha; [|by rewrite push_throw].
  rewrite (push_ok _ _ _ Ha). intros [= <-].
  apply new_addr_fresh, not_elem_of_dom in Ha.
  assert (a ∉ ms) as Hams.
  { intros [n Hn]%(chain_live _ _ _ _ Hm). congruence. }
  assert (a ∉ ps) as Haps.
  { intros [n Hn]%(chain_live _ _ _ _ Hp). congruence. }
  exists a. split; [done|].
  split; cbn [heap head to_be_deleted].
  - split; [done|]. eexists. rewrite lookup_insert_eq.
    split; [done|]. by apply chain_insert.
  - by apply chain_insert.
  - intros b [->|Hb]%elem_of_cons; auto.
  - intros b [->|Hb]%elem_of_cons.
    + rewrite lookup_insert_eq. eauto.
    + rewrite lookup_insert_ne by congruence. by apply Hl.
  - intros b Hb. rewrite lookup_insert_ne by congruence. by apply Hr.
Qed.

Lemma pop_inv g ms ps res g' :
  stack_inv g ms ps → pop g = Ok res g' →
  stack_inv g' (tail ms) [] ∨
  ∃ a, head g = Some a ∧ stack_inv g' (tail ms) (a :: ps).
Proof.
  intros [Hm Hp Hd Hl Hr].
  destruct (decide (wrap_int (threads_in_pop g + 1) = 1)) as [Hc|Hc];
    destruct ms as [|a ms].
  - (* empty, no other thread inside pop *)
    cbn in Hm. rewrite (pop_empty_idle g ps) by done. intros [= <- <-]. left.
    destruct (free_list_proj ps (Shared (heap g) None None 0 (allocated g) (freed g)))
      as (Hh' & Ht' & _ & _ & _ & Hheap).
    split; rewrite ?Hh', ?Ht'; cbn [tail]; try done;
      intros b Hb; by apply elem_of_nil in Hb.
  - (* a node, no other thread inside pop *)
    pose proof (chain_NoDup _ _ _ Hm) as [Ha _]%NoDup_cons.
    destruct Hm as (Hh & n & Hn & Hm).
    assert (a ∉ ps) as Haps by (apply Hd, elem_of_cons; auto).
    rewrite (pop_top_idle g a n ps) by done. intros [= <- <-]. left.
    destruct (free_list_proj ps (Shared (delete a (heap g)) (next n) None 0
                (allocated g) (S (freed g)))) as (Hh' & Ht' & _ & _ & _ & Hheap).
    assert (∀ b, b ∈ ms → foldr delete (delete a (heap g)) ps !! b = heap g !! b)
      as Hsame.
    { intros b Hb. rewrite lookup_foldr_delete_not_elem_of.
      - apply lookup_delete_ne. congruence.
      - apply Hd, elem_of_cons; auto. }
    split; rewrite ?Hh', ?Ht', ?Hheap; cbn [tail head to_be_deleted heap].
    + by apply (chain_ext (heap g)).
    + done.
    + intros b _ Hb. by apply elem_of_nil in Hb.
    + apply (live_handles_ext (heap g)); [done|].
      intros b Hb. apply Hl, elem_of_cons; auto.
    + intros b Hb. by apply elem_of_nil in Hb.
  - (* empty, another thread inside pop *)
    cbn in Hm. by rewrite pop_empty_busy.
  - (* a node, another thread inside pop *)
    pose proof (chain_NoDup _ _ _ Hm) as [Ha _]%NoDup_cons.
    destruct Hm as (Hh & n & Hn & Hm).
    assert (a ∉ ps) as Haps by (apply Hd, elem_of_cons; auto).
    rewrite (pop_top_busy g a n) by done. intros [= <- <-]. right.
    exists a. split; [done|].
    split; cbn [tail head to_be_deleted heap].
    + by apply chain_insert.
    + split; [done|]. eexists. rewrite lookup_insert_eq.
      split; [done|]. by apply chain_insert.
    + intros b Hb [->|Hbp]%elem_of_cons; [done|].
      revert Hbp. apply Hd, elem_of_cons; auto.
    + intros b Hb. rewrite lookup_insert_ne by congruence.
      apply Hl, elem_of_cons; auto.
    + intros b [->|Hb]%elem_of_cons.
      * rewrite lookup_insert_eq. eauto.
      * rewrite lookup_insert_ne by congruence. by apply Hr.
Qed.

End Invariants.

(** ** The reclamation step under interference *)

Section Reclaim.
Context {T : Type} `{Allocator}.
Implicit Types (g : shared T) (h : gmap positive (node T)) (p q : ptr).
Implicit Types (l ms ps qs : list positive) (res : option T).

Lemma chain_next_cons h p a l :
  chain h p (a :: l) → ∃ n, h !! a = Some n ∧ chain h (next n) l.
Proof. by intros [_ ?]. Qed.

(** The loop of [chain_pending_nodes(nodes)] stops at the last node. *)
Lemma chain_walk_run l : ∀ g a z nodes res fuel,
  chain (heap g) (Some a) (l ++ [z]) → (length l < fuel)%nat →
  run_solo fuel (ChainWalk nodes (Some a) res) g
  = run_solo (fuel - S (length l)) (ChainLoad nodes (Some z) ThenReturn res) g.
Proof.
  induction l as [|b l IH]; intros g a z nodes res [|fuel] Hc Hf;
    cbn [length] in Hf; try lia.
  - destruct Hc as ([= <-] & n & Hn & Hnext). cbn in Hnext.
    solo_step. rewrite Hn, Hnext. cbn [length Nat.sub]. by rewrite Nat.sub_0_r.
  - destruct Hc as ([= <-] & n & Hn & Hnext).
    assert (∃ c, next n = Some c) as [c Hc].
    { destruct l; destruct Hnext as [-> _]; eauto. }
    rewrite Hc in Hnext.
    solo_step. rewrite Hn, Hc. cbn [length Nat.sub].
    rewrite (IH g c z) by (done || lia). done.
Qed.

(** [chain_pending_nodes(first, last)] with no thread in between. *)
Lemma chain_load_run g first z n k res fuel :
  heap g !! z = Some n → (2 ≤ fuel)%nat →
  run_solo fuel (ChainLoad first (Some z) k res) g
  = run_solo (fuel - 2) (after k res)
      (Shared (<[z := Node (data n) (to_be_deleted g)]> (heap g)) (head g) first
              (threads_in_pop g) (allocated g) (freed g)).
Proof.
  intros Hn Hf. destruct fuel as [|[|fuel]]; try lia.
  cbn [Nat.sub]. rewrite Nat.sub_0_r.
  solo_step. rewrite Hn.
  solo_step. rewrite lookup_insert_eq. state_simpl.
  rewrite bool_decide_eq_true_2 by done. by state_simpl.
Qed.

(** Linking a list in front of another one. *)
Lemma chain_relink h l : ∀ p z n q qs,
  chain h p (l ++ [z]) → h !! z = Some n → chain h q qs →
  (∀ b, b ∈ l ++ [z] → b ∉ qs) →
  chain (<[z := Node (data n) q]> h) p ((l ++ [z]) ++ qs).
Proof.
  induction l as [|a l IH]; intros p z n q qs Hc Hz Hq Hd.
  - destruct Hc as (-> & _). cbn. split; [done|].
    eexists. rewrite lookup_insert_eq. split; [done|]. cbn.
    apply chain_insert; [|done]. apply Hd. cbn. apply elem_of_cons; auto.
  - pose proof (chain_NoDup _ _ _ Hc) as [Ha _]%NoDup_cons.
    destruct Hc as (-> & m & Hm & Hc). cbn. split; [done|].
    exists m. split.
    + rewrite lookup_insert_ne; [done|]. intros ->. apply Ha.
      apply elem_of_app. right. apply elem_of_cons; auto.
    + apply IH; try done. intros b Hb. apply Hd. cbn. apply elem_of_cons; auto.
Qed.

(** After the decrement of line 24 gave zero: the taken list is freed. *)
Lemma reclaim_dec_zero g ntd res l :
  wrap_int (threads_in_pop g - 1) = 0 → chain (heap g) ntd l →
  resume (ReclaimDec ntd res) g
  = Ok (PopDone res) (free_list l (set_threads_in_pop 0 g)).
Proof.
  intros Hc Hl. pose proof (chain_length _ _ _ Hl) as Hlen.
  unfold resume, call_fuel. cbn [Nat.add].
  solo_step. rewrite Hc, bool_decide_eq_true_2 by done.
  rewrite (delete_nodes_run l); [done|done|cbn [heap]; lia].
Qed.

(** After the decrement of line 24 gave a value other than zero: the taken
    list is linked in front of what is pending now. *)
Lemma reclaim_dec_nonzero g a l z n res :
  wrap_int (threads_in_pop g - 1) ≠ 0 →
  chain (heap g) (Some a) (l ++ [z]) → heap g !! z = Some n →
  resume (ReclaimDec (Some a) res) g
  = Ok (PopDone res)
      (Shared (<[z := Node (data n) (to_be_deleted g)]> (heap g)) (head g) (Some a)
              (wrap_int (threads_in_pop g - 1)) (allocated g) (freed g)).
Proof.
  intros Hc Hl Hz. pose proof (chain_length _ _ _ Hl) as Hlen.
  rewrite length_app in Hlen. cbn [length] in Hlen.
  unfold resume, call_fuel. cbn [Nat.add].
  solo_step. rewrite bool_decide_eq_false_2 by done.
  rewrite (chain_walk_run l _ a z); [|done|cbn [heap]; lia].
  rewrite (chain_load_run _ _ z n); [|done|cbn [heap]; lia].
  cbn [after heap head to_be_deleted threads_in_pop allocated freed].
  by rewrite run_solo_done.
Qed.

Lemma reclaim_dec_nothing g res :
  wrap_int (threads_in_pop g - 1) ≠ 0 →
  resume (ReclaimDec None res) g
  = Ok (PopDone res) (set_threads_in_pop (wrap_int (threads_in_pop g - 1)) g).
Proof.
  intros Hc. unfold resume, call_fuel. cbn [Nat.add].
  solo_step. rewrite bool_decide_eq_false_2 by done.
  by rewrite run_solo_done.
Qed.

Lemma reclaim_first_steps g old_head res :
  threads_in_pop g = 1 →
  (∀ a, old_head = Some a → is_Some (heap g !! a)) →
  steps 3 (ReclaimCheck old_head res) g
  = Ok (ReclaimDec (to_be_deleted g) res)
       (set_to_be_deleted None (delete_ptr old_head g)).
Proof.
  open_state g. intros -> Hlive.
  change 3%nat with (S (S (S O))). cbn [steps]. state_simpl.
  rewrite bool_decide_eq_true_2 by done. state_simpl.
  destruct old_head as [a|]; state_simpl; [|done].
  destruct (Hlive a eq_refl) as [n ->]. by state_simpl.
Qed.

(** C4 (reclamation disposition): [try_reclaim] entered with the counter at
    one frees [old_head], takes the whole pending list [l] and leaves
    [to_be_deleted] null.  Whatever other threads did before its decrement
    (the memory is then [g2], with [qs] pending, the nodes of [l] untouched),
    the call ends: when the decrement gives zero every node of [l] is freed;
    when it does not, no node is freed, every node of [l] is still live, and
    the pending list is [l] followed by [qs]. *)
Theorem try_reclaim_disposition g old_head res l g2 qs :
  threads_in_pop g = 1 →
  chain (heap g) (to_be_deleted g) l →
  (∀ a, old_head = Some a → is_Some (heap g !! a)) →
  (∀ a, a ∈ l → heap g2 !! a = heap g !! a) →
  chain (heap g2) (to_be_deleted g2) qs →
  (∀ a, a ∈ l → a ∉ qs) →
  steps 3 (ReclaimCheck old_head res) g
  = Ok (ReclaimDec (to_be_deleted g) res)
       (set_to_be_deleted None (delete_ptr old_head g)) ∧
  ∃ g', resume (ReclaimDec (to_be_deleted g) res) g2 = Ok (PopDone res) g' ∧
        threads_in_pop g' = wrap_int (threads_in_pop g2 - 1) ∧
        allocated g' = allocated g2 ∧ head g' = head g2 ∧
        if decide (threads_in_pop g' = 0)
        then (∀ a, a ∈ l → heap g' !! a = None) ∧
             (∀ a, a ∉ l → heap g' !! a = heap g2 !! a) ∧
             freed g' = (freed g2 + length l)%nat ∧
             to_be_deleted g' = to_be_deleted g2
        else freed g' = freed g2 ∧
             dom (heap g') = dom (heap g2) ∧
             (∀ a, a ∈ l → is_Some (heap g' !! a)) ∧
             chain (heap g') (to_be_deleted g') (l ++ qs).
Proof.
  intros Hone Hl Hlive Hsame Hqs Hdisj.
  split; [by apply reclaim_first_steps|].
  assert (chain (heap g2) (to_be_deleted g) l) as Hl2 by by apply (chain_ext (heap g)).
  destruct (decide (wrap_int (threads_in_pop g2 - 1) = 0)) as [Hz|Hnz].
  - eexists. split; [by apply reclaim_dec_zero|].
    destruct (free_list_proj l (set_threads_in_pop 0 g2))
      as (-> & -> & -> & -> & -> & ->).
    cbn [set_threads_in_pop threads_in_pop allocated head heap freed to_be_deleted].
    rewrite Hz. do 3 (split; [done|]). rewrite decide_True by done.
    split; [|split; [|done]].
    + intros a Ha. by apply lookup_foldr_delete.
    + intros a Ha. by apply lookup_foldr_delete_not_elem_of.
  - destruct l as [|z l _] using rev_ind.
    + cbn in Hl. rewrite Hl. eexists. split; [by apply reclaim_dec_nothing|].
      cbn [set_threads_in_pop threads_in_pop allocated head heap freed to_be_deleted].
      do 3 (split; [done|]). rewrite decide_False by done.
      do 2 (split; [done|]). split; [|done].
      intros a Ha. by apply elem_of_nil in Ha.
    + assert (∃ a, to_be_deleted g = Some a) as [a Ha].
      { destruct l; destruct Hl2 as [-> _]; eauto. }
      rewrite Ha in *.
      destruct (chain_live _ _ _ z Hl2) as [n Hn].
      { apply elem_of_app. right. apply elem_of_cons; auto. }
      eexists. split; [by apply (reclaim_dec_nonzero _ _ l z n)|].
      cbn [threads_in_pop allocated head heap freed to_be_deleted].
      do 3 (split; [done|]). rewrite decide_False by done.
      split; [done|]. split; [|split].
      * apply dom_insert_lookup_L. eauto.
      * intros b Hb. destruct (decide (b = z)) as [->|Hne].
        -- rewrite lookup_insert_eq. eauto.
        -- rewrite lookup_insert_ne by done. eapply chain_live; eauto.
      * by apply chain_relink.
Qed.

End Reclaim.

(** ** The invariants under reclamation, and teardown *)

Section Teardown.
Context {T : Type} `{Allocator}.
Implicit Types (g : shared T) (h : gmap positive (node T)) (p q : ptr).
Implicit Types (l ms ps qs : list positive) (res : option T).

(** The end of [try_reclaim] after its decrement, with [l] the list it
    took: the invariants hold again, with [l] freed or pending again. *)
Lemma reclaim_dec_inv g ms qs l ntd res g' :
  stack_inv g ms qs → chain (heap g) ntd l → released_handles (heap g) l →
  (∀ a, a ∈ l → (a ∉ ms) ∧ (a ∉ qs)) →
  resume (ReclaimDec ntd res) g = Ok (PopDone res) g' →
  stack_inv g' ms qs ∨ stack_inv g' ms (l ++ qs).
Proof.
  intros [Hm Hp Hd Hl Hr] Hc Hrel Hfresh.
  destruct (decide (wrap_int (threads_in_pop g - 1) = 0)) as [Hz|Hnz].
  - rewrite (reclaim_dec_zero _ _ _ l) by done. intros [= <-]. left.
    destruct (free_list_proj l (set_threads_in_pop 0 g))
      as (Hh' & Ht' & _ & _ & _ & Hheap).
    assert (∀ b, b ∉ l → foldr delete (heap g) l !! b = heap g !! b) as Hsame.
    { intros b Hb. by apply lookup_foldr_delete_not_elem_of. }
    split; rewrite ?Hh', ?Ht', ?Hheap; cbn [set_threads_in_pop heap head to_be_deleted].
    + apply (chain_ext (heap g)); [|done]. intros b Hb. apply Hsame.
      intros Hbl. by destruct (Hfresh b Hbl).
    + apply (chain_ext (heap g)); [|done]. intros b Hb. apply Hsame.
      intros Hbl. by destruct (Hfresh b Hbl).
    + done.
    + apply (live_handles_ext (heap g)); [|done]. intros b Hb. apply Hsame.
      intros Hbl. by destruct (Hfresh b Hbl).
    + apply (released_handles_ext (heap g)); [|done]. intros b Hb. apply Hsame.
      intros Hbl. by destruct (Hfresh b Hbl).
  - destruct l as [|z l _] using rev_ind.
    + cbn in Hc. subst ntd. rewrite reclaim_dec_nothing by done.
      intros [= <-]. left. by split.
    + assert (∃ a, ntd = Some a) as [a ->].
      { destruct l; destruct Hc as [-> _]; eauto. }
      assert (z ∈ l ++ [z]) as Hzl.
      { apply elem_of_app. right. apply elem_of_cons; auto. }
      destruct (Hrel z Hzl) as [qz Hz]. destruct (Hfresh z Hzl) as [Hzm Hzq].
      rewrite (reclaim_dec_nonzero _ _ l z _ _ Hnz Hc Hz).
      intros [= <-]. right. split; cbn [heap head to_be_deleted data].
      * by apply chain_insert.
      * apply (chain_relink _ _ _ _ (Node None qz)); try done.
        intros b Hb. by destruct (Hfresh b Hb).
      * intros b Hb [Hbl|Hbq]%elem_of_app; [|by apply (Hd b)].
        by destruct (Hfresh b Hbl).
      * intros b Hb. rewrite lookup_insert_ne by congruence. by apply Hl.
      * intros b Hb. destruct (decide (b = z)) as [->|Hne].
        -- rewrite lookup_insert_eq. eauto.
        -- rewrite lookup_insert_ne by done.
           apply elem_of_app in Hb as [Hb|Hb]; [by apply Hrel|by apply Hr].
Qed.

(** The loop of the destructor on a stack no thread is inside. *)
Lemma drain_run ms : ∀ g ps fuel,
  stack_inv g ms ps → threads_in_pop g = 0 → (length ms < fuel)%nat →
  ∃ g', drain fuel g = Ok tt g' ∧
        head g' = None ∧ to_be_deleted g' = None ∧ threads_in_pop g' = 0 ∧
        allocated g' = allocated g ∧
        freed g' = (freed g + length ms + length ps)%nat ∧
        ∀ a, heap g' !! a = if decide (a ∈ ms ++ ps) then None else heap g !! a.
Proof.
  induction ms as [|a ms IH]; intros g ps [|fuel] Hi Hc Hf; cbn [length] in Hf;
    try lia; cbn [drain].
  - destruct Hi as [Hm Hp _ _ _]. cbn in Hm.
    rewrite (pop_empty_idle g ps); [|done|by rewrite Hc|done].
    eexists. split; [done|].
    destruct (free_list_proj ps (Shared (heap g) None None 0 (allocated g) (freed g)))
      as (-> & -> & -> & -> & -> & ->).
    cbn [heap head to_be_deleted threads_in_pop allocated freed app length].
    do 4 (split; [done|]). split; [lia|].
    intros b. case_decide.
    + by apply lookup_foldr_delete.
    + by apply lookup_foldr_delete_not_elem_of.
  - pose proof Hi as [Hm Hp Hd Hl _].
    destruct (Hl a) as (v & q & Hn); [apply elem_of_cons; auto|].
    assert (a ∉ ps) as Haps by (apply Hd, elem_of_cons; auto).
    destruct Hm as (Hh & _).
    pose proof (pop_top_idle g a _ ps Hh Hn) as Hpop.
    rewrite Hc in Hpop. specialize (Hpop eq_refl Hp Haps). cbn [data next] in Hpop.
    rewrite Hpop.
    destruct (pop_inv _ _ _ _ _ Hi Hpop) as [Hi'|(b & _ & Hi')]; cbn [tail] in Hi'.
    2:{ destruct Hi' as [_ [Hbad _] _ _ _].
        destruct (free_list_proj ps (Shared (delete a (heap g)) q None 0
                    (allocated g) (S (freed g)))) as (_ & Ht & _).
        rewrite Ht in Hbad. discriminate. }
    destruct (free_list_proj ps (Shared (delete a (heap g)) q None 0
                (allocated g) (S (freed g)))) as (Hh1 & Ht1 & Hc1 & Ha1 & Hf1 & Hheap1).
    destruct (IH _ [] fuel Hi') as (g' & Hrun & Hh' & Ht' & Hc' & Ha' & Hf' & Hheap');
      [by rewrite Hc1|lia|].
    exists g'. split; [done|]. do 3 (split; [done|]).
    rewrite Ha', Ha1, Hf', Hf1. cbn [allocated freed length].
    split; [done|]. split; [lia|].
    intros b. rewrite Hheap', Hheap1, app_nil_r. cbn [heap app].
    destruct (decide (b ∈ ms)) as [Hb|Hb].
    + rewrite decide_True; [done|]. apply elem_of_cons. right.
      apply elem_of_app; auto.
    + destruct (decide (b ∈ ps)) as [Hbp|Hbp].
      * rewrite lookup_foldr_delete by done. rewrite decide_True; [done|].
        apply elem_of_cons. right. apply elem_of_app; auto.
      * rewrite lookup_foldr_delete_not_elem_of by done.
        destruct (decide (b = a)) as [->|Hne].
        -- rewrite lookup_delete_eq. rewrite decide_True; [done|].
           apply elem_of_cons; auto.
        -- rewrite lookup_delete_ne by done. rewrite decide_False; [done|].
           intros [->|[?|?]%elem_of_app]%elem_of_cons; done.
Qed.

(** The destructor on a quiescent stack: no node stays live. *)
Lemma teardown_quiescent g ms ps :
  quiescent g ms ps →
  ∃ g', destroy g = Ok tt g' ∧
        heap g' = ∅ ∧ head g' = None ∧ to_be_deleted g' = None ∧
        allocated g' = allocated g ∧ freed g' = allocated g'.
Proof.
  intros [Hi Hc Hlisted Hcount].
  pose proof Hi as [Hm Hp Hd _ _].
  destruct (drain_run ms g ps (S (size (heap g))) Hi Hc)
    as (g' & Hrun & Hh' & Ht' & _ & Ha' & Hf' & Hheap').
  { pose proof (chain_length _ _ _ Hm). lia. }
  exists g'. split; [done|].
  assert (NoDup (ms ++ ps)) as Hnd.
  { apply NoDup_app. split; [by eapply chain_NoDup|].
    split; [done|by eapply chain_NoDup]. }
  assert (dom (heap g) = list_to_set (ms ++ ps)) as Hdom.
  { apply set_eq. intros a. rewrite elem_of_dom, elem_of_list_to_set, elem_of_app.
    split; [apply Hlisted|].
    intros [Ha|Ha]; [exact (chain_live _ _ _ _ Hm Ha)|exact (chain_live _ _ _ _ Hp Ha)]. }
  assert (size (heap g) = length (ms ++ ps)) as Hsize.
  { rewrite <- size_dom, Hdom. by apply size_list_to_set. }
  rewrite length_app in Hsize.
  split; [|split; [done|split; [done|split; [done|lia]]]].
  apply map_eq. intros a. rewrite Hheap', lookup_empty.
  case_decide as Ha; [done|].
  destruct (heap g !! a) eqn:Hlook; [|done].
  destruct Ha. apply elem_of_app, Hlisted. eauto.
Qed.

End Teardown.

(** ** Threads interleaved: the invariant *)

Section Footprint.
Context {T : Type}.
Implicit Types (h : gmap positive (node T)) (p q : ptr) (l o : list positive).
Implicit Types (th : thread T) (ths : list (thread T)).

Lemma seg_ext h h' p l q :
  (∀ a, a ∈ l → h' !! a = h !! a) → seg h p l q → seg h' p l q.
Proof.
  revert p. induction l as [|b l IH]; intros p Hext; cbn; [done|].
  intros (-> & n & Hn & Hl). split; [done|]. exists n. split.
  - rewrite Hext; [done|]. apply elem_of_cons; auto.
  - apply IH; [|done]. intros a Ha. apply Hext, elem_of_cons; auto.
Qed.

Lemma chain_seg h p l z :
  chain h p (l ++ [z]) → seg h p l (Some z) ∧ ∃ n, h !! z = Some n ∧ next n = None.
Proof.
  revert p. induction l as [|a l IH]; intros p; cbn.
  - intros (-> & n & Hn & Hnone). eauto.
  - intros (-> & n & Hn & Hl). destruct (IH _ Hl) as [Hs Hz]. eauto 8.
Qed.

Lemma seg_chain h p l z n ps :
  seg h p l (Some z) → h !! z = Some n → chain h (next n) ps →
  chain h p ((l ++ [z]) ++ ps).
Proof.
  revert p. induction l as [|a l IH]; intros p; cbn.
  - intros -> Hz Hps. eauto.
  - intros (-> & m & Hm & Hl) Hz Hps. split; [done|]. exists m. split; [done|].
    by apply IH.
Qed.

Lemma released_live h o a : released_handles h o → a ∈ o → is_Some (h !! a).
Proof. intros Hr Ha. destruct (Hr a Ha) as [q ->]. eauto. Qed.

Lemma owns_live h pc o a : owns h pc o → a ∈ o → is_Some (h !! a).
Proof.
  destruct pc as [[]|]; cbn [owns];
    repeat match goal with p : ptr |- _ => destruct p end; cbn [owns];
    first
      [ intros -> Ha; by apply elem_of_nil in Ha
      | intros [-> (v & q & Hq)] ->%list_elem_of_singleton; by eauto
      | intros [-> (q & Hq)] ->%list_elem_of_singleton; by eauto
      | intros [_ Hr]; by apply released_live
      | intros (_ & Hr & _); by apply released_live
      | intros [(_ & _ & -> & _)|(l & z & _ & _ & _ & Hr)];
        [intros Ha; by apply elem_of_nil in Ha|by apply released_live]
      | intros (l & z & _ & _ & _ & Hr); by apply released_live ].
Qed.

Lemma owns_ext h h' pc o :
  (∀ a, a ∈ o → h' !! a = h !! a) → owns h pc o → owns h' pc o.
Proof.
  intros Hext.
  assert (released_handles h o → released_handles h' o) as Hrel.
  { intros Hr a Ha. rewrite Hext by done. by apply Hr. }
  destruct pc as [[]|]; cbn [owns];
    repeat match goal with p : ptr |- _ => destruct p end; cbn [owns];
    first
      [ done
      | intros [-> Hq]; split; [done|];
        rewrite Hext; [done|by apply list_elem_of_singleton]
      | intros [Hc Hr]; split; [by eapply chain_ext|by auto]
      | intros (Hc & Hr & l1 & l2 & -> & Hne & Hl);
        split; [by eapply chain_ext|]; split; [by auto|];
        exists l1, l2; split; [done|]; split; [done|];
        eapply chain_ext; [|done]; intros a Ha; apply Hext, elem_of_app; auto
      | intros [?|(l & z & -> & Hs & Hz & Hr)]; [by left|right];
        exists l, z; split; [done|]; split; [|by auto];
        eapply seg_ext; [|done]; intros a Ha; apply Hext, elem_of_app; auto
      | intros (l & z & -> & Hs & Hz & Hr);
        exists l, z; split; [done|]; split; [|by auto];
        eapply seg_ext; [|done]; intros a Ha; apply Hext, elem_of_app; auto ].
Qed.

Lemma node_value_ext h h' a : h' !! a = h !! a → node_value h' a = node_value h a.
Proof. unfold node_value. by intros ->. Qed.

Lemma carried_ext h h' th o :
  owns h (at_pc th) o → (∀ a, a ∈ o → h' !! a = h !! a) →
  carried h' th = carried h th.
Proof.
  intros Ho Hext. unfold carried. f_equal. f_equal.
  destruct (at_pc th) as [[]|]; cbn [pc_values owns] in *; try done;
    repeat match goal with p : ptr |- _ => destruct p end;
    cbn [pc_values owns] in *; try done.
  all: destruct Ho as [-> _]; apply node_value_ext, Hext;
       by apply list_elem_of_singleton.
Qed.

Lemma held_inside th a : held (at_pc th) = Some a → inside th = true.
Proof.
  unfold inside. destruct (at_pc th) as [[]|]; cbn; done.
Qed.

Lemma count_inside_le ths : (count_inside ths ≤ length ths)%nat.
Proof. induction ths as [|th ths IH]; cbn; [lia|]. destruct (inside th); lia. Qed.

Lemma count_inside_insert ths : ∀ t th th',
  ths !! t = Some th →
  (count_inside (<[t := th']> ths) + (if inside th then 1 else 0)
   = count_inside ths + (if inside th' then 1 else 0))%nat.
Proof.
  induction ths as [|x ths IH]; intros [|t] th th'; try done.
  - intros [= ->]. change (<[0%nat := th']> (th :: ths)) with (th' :: ths).
    cbn [count_inside]. destruct (inside th), (inside th'); lia.
  - intros Ht. change (<[S t := th']> (x :: ths)) with (x :: <[t := th']> ths).
    cbn [count_inside]. specialize (IH _ _ th' Ht). revert IH.
    destruct (inside x), (inside th), (inside th'); lia.
Qed.

Lemma count_inside_pos ths t th :
  ths !! t = Some th → inside th = true → (1 ≤ count_inside ths)%nat.
Proof.
  revert t. induction ths as [|x ths IH]; intros [|t]; cbn; try done.
  - intros [= ->] ->. lia.
  - intros Ht Hi. specialize (IH _ Ht Hi). destruct (inside x); lia.
Qed.

Lemma count_inside_two ths t1 t2 th1 th2 :
  t1 ≠ t2 → ths !! t1 = Some th1 → ths !! t2 = Some th2 →
  inside th1 = true → inside th2 = true → (2 ≤ count_inside ths)%nat.
Proof.
  revert t1 t2. induction ths as [|x ths IH]; intros [|t1] [|t2]; cbn; try done.
  - intros _ [= ->] H2 -> Hi. pose proof (count_inside_pos _ _ _ H2 Hi). lia.
  - intros _ H1 [= ->] Hi ->. pose proof (count_inside_pos _ _ _ H1 Hi). lia.
  - intros Hne H1 H2 Hi1 Hi2. assert (t1 ≠ t2) as Hne' by congruence.
    specialize (IH _ _ Hne' H1 H2 Hi1 Hi2). destruct (inside x); lia.
Qed.

Lemma count_inside_outside ths t th :
  ths !! t = Some th → inside th = false → (count_inside ths < length ths)%nat.
Proof.
  revert t. induction ths as [|x ths IH]; intros [|t]; cbn; try done.
  - intros [= ->] ->. pose proof (count_inside_le ths). lia.
  - intros Ht Hi. specialize (IH _ Ht Hi). destruct (inside x); lia.
Qed.

(** The values carried by all threads when one thread changes. *)
Lemma total_update (f f' : thread T → list T) ths : ∀ t th th',
  ths !! t = Some th →
  (∀ t2 th2, t2 ≠ t → ths !! t2 = Some th2 → f' th2 = f th2) →
  concat (map f' (<[t := th']> ths)) ++ f th ≡ₚ concat (map f ths) ++ f' th'.
Proof.
  induction ths as [|x ths IH]; intros [|t] th th'; cbn; try done.
  - intros [= ->] Hsame.
    assert (map f' ths = map f ths) as ->.
    { apply map_ext_in. intros y Hy%list_elem_of_In.
      apply list_elem_of_lookup in Hy as [i Hi]. by apply (Hsame (S i)). }
    rewrite (Permutation_app_comm (f' th')), (Permutation_app_comm (f th)).
    rewrite <- !app_assoc. apply Permutation_app_head, Permutation_app_comm.
  - intros Ht Hsame. rewrite (Hsame 0%nat x) by done.
    rewrite <- !app_assoc. apply Permutation_app_head.
    apply IH; [done|]. intros t2 th2 Hne. apply (Hsame (S t2)). congruence.
Qed.

End Footprint.

Section Update.
Context {T : Type}.
Implicit Types (g : shared T) (ms ps o : list positive) (os : nat → list positive).
Implicit Types (th : thread T) (ths : list (thread T)) (vs : list T).

(** One thread moves: what has to be shown about the thread itself, its
    nodes and the two lists; the rest of the invariant follows. *)
Lemma cinv_update cs ths g ms ps os vs t th th' g' ms' ps' o' vs' :
  cinv cs ths g ms ps os vs →
  ths !! t = Some th →
  (∀ b, b ∉ os t →
        heap g' !! b = heap g !! b ∨ (heap g !! b = None ∧ b ∈ o')) →
  (∀ b, b ∈ ms' ∨ b ∈ ps' ∨ b ∈ o' →
        b ∈ ms ∨ b ∈ ps ∨ b ∈ os t ∨ heap g !! b = None) →
  (∀ b, is_Some (heap g' !! b) →
        b ∈ ms ∨ b ∈ ps ∨ b ∈ os t ∨ heap g !! b = None →
        b ∈ ms' ∨ b ∈ ps' ∨ b ∈ o') →
  (∀ b, is_Some (heap g !! b) → heap g' !! b = None →
        exclusive (at_pc th) = true ∧ b ∈ os t) →
  chain (heap g') (head g') ms' →
  chain (heap g') (to_be_deleted g') ps' →
  holds (heap g') ms' vs' →
  released_handles (heap g') ps' →
  (∀ a, a ∈ ms' → a ∉ ps') →
  owns (heap g') (at_pc th') o' →
  NoDup o' →
  (∀ a, a ∈ o' → (a ∉ ms') ∧ (a ∉ ps')) →
  (∀ b, b ∈ ms' → b ∈ ms ∨ (exclusive (at_pc th) = true ∧ b ∈ os t)) →
  threads_in_pop g' = Z.of_nat (count_inside (<[t := th']> ths)) →
  (∀ a, held (at_pc th') = Some a →
        is_Some (heap g' !! a) ∧ (held (at_pc th) = Some a ∨ a ∈ ms)) →
  (exclusive (at_pc th') = true → ∀ b, b ∈ o' →
        (exclusive (at_pc th) = true ∧ b ∈ os t) ∨ heap g !! b = None ∨
        (count_inside ths = 1%nat ∧ inside th = true)) →
  (∀ a nx, at_pc th' = Some (PopCAS a nx) → a ∈ ms' →
        ∃ n, heap g' !! a = Some n ∧ next n = nx) →
  allocated g' = (freed g' + size (heap g'))%nat →
  vs' ++ carried (heap g') th' ≡ₚ vs ++ carried (heap g) th →
  cinv cs (<[t := th']> ths) g' ms' ps' (<[t := o']> os) vs'.
Proof.
  intros Hinv Ht Hfoot Hfrom Hinto Hdel Hmain Hpend Hvals Hrel Hdisj Hown Hnd
    Hapart Hmsfrom Hcount Hheld Hexcl Hcas Halloc Hcons.
  pose proof (lookup_lt_Some _ _ _ Ht) as Hlt.
  (* what holds of every other thread *)
  assert (∀ t2 th2, t2 ≠ t → ths !! t2 = Some th2 →
            ∀ b, b ∈ os t2 → heap g' !! b = heap g !! b) as Hsame.
  { intros t2 th2 Hne H2 b Hb.
    destruct (Hfoot b) as [?|[Hnone _]]; [|done|].
    - intros Hbt. by apply (ci_others _ _ _ _ _ _ _ Hinv t2 t b).
    - destruct (owns_live _ _ _ b (ci_owns _ _ _ _ _ _ _ Hinv t2 th2 H2) Hb)
        as [n Hn]. congruence. }
  assert (∀ t2 b, t2 ≠ t → b ∈ os t2 →
            ¬ (b ∈ ms' ∨ b ∈ ps' ∨ b ∈ o')) as Hforeign.
  { intros t2 b Hne Hb Hin.
    destruct (ths !! t2) as [th2|] eqn:H2.
    2:{ rewrite (ci_none _ _ _ _ _ _ _ Hinv t2 H2) in Hb. by apply elem_of_nil in Hb. }
    destruct (ci_apart _ _ _ _ _ _ _ Hinv t2 b Hb) as [Hbm Hbp].
    destruct (Hfrom b Hin) as [?|[?|[Hbt|Hnone]]]; try done.
    - by apply (ci_others _ _ _ _ _ _ _ Hinv t2 t b).
    - destruct (owns_live _ _ _ b (ci_owns _ _ _ _ _ _ _ Hinv t2 th2 H2) Hb)
        as [n Hn]. congruence. }
  assert (∀ t2 th2 a, t2 ≠ t → ths !! t2 = Some th2 →
            held (at_pc th2) = Some a → is_Some (heap g' !! a)) as Hkept.
  { intros t2 th2 a Hne H2 Ha.
    pose proof (ci_held_live _ _ _ _ _ _ _ Hinv t2 th2 a H2 Ha) as Hlive.
    destruct (heap g' !! a) eqn:Hlook; [eauto|].
    destruct (Hdel a Hlive Hlook) as [Hex Hin].
    by destruct (ci_held_safe _ _ _ _ _ _ _ Hinv t2 th2 a t th). }
  split.
  - done.
  - done.
  - done.
  - done.
  - done.
  - (* ci_owns *)
    intros t2 th2 H2. destruct (decide (t2 = t)) as [->|Hne].
    + rewrite list_lookup_insert_eq in H2 by done. injection H2 as <-.
      by rewrite fn_lookup_insert.
    + rewrite list_lookup_insert_ne in H2 by done.
      rewrite fn_lookup_insert_ne by done.
      apply (owns_ext (heap g)); [by eapply Hsame|].
      by apply (ci_owns _ _ _ _ _ _ _ Hinv).
  - (* ci_none *)
    intros t2 H2. destruct (decide (t2 = t)) as [->|Hne].
    + rewrite list_lookup_insert_eq in H2 by done. done.
    + rewrite list_lookup_insert_ne in H2 by done.
      rewrite fn_lookup_insert_ne by done. by apply (ci_none _ _ _ _ _ _ _ Hinv).
  - (* ci_nodup *)
    intros t2. destruct (decide (t2 = t)) as [->|Hne].
    + by rewrite fn_lookup_insert.
    + rewrite fn_lookup_insert_ne by done. by apply (ci_nodup _ _ _ _ _ _ _ Hinv).
  - (* ci_apart *)
    intros t2 a. destruct (decide (t2 = t)) as [->|Hne].
    + rewrite fn_lookup_insert. apply Hapart.
    + rewrite fn_lookup_insert_ne by done. intros Ha.
      split; intros Hin; apply (Hforeign t2 a); auto.
  - (* ci_others *)
    intros t1 t2 a Hne.
    destruct (decide (t1 = t)) as [->|Hne1]; destruct (decide (t2 = t)) as [->|Hne2];
      rewrite ?fn_lookup_insert, ?fn_lookup_insert_ne by done; try done.
    + intros H1 H2. apply (Hforeign t2 a); auto.
    + intros H1 H2. apply (Hforeign t1 a); auto.
    + by apply (ci_others _ _ _ _ _ _ _ Hinv).
  - (* ci_listed *)
    intros a Ha.
    assert (a ∈ ms' ∨ a ∈ ps' ∨ a ∈ o' ∨ ∃ t2, t2 ≠ t ∧ a ∈ os t2) as Hcases.
    { destruct (heap g !! a) as [n|] eqn:Hold.
      - destruct (ci_listed _ _ _ _ _ _ _ Hinv a) as [Hm|[Hp|[t2 H2]]]; [eauto|..].
        + destruct (Hinto a Ha) as [?|[?|?]]; auto.
        + destruct (Hinto a Ha) as [?|[?|?]]; auto.
        + destruct (decide (t2 = t)) as [->|Hne]; [|eauto 6].
          destruct (Hinto a Ha) as [?|[?|?]]; auto.
      - destruct (Hinto a Ha) as [?|[?|?]]; auto. }
    destruct Hcases as [?|[?|[?|(t2 & Hne & H2)]]]; auto.
    + right. right. exists t. by rewrite fn_lookup_insert.
    + right. right. exists t2. by rewrite fn_lookup_insert_ne.
  - done.
  - rewrite length_insert. by apply (ci_bound _ _ _ _ _ _ _ Hinv).
  - (* ci_held_live *)
    intros t2 th2 a H2 Ha. destruct (decide (t2 = t)) as [->|Hne].
    + rewrite list_lookup_insert_eq in H2 by done. injection H2 as <-.
      by apply Hheld.
    + rewrite list_lookup_insert_ne in H2 by done. by eapply Hkept.
  - (* ci_held_safe *)
    intros t1 th1 a t2 th2 H1 Ha Hne H2 Hex.
    destruct (decide (t1 = t)) as [->|Hne1].
    + rewrite list_lookup_insert_eq in H1 by done. injection H1 as <-.
      rewrite list_lookup_insert_ne in H2 by done.
      rewrite fn_lookup_insert_ne by done.
      destruct (Hheld a Ha) as [_ [Hold|Hm]].
      * by apply (ci_held_safe _ _ _ _ _ _ _ Hinv t th a t2 th2).
      * intros Hin. by destruct (ci_apart _ _ _ _ _ _ _ Hinv t2 a Hin).
    + rewrite list_lookup_insert_ne in H1 by done.
      destruct (decide (t2 = t)) as [->|Hne2].
      * rewrite list_lookup_insert_eq in H2 by done. injection H2 as <-.
        rewrite fn_lookup_insert. intros Hin.
        destruct (Hexcl Hex a Hin) as [[Hex' Hin']|[Hnone|[Hone Hins]]].
        -- by apply (ci_held_safe _ _ _ _ _ _ _ Hinv t1 th1 a t th).
        -- destruct (ci_held_live _ _ _ _ _ _ _ Hinv t1 th1 a H1 Ha). congruence.
        -- pose proof (count_inside_two ths t1 t th1 th Hne1 H1 Ht
                         (held_inside _ _ Ha) Hins). lia.
      * rewrite list_lookup_insert_ne in H2 by done.
        rewrite fn_lookup_insert_ne by done.
        by apply (ci_held_safe _ _ _ _ _ _ _ Hinv t1 th1 a t2 th2).
  - (* ci_cas *)
    intros t2 th2 a nx H2 Hpc Ha. destruct (decide (t2 = t)) as [->|Hne].
    + rewrite list_lookup_insert_eq in H2 by done. injection H2 as <-.
      by apply Hcas.
    + rewrite list_lookup_insert_ne in H2 by done.
      assert (held (at_pc th2) = Some a) as Hh by by rewrite Hpc.
      destruct (Hmsfrom a Ha) as [Hm|[Hex Hin]].
      * destruct (ci_cas _ _ _ _ _ _ _ Hinv t2 th2 a nx H2 Hpc Hm) as (n & Hn & Hnx).
        exists n. split; [|done].
        destruct (Hfoot a) as [->|[Hnone _]]; [|done|congruence].
        intros Hin. by destruct (ci_apart _ _ _ _ _ _ _ Hinv t a Hin).
      * by destruct (ci_held_safe _ _ _ _ _ _ _ Hinv t2 th2 a t th).
  - done.
  - (* ci_conserved *)
    rewrite <- (ci_conserved _ _ _ _ _ _ _ Hinv).
    apply (Permutation_app_inv_r (carried (heap g) th)).
    rewrite <- !app_assoc.
    rewrite (total_update (carried (heap g)) (carried (heap g')) ths t th th' Ht).
    + rewrite (Permutation_app_comm _ (carried (heap g') th')), app_assoc, Hcons.
      rewrite <- !app_assoc. apply Permutation_app_head, Permutation_app_comm.
    + intros t2 th2 Hne H2.
      apply (carried_ext _ _ _ (os t2)); [by apply (ci_owns _ _ _ _ _ _ _ Hinv)|].
      by eapply Hsame.
Qed.

End Update.

Section Moves.
Context {T : Type}.
Implicit Types (g : shared T) (ms ps o : list positive) (os : nat → list positive).
Implicit Types (th : thread T) (ths : list (thread T)) (vs : list T).

Lemma count_inside_same ths t th th' :
  ths !! t = Some th → inside th' = inside th →
  count_inside (<[t := th']> ths) = count_inside ths.
Proof.
  intros Ht Hi. pose proof (count_inside_insert ths t th th' Ht) as Hc.
  rewrite Hi in Hc. destruct (inside th); lia.
Qed.

Lemma holds_live h ms vs a : holds (T := T) h ms vs → a ∈ ms → is_Some (h !! a).
Proof.
  revert vs. induction ms as [|b ms IH]; intros [|v vs]; cbn; try done.
  - intros _ Ha. by apply elem_of_nil in Ha.
  - intros [[q Hq] Hms] [->|Ha]%elem_of_cons; eauto.
Qed.

(** A step that changes no node, neither list, and what no thread owns. *)
Lemma cinv_local cs ths g ms ps os vs t th th' g' :
  cinv cs ths g ms ps os vs →
  ths !! t = Some th →
  heap g' = heap g → head g' = head g → to_be_deleted g' = to_be_deleted g →
  allocated g' = allocated g → freed g' = freed g →
  owns (heap g) (at_pc th') (os t) →
  threads_in_pop g' = Z.of_nat (count_inside (<[t := th']> ths)) →
  (∀ a, held (at_pc th') = Some a → held (at_pc th) = Some a ∨ a ∈ ms) →
  (exclusive (at_pc th') = true →
     exclusive (at_pc th) = true ∨ os t = [] ∨
     (count_inside ths = 1%nat ∧ inside th = true)) →
  (∀ a nx, at_pc th' = Some (PopCAS a nx) → a ∈ ms →
     ∃ n, heap g !! a = Some n ∧ next n = nx) →
  carried (heap g) th' ≡ₚ carried (heap g) th →
  cinv cs (<[t := th']> ths) g' ms ps (<[t := os t]> os) vs.
Proof.
  intros Hinv Ht Hh Hhd Htbd Hal Hfr Hown Hcount Hheld Hexcl Hcas Hcar.
  apply (cinv_update cs ths g ms ps os vs t th); rewrite ?Hh, ?Hhd, ?Htbd, ?Hal, ?Hfr;
    try done; try (by destruct Hinv).
  - auto.
  - intros b [?|[?|?]]; auto.
  - intros b [n Hn] [?|[?|[?|Hnone]]]; auto. congruence.
  - intros b [n Hn] Hnone. congruence.
  - by apply (ci_apart _ _ _ _ _ _ _ Hinv).
  - auto.
  - intros a Ha. split; [|by apply Hheld].
    destruct (Hheld a Ha) as [Hold|Hm].
    + by apply (ci_held_live _ _ _ _ _ _ _ Hinv t th a).
    + by apply (holds_live _ _ _ _ (ci_values _ _ _ _ _ _ _ Hinv)).
  - intros Hex b Hb. destruct (Hexcl Hex) as [?|[Hnil|?]]; auto.
    rewrite Hnil in Hb. by apply elem_of_nil in Hb.
  - by apply Permutation_app_head.
Qed.

(** A step that writes one node the thread owns. *)
Lemma cinv_write cs ths g ms ps os vs t th th' g' a n' :
  cinv cs ths g ms ps os vs →
  ths !! t = Some th → a ∈ os t →
  heap g' = <[a := n']> (heap g) →
  head g' = head g → to_be_deleted g' = to_be_deleted g →
  threads_in_pop g' = threads_in_pop g →
  allocated g' = allocated g → freed g' = freed g →
  owns (heap g') (at_pc th') (os t) →
  inside th' = inside th → held (at_pc th') = None →
  (exclusive (at_pc th') = true → exclusive (at_pc th) = true) →
  carried (heap g') th' ≡ₚ carried (heap g) th →
  cinv cs (<[t := th']> ths) g' ms ps (<[t := os t]> os) vs.
Proof.
  intros Hinv Ht Ha Hh Hhd Htbd Hc Hal Hfr Hown Hins Hheld Hexcl Hcar.
  destruct (ci_apart _ _ _ _ _ _ _ Hinv t a Ha) as [Ham Hap].
  destruct (owns_live _ _ _ a (ci_owns _ _ _ _ _ _ _ Hinv t th Ht) Ha) as [n Hn].
  assert (∀ b, b ≠ a → heap g' !! b = heap g !! b) as Hsame.
  { intros b Hb. rewrite Hh. by apply lookup_insert_ne. }
  apply (cinv_update cs ths g ms ps os vs t th); rewrite ?Hhd, ?Htbd, ?Hal, ?Hfr;
    try done.
  - intros b Hb. left. apply Hsame. congruence.
  - intros b [?|[?|?]]; auto.
  - intros b [m Hm] [?|[?|[?|Hnone]]]; auto.
    destruct (decide (b = a)) as [->|Hne]; [auto|].
    rewrite Hsame in Hm by done. congruence.
  - intros b [m Hm] Hnone. rewrite Hh in Hnone.
    destruct (decide (b = a)) as [->|Hne].
    + by rewrite lookup_insert_eq in Hnone.
    + rewrite lookup_insert_ne in Hnone by done. congruence.
  - eapply chain_ext; [|by apply (ci_main _ _ _ _ _ _ _ Hinv)].
    intros b Hb. apply Hsame. congruence.
  - eapply chain_ext; [|by apply (ci_pending _ _ _ _ _ _ _ Hinv)].
    intros b Hb. apply Hsame. congruence.
  - eapply holds_ext; [|by apply (ci_values _ _ _ _ _ _ _ Hinv)].
    intros b Hb. apply Hsame. congruence.
  - eapply released_handles_ext; [|by apply (ci_released _ _ _ _ _ _ _ Hinv)].
    intros b Hb. apply Hsame. congruence.
  - by apply (ci_disjoint _ _ _ _ _ _ _ Hinv).
  - by apply (ci_nodup _ _ _ _ _ _ _ Hinv).
  - by apply (ci_apart _ _ _ _ _ _ _ Hinv).
  - auto.
  - rewrite Hc, (count_inside_same _ _ _ _ Ht Hins).
    by apply (ci_counter _ _ _ _ _ _ _ Hinv).
  - intros b Hb. congruence.
  - intros Hex b Hb. auto.
  - intros b nx Hpc. by rewrite Hpc in Hheld.
  - rewrite Hh, map_size_insert_Some by eauto.
    by apply (ci_count _ _ _ _ _ _ _ Hinv).
  - by apply Permutation_app_head.
Qed.

End Moves.

Ltac use_inv Hinv :=
  pose proof (ci_main _ _ _ _ _ _ _ Hinv) as Hmain;
  pose proof (ci_pending _ _ _ _ _ _ _ Hinv) as Hpend;
  pose proof (ci_values _ _ _ _ _ _ _ Hinv) as Hvals;
  pose proof (ci_released _ _ _ _ _ _ _ Hinv) as Hrel;
  pose proof (ci_disjoint _ _ _ _ _ _ _ Hinv) as Hdisj;
  pose proof (ci_nodup _ _ _ _ _ _ _ Hinv) as Hnodup;
  pose proof (ci_apart _ _ _ _ _ _ _ Hinv) as Hapart;
  pose proof (ci_counter _ _ _ _ _ _ _ Hinv) as Hcounter;
  pose proof (ci_bound _ _ _ _ _ _ _ Hinv) as Hbound;
  pose proof (ci_count _ _ _ _ _ _ _ Hinv) as Halloc.

Section Steps.
Context {T : Type} `{Allocator}.
Implicit Types (g : shared T) (ms ps o : list positive) (os : nat → list positive).
Implicit Types (th : thread T) (ths : list (thread T)) (vs : list T).
Implicit Types (td : list (call T)) (ret : list (option T)) (res : option T).

Lemma step_PushNew cs ths g ms ps os vs t v td ret a :
  cinv cs ths g ms ps os vs →
  ths !! t = Some (Thread (Some (PushNew v)) td ret) →
  new_addr (dom (heap g)) = Some a →
  kept cs ths g t (PushLoad a) td ret (new_node a v g).
Proof.
  intros Hinv Ht Ha. use_inv Hinv.
  apply new_addr_fresh, not_elem_of_dom in Ha.
  pose proof (ci_owns _ _ _ _ _ _ _ Hinv t _ Ht) as Hown. cbn in Hown.
  assert (a ∉ ms) as Hams.
  { intros [n Hn]%(chain_live _ _ _ _ Hmain). congruence. }
  assert (a ∉ ps) as Haps.
  { intros [n Hn]%(chain_live _ _ _ _ Hpend). congruence. }
  assert (∀ b, b ≠ a → <[a := Node (Some v) None]> (heap g) !! b = heap g !! b)
    as Hsame by (intros b Hb; by apply lookup_insert_ne).
  exists ms, ps, (<[t := [a]]> os), vs.
  eapply (cinv_update cs ths g ms ps os vs t); try done;
    cbn [new_node heap head to_be_deleted threads_in_pop allocated freed at_pc].
  - intros b _. destruct (decide (b = a)) as [->|Hne].
    + right. split; [done|]. by apply list_elem_of_singleton.
    + left. by apply Hsame.
  - intros b [?|[?| ->%list_elem_of_singleton]]; auto.
  - intros b [n Hn] [?|[?|[Hb|Hnone]]]; auto.
    + rewrite Hown in Hb. by apply elem_of_nil in Hb.
    + destruct (decide (b = a)) as [->|Hne].
      * right. right. by apply list_elem_of_singleton.
      * rewrite Hsame in Hn by done. congruence.
  - intros b [n Hn] Hnone. destruct (decide (b = a)) as [->|Hne]; [congruence|].
    rewrite Hsame in Hnone by done. congruence.
  - by apply chain_insert.
  - by apply chain_insert.
  - eapply holds_ext; [|done]. intros b Hb. apply Hsame. congruence.
  - eapply released_handles_ext; [|done]. intros b Hb. apply Hsame. congruence.
  - split; [done|]. exists v, None. by rewrite lookup_insert_eq.
  - apply NoDup_singleton.
  - by intros b ->%list_elem_of_singleton.
  - auto.
  - rewrite Hcounter. f_equal. symmetry. by eapply count_inside_same.
  - intros _ b ->%list_elem_of_singleton. auto.
  - rewrite map_size_insert_None by done. lia.
  - apply Permutation_app_head. unfold carried. cbn [at_pc todo returned pc_values].
    unfold node_value. by rewrite lookup_insert_eq.
Qed.

Lemma step_PushLoad cs ths g ms ps os vs t a n td ret :
  cinv cs ths g ms ps os vs →
  ths !! t = Some (Thread (Some (PushLoad a)) td ret) →
  heap g !! a = Some n →
  kept cs ths g t (PushCAS a) td ret (set_next a n (head g) g).
Proof.
  intros Hinv Ht Hn.
  pose proof (ci_owns _ _ _ _ _ _ _ Hinv t _ Ht) as Hown. cbn in Hown.
  destruct Hown as [Hot (v & q & Hq)]. rewrite Hn in Hq. injection Hq as ->.
  exists ms, ps, (<[t := os t]> os), vs.
  eapply (cinv_write cs ths g ms ps os vs t _ _ _ a); try done; cbn [at_pc].
  - rewrite Hot. by apply list_elem_of_singleton.
  - cbn. split; [done|]. exists v, (head g). by rewrite lookup_insert_eq.
  - unfold carried. cbn [at_pc todo returned pc_values set_next set_heap heap data].
    unfold node_value. by rewrite lookup_insert_eq, Hn.
Qed.

Lemma step_PushCAS_fail cs ths g ms ps os vs t a n td ret :
  cinv cs ths g ms ps os vs →
  ths !! t = Some (Thread (Some (PushCAS a)) td ret) →
  heap g !! a = Some n →
  kept cs ths g t (PushCAS a) td ret (set_next a n (head g) g).
Proof.
  intros Hinv Ht Hn.
  pose proof (ci_owns _ _ _ _ _ _ _ Hinv t _ Ht) as Hown. cbn in Hown.
  destruct Hown as [Hot (v & q & Hq)]. rewrite Hn in Hq. injection Hq as ->.
  exists ms, ps, (<[t := os t]> os), vs.
  eapply (cinv_write cs ths g ms ps os vs t _ _ _ a); try done; cbn [at_pc].
  - rewrite Hot. by apply list_elem_of_singleton.
  - cbn. split; [done|]. exists v, (head g). by rewrite lookup_insert_eq.
  - unfold carried. cbn [at_pc todo returned pc_values set_next set_heap heap data].
    unfold node_value. by rewrite lookup_insert_eq, Hn.
Qed.

Lemma step_PushCAS cs ths g ms ps os vs t a n td ret :
  cinv cs ths g ms ps os vs →
  ths !! t = Some (Thread (Some (PushCAS a)) td ret) →
  heap g !! a = Some n → head g = next n →
  kept cs ths g t PushDone td ret (set_head (Some a) g).
Proof.
  intros Hinv Ht Hn Hcas. use_inv Hinv.
  pose proof (ci_owns _ _ _ _ _ _ _ Hinv t _ Ht) as Hown. cbn in Hown.
  destruct Hown as [Hot (v & q & Hq)]. rewrite Hn in Hq. injection Hq as ->.
  assert (a ∈ os t) as Hat by (rewrite Hot; by apply list_elem_of_singleton).
  destruct (Hapart t a Hat) as [Ham Hap].
  exists (a :: ms), ps, (<[t := []]> os), (v :: vs).
  eapply (cinv_update cs ths g ms ps os vs t); try done;
    cbn [set_head heap head to_be_deleted threads_in_pop allocated freed at_pc].
  - auto.
  - intros b [[->|?]%elem_of_cons|[?|[]%elem_of_nil]]; auto.
  - intros b [m Hm] [?|[?|[Hb|Hnone]]].
    + left. apply elem_of_cons; auto.
    + auto.
    + rewrite Hot in Hb. apply list_elem_of_singleton in Hb as ->.
      left. apply elem_of_cons; auto.
    + congruence.
  - intros b [m Hm] Hnone. congruence.
  - split; [done|]. exists (Node (Some v) q). split; [done|]. cbn in *. by rewrite <- Hcas.
  - cbn. eauto.
  - intros b [->|Hb]%elem_of_cons; auto.
  - apply NoDup_nil_2.
  - intros b []%elem_of_nil.
  - intros b [->|Hb]%elem_of_cons; auto.
  - rewrite Hcounter. f_equal. symmetry. by eapply count_inside_same.
  - unfold carried. cbn [at_pc todo returned pc_values].
    unfold node_value. rewrite Hn. cbn. solve_Permutation.
Qed.

End Steps.

Section StepsPop.
Context {T : Type} `{Allocator}.
Implicit Types (g : shared T) (ms ps o : list positive) (os : nat → list positive).
Implicit Types (th : thread T) (ths : list (thread T)) (vs : list T).
Implicit Types (td : list (call T)) (ret : list (option T)) (res : option T).

Lemma chain_head_in h (a : positive) ms :
  chain (T := T) h (Some a) ms → a ∈ ms.
Proof. destruct ms as [|b ms]; [done|]. intros [[= ->] _]. apply elem_of_cons; auto. Qed.

Lemma step_PopEnter cs ths g ms ps os vs t td ret :
  cinv cs ths g ms ps os vs →
  ths !! t = Some (Thread (Some PopEnter) td ret) →
  kept cs ths g t PopLoad td ret
    (set_threads_in_pop (wrap_int (threads_in_pop g + 1)) g).
Proof.
  intros Hinv Ht.
  pose proof (ci_counter _ _ _ _ _ _ _ Hinv) as Hcounter.
  pose proof (ci_bound _ _ _ _ _ _ _ Hinv) as Hbound.
  pose proof (ci_owns _ _ _ _ _ _ _ Hinv t _ Ht) as Hown. cbn in Hown.
  exists ms, ps, (<[t := os t]> os), vs.
  eapply (cinv_local cs ths g ms ps os vs t); try done; cbn [at_pc].
  cbn [set_threads_in_pop threads_in_pop].
  pose proof (count_inside_insert ths t _ (Thread (Some PopLoad) td ret) Ht) as Hc.
  pose proof (count_inside_outside ths t _ Ht eq_refl) as Hlt.
  cbn in Hc. rewrite Hcounter, wrap_int_id; [lia|].
  unfold int_range. change (2 ^ 31) with 2147483648 in *. lia.
Qed.

Lemma step_PopLoad cs ths g ms ps os vs t td ret :
  cinv cs ths g ms ps os vs →
  ths !! t = Some (Thread (Some PopLoad) td ret) →
  kept cs ths g t (PopLoop (head g)) td ret g.
Proof.
  intros Hinv Ht.
  pose proof (ci_counter _ _ _ _ _ _ _ Hinv) as Hcounter.
  pose proof (ci_main _ _ _ _ _ _ _ Hinv) as Hmain.
  pose proof (ci_owns _ _ _ _ _ _ _ Hinv t _ Ht) as Hown. cbn in Hown.
  exists ms, ps, (<[t := os t]> os), vs.
  eapply (cinv_local cs ths g ms ps os vs t); try done; cbn [at_pc].
  - rewrite Hcounter. f_equal. symmetry. by eapply count_inside_same.
  - intros a Ha. right. cbn in Ha. destruct (head g) as [b|]; [|done].
    injection Ha as ->. by apply chain_head_in in Hmain.
Qed.

Lemma step_PopLoop cs ths g ms ps os vs t a n td ret :
  cinv cs ths g ms ps os vs →
  ths !! t = Some (Thread (Some (PopLoop (Some a))) td ret) →
  heap g !! a = Some n →
  kept cs ths g t (PopCAS a (next n)) td ret g.
Proof.
  intros Hinv Ht Hn.
  pose proof (ci_counter _ _ _ _ _ _ _ Hinv) as Hcounter.
  pose proof (ci_owns _ _ _ _ _ _ _ Hinv t _ Ht) as Hown. cbn in Hown.
  exists ms, ps, (<[t := os t]> os), vs.
  eapply (cinv_local cs ths g ms ps os vs t); try done; cbn [at_pc].
  - rewrite Hcounter. f_equal. symmetry. by eapply count_inside_same.
  - auto.
  - intros b nx [= <- <-] _. eauto.
Qed.

Lemma step_PopLoop_null cs ths g ms ps os vs t td ret :
  cinv cs ths g ms ps os vs →
  ths !! t = Some (Thread (Some (PopLoop None)) td ret) →
  kept cs ths g t (PopSwap None) td ret g.
Proof.
  intros Hinv Ht.
  pose proof (ci_counter _ _ _ _ _ _ _ Hinv) as Hcounter.
  pose proof (ci_owns _ _ _ _ _ _ _ Hinv t _ Ht) as Hown. cbn in Hown.
  exists ms, ps, (<[t := os t]> os), vs.
  eapply (cinv_local cs ths g ms ps os vs t); try done; cbn [at_pc].
  rewrite Hcounter. f_equal. symmetry. by eapply count_inside_same.
Qed.

Lemma step_PopCAS_fail cs ths g ms ps os vs t a nx td ret :
  cinv cs ths g ms ps os vs →
  ths !! t = Some (Thread (Some (PopCAS a nx)) td ret) →
  kept cs ths g t (PopLoop (head g)) td ret g.
Proof.
  intros Hinv Ht.
  pose proof (ci_counter _ _ _ _ _ _ _ Hinv) as Hcounter.
  pose proof (ci_main _ _ _ _ _ _ _ Hinv) as Hmain.
  pose proof (ci_owns _ _ _ _ _ _ _ Hinv t _ Ht) as Hown. cbn in Hown.
  exists ms, ps, (<[t := os t]> os), vs.
  eapply (cinv_local cs ths g ms ps os vs t); try done; cbn [at_pc].
  - rewrite Hcounter. f_equal. symmetry. by eapply count_inside_same.
  - intros b Hb. right. cbn in Hb. destruct (head g) as [c|]; [|done].
    injection Hb as ->. by apply chain_head_in in Hmain.
Qed.

Lemma step_PopCAS cs ths g ms ps os vs t a nx td ret :
  cinv cs ths g ms ps os vs →
  ths !! t = Some (Thread (Some (PopCAS a nx)) td ret) →
  head g = Some a →
  kept cs ths g t (PopSwap (Some a)) td ret (set_head nx g).
Proof.
  intros Hinv Ht Hhead. use_inv Hinv.
  pose proof (ci_owns _ _ _ _ _ _ _ Hinv t _ Ht) as Hown. cbn in Hown.
  rewrite Hhead in Hmain. pose proof (chain_head_in _ _ _ Hmain) as Ham.
  destruct (ci_cas _ _ _ _ _ _ _ Hinv t _ a nx Ht eq_refl Ham) as (n & Hn & Hnx).
  pose proof (chain_NoDup _ _ _ Hmain) as Hnd.
  destruct ms as [|a' ms1]; [done|]. destruct Hmain as ([= <-] & n' & Hn' & Hmain).
  rewrite Hn in Hn'. injection Hn' as <-. rewrite Hnx in Hmain.
  apply list.NoDup_cons in Hnd as [Hams1 Hnd].
  destruct vs as [|v vs1]; [done|]. destruct Hvals as [[q Hq] Hvals].
  exists ms1, ps, (<[t := [a]]> os), vs1.
  eapply (cinv_update cs ths g (a :: ms1) ps os (v :: vs1) t); try done;
    cbn [set_head heap head to_be_deleted threads_in_pop allocated freed at_pc].
  - auto.
  - intros b [?|[?| ->%list_elem_of_singleton]]; auto.
    left. apply elem_of_cons; auto.
  - intros b [m Hm] [[->|?]%elem_of_cons|[?|[Hb|Hnone]]]; auto.
    + right. right. by apply list_elem_of_singleton.
    + rewrite Hown in Hb. by apply elem_of_nil in Hb.
    + congruence.
  - intros b [m Hm] Hnone. congruence.
  - intros b Hb. apply Hdisj, elem_of_cons; auto.
  - cbn. split; [done|]. eauto.
  - apply NoDup_singleton.
  - intros b ->%list_elem_of_singleton. split; [done|].
    apply Hdisj, elem_of_cons; auto.
  - intros b Hb. left. apply elem_of_cons; auto.
  - rewrite Hcounter. f_equal. symmetry. by eapply count_inside_same.
  - unfold carried. cbn [at_pc todo returned pc_values].
    unfold node_value. rewrite Hq. cbn. solve_Permutation.
Qed.

Lemma step_PopSwap cs ths g ms ps os vs t a n td ret :
  cinv cs ths g ms ps os vs →
  ths !! t = Some (Thread (Some (PopSwap (Some a))) td ret) →
  heap g !! a = Some n →
  kept cs ths g t (ReclaimCheck (Some a) (data n)) td ret
    (set_heap (<[a := Node None (next n)]> (heap g)) g).
Proof.
  intros Hinv Ht Hn.
  pose proof (ci_owns _ _ _ _ _ _ _ Hinv t _ Ht) as Hown. cbn in Hown.
  destruct Hown as [Hot (v & q & Hq)]. rewrite Hn in Hq. injection Hq as ->.
  exists ms, ps, (<[t := os t]> os), vs.
  eapply (cinv_write cs ths g ms ps os vs t _ _ _ a); try done; cbn [at_pc].
  - rewrite Hot. by apply list_elem_of_singleton.
  - cbn. split; [done|]. exists q. by rewrite lookup_insert_eq.
  - unfold carried. cbn [at_pc todo returned pc_values data].
    unfold node_value. by rewrite Hn.
Qed.

Lemma step_PopSwap_null cs ths g ms ps os vs t td ret :
  cinv cs ths g ms ps os vs →
  ths !! t = Some (Thread (Some (PopSwap None)) td ret) →
  kept cs ths g t (ReclaimCheck None None) td ret g.
Proof.
  intros Hinv Ht.
  pose proof (ci_counter _ _ _ _ _ _ _ Hinv) as Hcounter.
  pose proof (ci_owns _ _ _ _ _ _ _ Hinv t _ Ht) as Hown. cbn in Hown.
  exists ms, ps, (<[t := os t]> os), vs.
  eapply (cinv_local cs ths g ms ps os vs t); try done; cbn [at_pc].
  rewrite Hcounter. f_equal. symmetry. by eapply count_inside_same.
Qed.

End StepsPop.

Section StepsReclaim.
Context {T : Type} `{Allocator}.
Implicit Types (g : shared T) (ms ps o : list positive) (os : nat → list positive).
Implicit Types (th : thread T) (ths : list (thread T)) (vs : list T).
Implicit Types (td : list (call T)) (ret : list (option T)) (res : option T).

Lemma step_ReclaimCheck cs ths g ms ps os vs t old_head res td ret :
  cinv cs ths g ms ps os vs →
  ths !! t = Some (Thread (Some (ReclaimCheck old_head res)) td ret) →
  threads_in_pop g = 1 →
  kept cs ths g t (ReclaimDelete old_head res) td ret g.
Proof.
  intros Hinv Ht Hone.
  pose proof (ci_counter _ _ _ _ _ _ _ Hinv) as Hcounter.
  pose proof (ci_owns _ _ _ _ _ _ _ Hinv t _ Ht) as Hown.
  exists ms, ps, (<[t := os t]> os), vs.
  eapply (cinv_local cs ths g ms ps os vs t); try done; cbn [at_pc].
  - rewrite Hcounter. f_equal. symmetry. by eapply count_inside_same.
  - intros _. right. right. split; [lia|done].
Qed.

Lemma step_ReclaimCheck_defer cs ths g ms ps os vs t old_head res td ret :
  cinv cs ths g ms ps os vs →
  ths !! t = Some (Thread (Some (ReclaimCheck old_head res)) td ret) →
  kept cs ths g t (ChainLoad old_head old_head ThenDecrement res) td ret g.
Proof.
  intros Hinv Ht.
  pose proof (ci_counter _ _ _ _ _ _ _ Hinv) as Hcounter.
  pose proof (ci_owns _ _ _ _ _ _ _ Hinv t _ Ht) as Hown. cbn in Hown.
  exists ms, ps, (<[t := os t]> os), vs.
  eapply (cinv_local cs ths g ms ps os vs t); try done; cbn [at_pc].
  - destruct old_head as [a|]; cbn.
    + destruct Hown as [Hot [q Hq]]. right. exists [], a.
      split; [done|]. split; [done|]. split; [done|].
      intros b Hb. rewrite Hot in Hb. apply list_elem_of_singleton in Hb as ->. eauto.
    + left. done.
  - rewrite Hcounter. f_equal. symmetry. by eapply count_inside_same.
Qed.

Lemma step_ReclaimDelete cs ths g ms ps os vs t a res td ret :
  cinv cs ths g ms ps os vs →
  ths !! t = Some (Thread (Some (ReclaimDelete (Some a) res)) td ret) →
  kept cs ths g t (ReclaimExchange res) td ret (delete_node a g).
Proof.
  intros Hinv Ht. use_inv Hinv.
  pose proof (ci_owns _ _ _ _ _ _ _ Hinv t _ Ht) as Hown. cbn in Hown.
  destruct Hown as [Hot [q Hq]].
  assert (a ∈ os t) as Hat by (rewrite Hot; by apply list_elem_of_singleton).
  destruct (Hapart t a Hat) as [Ham Hap].
  exists ms, ps, (<[t := []]> os), vs.
  eapply (cinv_update cs ths g ms ps os vs t); try done;
    cbn [delete_node heap head to_be_deleted threads_in_pop allocated freed at_pc].
  - intros b Hb. left. apply lookup_delete_ne. congruence.
  - intros b [?|[?|[]%elem_of_nil]]; auto.
  - intros b [m Hm] [?|[?|[Hb|Hnone]]]; auto.
    + rewrite Hot in Hb. apply list_elem_of_singleton in Hb as ->.
      by rewrite lookup_delete_eq in Hm.
    + destruct (decide (b = a)) as [->|Hne]; [by rewrite lookup_delete_eq in Hm|].
      rewrite lookup_delete_ne in Hm by done. congruence.
  - intros b [m Hm] Hnone. split; [done|].
    destruct (decide (b = a)) as [->|Hne]; [done|].
    rewrite lookup_delete_ne in Hnone by done. congruence.
  - by apply chain_delete.
  - by apply chain_delete.
  - eapply holds_ext; [|done]. intros b Hb. apply lookup_delete_ne. congruence.
  - eapply released_handles_ext; [|done]. intros b Hb.
    apply lookup_delete_ne. congruence.
  - apply NoDup_nil_2.
  - intros b []%elem_of_nil.
  - auto.
  - rewrite Hcounter. f_equal. symmetry. by eapply count_inside_same.
  - rewrite map_size_delete_Some by eauto.
    assert (size (heap g) ≠ 0%nat); [|lia].
    intros Hz%map_size_empty_inv. by rewrite Hz, lookup_empty in Hq.
Qed.

Lemma step_ReclaimDelete_null cs ths g ms ps os vs t res td ret :
  cinv cs ths g ms ps os vs →
  ths !! t = Some (Thread (Some (ReclaimDelete None res)) td ret) →
  kept cs ths g t (ReclaimExchange res) td ret g.
Proof.
  intros Hinv Ht.
  pose proof (ci_counter _ _ _ _ _ _ _ Hinv) as Hcounter.
  pose proof (ci_owns _ _ _ _ _ _ _ Hinv t _ Ht) as Hown. cbn in Hown.
  exists ms, ps, (<[t := os t]> os), vs.
  eapply (cinv_local cs ths g ms ps os vs t); try done; cbn [at_pc].
  rewrite Hcounter. f_equal. symmetry. by eapply count_inside_same.
Qed.

Lemma step_ReclaimExchange cs ths g ms ps os vs t res td ret :
  cinv cs ths g ms ps os vs →
  ths !! t = Some (Thread (Some (ReclaimExchange res)) td ret) →
  kept cs ths g t (ReclaimDec (to_be_deleted g) res) td ret
    (set_to_be_deleted None g).
Proof.
  intros Hinv Ht. use_inv Hinv.
  pose proof (ci_owns _ _ _ _ _ _ _ Hinv t _ Ht) as Hown. cbn in Hown.
  exists ms, [], (<[t := ps]> os), vs.
  eapply (cinv_update cs ths g ms ps os vs t); try done;
    cbn [set_to_be_deleted heap head to_be_deleted threads_in_pop allocated freed at_pc].
  - auto.
  - intros b [?|[[]%elem_of_nil|?]]; auto.
  - intros b [m Hm] [?|[?|[Hb|Hnone]]]; auto.
    + rewrite Hown in Hb. by apply elem_of_nil in Hb.
    + congruence.
  - intros b [m Hm] Hnone. congruence.
  - intros b Hb. by apply elem_of_nil in Hb.
  - intros b _. apply not_elem_of_nil.
  - by eapply chain_NoDup.
  - intros b Hb. split; [|apply not_elem_of_nil]. intros Hm. by apply (Hdisj b).
  - auto.
  - rewrite Hcounter. f_equal. symmetry. by eapply count_inside_same.
Qed.

End StepsReclaim.

Section StepsChain.
Context {T : Type} `{Allocator}.
Implicit Types (g : shared T) (ms ps o : list positive) (os : nat → list positive).
Implicit Types (th : thread T) (ths : list (thread T)) (vs : list T).
Implicit Types (td : list (call T)) (ret : list (option T)) (res : option T).

Lemma chain_null h l : chain (T := T) h None l → l = [].
Proof. destruct l; [done|]. by intros [? _]. Qed.

(** The decrement of a thread that is inside. *)
Lemma decrement_counter cs ths g ms ps os vs t th th' :
  cinv cs ths g ms ps os vs → ths !! t = Some th →
  inside th = true → inside th' = false →
  wrap_int (threads_in_pop g - 1) = Z.of_nat (count_inside (<[t := th']> ths)) ∧
  (wrap_int (threads_in_pop g - 1) = 0 → count_inside ths = 1%nat).
Proof.
  intros Hinv Ht Hin Hout.
  pose proof (ci_counter _ _ _ _ _ _ _ Hinv) as Hcounter.
  pose proof (ci_bound _ _ _ _ _ _ _ Hinv) as Hbound.
  pose proof (count_inside_insert ths t th th' Ht) as Hc.
  pose proof (count_inside_pos ths t th Ht Hin) as Hpos.
  pose proof (count_inside_le ths) as Hle.
  rewrite Hin, Hout in Hc. rewrite Hcounter, wrap_int_id.
  - split; lia.
  - unfold int_range. change (2 ^ 31) with 2147483648 in *. lia.
Qed.

Lemma step_ReclaimDec_free cs ths g ms ps os vs t nodes res td ret :
  cinv cs ths g ms ps os vs →
  ths !! t = Some (Thread (Some (ReclaimDec nodes res)) td ret) →
  wrap_int (threads_in_pop g - 1) = 0 →
  kept cs ths g t (DeleteNodes nodes res) td ret
    (set_threads_in_pop (wrap_int (threads_in_pop g - 1)) g).
Proof.
  intros Hinv Ht Hz.
  pose proof (ci_owns _ _ _ _ _ _ _ Hinv t _ Ht) as Hown.
  destruct (decrement_counter _ _ _ _ _ _ _ t _
              (Thread (Some (DeleteNodes nodes res)) td ret) Hinv Ht eq_refl eq_refl)
    as [Hc Hone].
  exists ms, ps, (<[t := os t]> os), vs.
  eapply (cinv_local cs ths g ms ps os vs t); try done; cbn [at_pc].
  intros _. right. right. split; [by apply Hone|done].
Qed.

Lemma step_ReclaimDec_walk cs ths g ms ps os vs t a res td ret :
  cinv cs ths g ms ps os vs →
  ths !! t = Some (Thread (Some (ReclaimDec (Some a) res)) td ret) →
  kept cs ths g t (ChainWalk (Some a) (Some a) res) td ret
    (set_threads_in_pop (wrap_int (threads_in_pop g - 1)) g).
Proof.
  intros Hinv Ht.
  pose proof (ci_owns _ _ _ _ _ _ _ Hinv t _ Ht) as Hown. cbn in Hown.
  destruct (decrement_counter _ _ _ _ _ _ _ t _
              (Thread (Some (ChainWalk (Some a) (Some a) res)) td ret)
              Hinv Ht eq_refl eq_refl) as [Hc _].
  exists ms, ps, (<[t := os t]> os), vs.
  eapply (cinv_local cs ths g ms ps os vs t); try done; cbn [at_pc].
  destruct Hown as [Hchain Hrel]. cbn. split; [done|]. split; [done|].
  exists [], (os t). split; [done|]. split; [|done].
  intros Hnil. rewrite Hnil in Hchain. discriminate.
Qed.

Lemma step_ReclaimDec_nothing cs ths g ms ps os vs t res td ret :
  cinv cs ths g ms ps os vs →
  ths !! t = Some (Thread (Some (ReclaimDec None res)) td ret) →
  kept cs ths g t (PopDone res) td ret
    (set_threads_in_pop (wrap_int (threads_in_pop g - 1)) g).
Proof.
  intros Hinv Ht.
  pose proof (ci_owns _ _ _ _ _ _ _ Hinv t _ Ht) as Hown. cbn in Hown.
  destruct (decrement_counter _ _ _ _ _ _ _ t _
              (Thread (Some (PopDone res)) td ret) Hinv Ht eq_refl eq_refl)
    as [Hc _].
  exists ms, ps, (<[t := os t]> os), vs.
  eapply (cinv_local cs ths g ms ps os vs t); try done; cbn [at_pc].
  destruct Hown as [Hchain _]. cbn. by eapply chain_null.
Qed.

Lemma step_ReclaimDeferDec cs ths g ms ps os vs t res td ret :
  cinv cs ths g ms ps os vs →
  ths !! t = Some (Thread (Some (ReclaimDeferDec res)) td ret) →
  kept cs ths g t (PopDone res) td ret
    (set_threads_in_pop (wrap_int (threads_in_pop g - 1)) g).
Proof.
  intros Hinv Ht.
  pose proof (ci_owns _ _ _ _ _ _ _ Hinv t _ Ht) as Hown. cbn in Hown.
  destruct (decrement_counter _ _ _ _ _ _ _ t _
              (Thread (Some (PopDone res)) td ret) Hinv Ht eq_refl eq_refl)
    as [Hc _].
  exists ms, ps, (<[t := os t]> os), vs.
  eapply (cinv_local cs ths g ms ps os vs t); try done; cbn [at_pc].
Qed.

Lemma step_DeleteNodes cs ths g ms ps os vs t a n res td ret :
  cinv cs ths g ms ps os vs →
  ths !! t = Some (Thread (Some (DeleteNodes (Some a) res)) td ret) →
  heap g !! a = Some n →
  kept cs ths g t (DeleteNodes (next n) res) td ret (delete_node a g).
Proof.
  intros Hinv Ht Hn. use_inv Hinv.
  pose proof (ci_owns _ _ _ _ _ _ _ Hinv t _ Ht) as Hown. cbn in Hown.
  destruct Hown as [Hchain Hreleased].
  pose proof (Hnodup t) as Hnd.
  destruct (os t) as [|a' o1] eqn:Hot; [done|].
  destruct Hchain as ([= <-] & n' & Hn' & Hchain).
  rewrite Hn in Hn'. injection Hn' as <-.
  apply list.NoDup_cons in Hnd as [Hao1 Hnd].
  assert (a ∈ os t) as Hat by (rewrite Hot; apply elem_of_cons; auto).
  destruct (Hapart t a Hat) as [Ham Hap].
  exists ms, ps, (<[t := o1]> os), vs.
  eapply (cinv_update cs ths g ms ps os vs t); try done;
    cbn [delete_node heap head to_be_deleted threads_in_pop allocated freed at_pc].
  - intros b Hb. left. apply lookup_delete_ne. intros ->. contradiction.
  - intros b [?|[?|?]]; auto. right. right. left. rewrite Hot.
    apply elem_of_cons; auto.
  - intros b [m Hm] [?|[?|[Hb|Hnone]]]; auto.
    + rewrite Hot in Hb. apply elem_of_cons in Hb as [->|Hb]; [|auto].
      by rewrite lookup_delete_eq in Hm.
    + destruct (decide (b = a)) as [->|Hne]; [by rewrite lookup_delete_eq in Hm|].
      rewrite lookup_delete_ne in Hm by done. congruence.
  - intros b [m Hm] Hnone. split; [done|].
    destruct (decide (b = a)) as [->|Hne]; [done|].
    rewrite lookup_delete_ne in Hnone by done. congruence.
  - by apply chain_delete.
  - by apply chain_delete.
  - eapply holds_ext; [|done]. intros b Hb. apply lookup_delete_ne. congruence.
  - eapply released_handles_ext; [|done]. intros b Hb.
    apply lookup_delete_ne. congruence.
  - cbn. split; [by apply chain_delete|].
    eapply released_handles_ext.
    + intros b Hb. apply lookup_delete_ne. congruence.
    + intros b Hb. apply Hreleased, elem_of_cons; auto.
  - intros b Hb. apply (Hapart t). rewrite Hot. apply elem_of_cons; auto.
  - auto.
  - rewrite Hcounter. f_equal. symmetry. by eapply count_inside_same.
  - intros _ b Hb. left. split; [done|]. rewrite Hot. apply elem_of_cons; auto.
  - rewrite map_size_delete_Some by eauto.
    assert (size (heap g) ≠ 0%nat); [|lia].
    intros Hz%map_size_empty_inv. by rewrite Hz, lookup_empty in Hn.
Qed.

Lemma step_DeleteNodes_null cs ths g ms ps os vs t res td ret :
  cinv cs ths g ms ps os vs →
  ths !! t = Some (Thread (Some (DeleteNodes None res)) td ret) →
  kept cs ths g t (PopDone res) td ret g.
Proof.
  intros Hinv Ht.
  pose proof (ci_counter _ _ _ _ _ _ _ Hinv) as Hcounter.
  pose proof (ci_owns _ _ _ _ _ _ _ Hinv t _ Ht) as Hown. cbn in Hown.
  exists ms, ps, (<[t := os t]> os), vs.
  eapply (cinv_local cs ths g ms ps os vs t); try done; cbn [at_pc].
  - destruct Hown as [Hchain _]. cbn. by eapply chain_null.
  - rewrite Hcounter. f_equal. symmetry. by eapply count_inside_same.
Qed.

Lemma step_ChainWalk cs ths g ms ps os vs t nodes z n b res td ret :
  cinv cs ths g ms ps os vs →
  ths !! t = Some (Thread (Some (ChainWalk nodes (Some z) res)) td ret) →
  heap g !! z = Some n → next n = Some b →
  kept cs ths g t (ChainWalk nodes (Some b) res) td ret g.
Proof.
  intros Hinv Ht Hn Hb.
  pose proof (ci_counter _ _ _ _ _ _ _ Hinv) as Hcounter.
  pose proof (ci_owns _ _ _ _ _ _ _ Hinv t _ Ht) as Hown. cbn in Hown.
  destruct Hown as (Hchain & Hreleased & l1 & l2 & Hot & Hne & Hlast).
  destruct l2 as [|z' l2]; [done|].
  destruct Hlast as ([= <-] & n' & Hn' & Hlast).
  rewrite Hn in Hn'. injection Hn' as <-. rewrite Hb in Hlast.
  exists ms, ps, (<[t := os t]> os), vs.
  eapply (cinv_local cs ths g ms ps os vs t); try done; cbn [at_pc].
  - cbn. split; [done|]. split; [done|].
    exists (l1 ++ [z]), l2. split; [by rewrite <- app_assoc|].
    split; [|done]. intros ->. discriminate.
  - rewrite Hcounter. f_equal. symmetry. by eapply count_inside_same.
Qed.

Lemma step_ChainWalk_end cs ths g ms ps os vs t nodes z n res td ret :
  cinv cs ths g ms ps os vs →
  ths !! t = Some (Thread (Some (ChainWalk nodes (Some z) res)) td ret) →
  heap g !! z = Some n → next n = None →
  kept cs ths g t (ChainLoad nodes (Some z) ThenReturn res) td ret g.
Proof.
  intros Hinv Ht Hn Hb.
  pose proof (ci_counter _ _ _ _ _ _ _ Hinv) as Hcounter.
  pose proof (ci_owns _ _ _ _ _ _ _ Hinv t _ Ht) as Hown. cbn in Hown.
  destruct Hown as (Hchain & Hreleased & l1 & l2 & Hot & Hne & Hlast).
  destruct l2 as [|z' l2]; [done|].
  destruct Hlast as ([= <-] & n' & Hn' & Hlast).
  rewrite Hn in Hn'. injection Hn' as <-. rewrite Hb in Hlast.
  destruct l2; [|by destruct Hlast].
  rewrite Hot in Hchain. destruct (chain_seg _ _ _ _ Hchain) as [Hseg _].
  exists ms, ps, (<[t := os t]> os), vs.
  eapply (cinv_local cs ths g ms ps os vs t); try done; cbn [at_pc].
  - cbn. right. exists l1, z. by rewrite Hot in *.
  - rewrite Hcounter. f_equal. symmetry. by eapply count_inside_same.
Qed.

Lemma step_ChainLoad cs ths g ms ps os vs t first z n k res td ret :
  cinv cs ths g ms ps os vs →
  ths !! t = Some (Thread (Some (ChainLoad first (Some z) k res)) td ret) →
  heap g !! z = Some n →
  kept cs ths g t (ChainCAS first (Some z) k res) td ret
    (set_next z n (to_be_deleted g) g).
Proof.
  intros Hinv Ht Hn.
  pose proof (ci_nodup _ _ _ _ _ _ _ Hinv t) as Hnd.
  pose proof (ci_owns _ _ _ _ _ _ _ Hinv t _ Ht) as Hown. cbn in Hown.
  destruct Hown as [(_ & [=] & _)|(l & z' & Hot & Hseg & [= <-] & Hreleased)].
  rewrite Hot in Hnd. apply list.NoDup_app in Hnd as (_ & Hlz & _).
  assert (z ∈ os t) as Hzt.
  { rewrite Hot. apply elem_of_app. right. by apply list_elem_of_singleton. }
  destruct (Hreleased z Hzt) as [q Hq]. rewrite Hn in Hq. injection Hq as ->.
  exists ms, ps, (<[t := os t]> os), vs.
  eapply (cinv_write cs ths g ms ps os vs t _ _ _ z); try done; cbn [at_pc].
  - cbn. exists l, z. split; [done|]. split; [|split; [done|]].
    + eapply seg_ext; [|done]. intros b Hb. apply lookup_insert_ne.
      intros <-. apply (Hlz z Hb). by apply list_elem_of_singleton.
    + intros b Hb. destruct (decide (b = z)) as [->|Hne].
      * rewrite lookup_insert_eq. eauto.
      * rewrite lookup_insert_ne by done. by apply Hreleased.
Qed.

Lemma step_ChainCAS_fail cs ths g ms ps os vs t first z n k res td ret :
  cinv cs ths g ms ps os vs →
  ths !! t = Some (Thread (Some (ChainCAS first (Some z) k res)) td ret) →
  heap g !! z = Some n →
  kept cs ths g t (ChainCAS first (Some z) k res) td ret
    (set_next z n (to_be_deleted g) g).
Proof.
  intros Hinv Ht Hn.
  pose proof (ci_nodup _ _ _ _ _ _ _ Hinv t) as Hnd.
  pose proof (ci_owns _ _ _ _ _ _ _ Hinv t _ Ht) as Hown. cbn in Hown.
  destruct Hown as (l & z' & Hot & Hseg & [= <-] & Hreleased).
  rewrite Hot in Hnd. apply list.NoDup_app in Hnd as (_ & Hlz & _).
  assert (z ∈ os t) as Hzt.
  { rewrite Hot. apply elem_of_app. right. by apply list_elem_of_singleton. }
  destruct (Hreleased z Hzt) as [q Hq]. rewrite Hn in Hq. injection Hq as ->.
  exists ms, ps, (<[t := os t]> os), vs.
  eapply (cinv_write cs ths g ms ps os vs t _ _ _ z); try done; cbn [at_pc].
  cbn. exists l, z. split; [done|]. split; [|split; [done|]].
  - eapply seg_ext; [|done]. intros b Hb. apply lookup_insert_ne.
    intros <-. apply (Hlz z Hb). by apply list_elem_of_singleton.
  - intros b Hb. destruct (decide (b = z)) as [->|Hne].
    + rewrite lookup_insert_eq. eauto.
    + rewrite lookup_insert_ne by done. by apply Hreleased.
Qed.

Lemma step_ChainCAS cs ths g ms ps os vs t first z n k res td ret :
  cinv cs ths g ms ps os vs →
  ths !! t = Some (Thread (Some (ChainCAS first (Some z) k res)) td ret) →
  heap g !! z = Some n → to_be_deleted g = next n →
  kept cs ths g t (after k res) td ret (set_to_be_deleted first g).
Proof.
  intros Hinv Ht Hn Hcas. use_inv Hinv.
  pose proof (ci_owns _ _ _ _ _ _ _ Hinv t _ Ht) as Hown. cbn in Hown.
  destruct Hown as (l & z' & Hot & Hseg & [= <-] & Hreleased).
  exists ms, ((l ++ [z]) ++ ps), (<[t := []]> os), vs.
  eapply (cinv_update cs ths g ms ps os vs t); try done;
    cbn [set_to_be_deleted heap head to_be_deleted threads_in_pop allocated freed at_pc].
  - auto.
  - intros b [?|[[?|?]%elem_of_app|[]%elem_of_nil]]; auto.
    right. right. left. by rewrite Hot.
  - intros b [m Hm] [?|[?|[Hb|Hnone]]]; auto.
    + right. left. apply elem_of_app; auto.
    + right. left. apply elem_of_app. left. by rewrite <- Hot.
    + congruence.
  - intros b [m Hm] Hnone. congruence.
  - apply (seg_chain _ _ _ _ n); try done. by rewrite <- Hcas.
  - intros b [Hb|Hb]%elem_of_app; [|by apply Hrel].
    apply Hreleased. by rewrite Hot.
  - intros b Hb [Hbo|Hbp]%elem_of_app; [|by apply (Hdisj b)].
    rewrite <- Hot in Hbo. by destruct (Hapart t b Hbo).
  - by destruct k.
  - apply NoDup_nil_2.
  - intros b []%elem_of_nil.
  - auto.
  - rewrite Hcounter. f_equal. symmetry. eapply count_inside_same; [done|].
    by destruct k.
  - by destruct k.
  - by destruct k.
  - by destruct k.
  - unfold carried. cbn [at_pc todo returned pc_values]. by destruct k.
Qed.

End StepsChain.

Section Interleaved.
Context {T : Type}.
Implicit Types (g : shared T) (ms ps o : list positive) (os : nat → list positive).
Implicit Types (th : thread T) (ths : list (thread T)) (vs : list T).
Implicit Types (td : list (call T)) (ret : list (option T)) (res : option T).

Lemma step_enter cs ths g ms ps os vs t c td ret :
  cinv cs ths g ms ps os vs →
  ths !! t = Some (Thread None (c :: td) ret) →
  kept cs ths g t (enter c) td ret g.
Proof.
  intros Hinv Ht.
  pose proof (ci_counter _ _ _ _ _ _ _ Hinv) as Hcounter.
  pose proof (ci_owns _ _ _ _ _ _ _ Hinv t _ Ht) as Hown. cbn in Hown.
  exists ms, ps, (<[t := os t]> os), vs.
  eapply (cinv_local cs ths g ms ps os vs t); try done; cbn [at_pc].
  - by destruct c.
  - rewrite Hcounter. f_equal. symmetry. eapply count_inside_same; [done|].
    by destruct c.
  - by destruct c.
  - by destruct c.
  - by destruct c.
  - unfold carried. cbn [at_pc todo returned pc_values].
    destruct c; cbn; solve_Permutation.
Qed.

Lemma step_return cs ths g ms ps os vs t p td ret :
  cinv cs ths g ms ps os vs →
  ths !! t = Some (Thread (Some p) td ret) →
  done p = true →
  ∃ ms' ps' os' vs',
    cinv cs (<[t := Thread None td
                      (ret ++ match p with PopDone res => [res] | _ => [] end)]> ths)
         g ms' ps' os' vs'.
Proof.
  intros Hinv Ht Hdone.
  pose proof (ci_counter _ _ _ _ _ _ _ Hinv) as Hcounter.
  pose proof (ci_owns _ _ _ _ _ _ _ Hinv t _ Ht) as Hown.
  exists ms, ps, (<[t := os t]> os), vs.
  eapply (cinv_local cs ths g ms ps os vs t); try done; cbn [at_pc].
  - by destruct p.
  - rewrite Hcounter. f_equal. symmetry. eapply count_inside_same; [done|].
    by destruct p.
  - unfold carried. cbn [at_pc todo returned pc_values].
    destruct p; try done; cbn; rewrite ?app_nil_r; [done|].
    rewrite omap_app. destruct res; cbn; solve_Permutation.
Qed.

(** The invariant holds before any thread has moved. *)
Lemma cinv_start (cs : list (list (call T))) :
  Z.of_nat (length cs) < 2 ^ 31 →
  cinv cs (start cs) construct [] [] (λ _, []) [].
Proof.
  intros Hlen.
  assert (∀ t th, start cs !! t = Some th → at_pc th = None) as Hidle.
  { intros t th Hth. unfold start in Hth.
    by apply list_lookup_fmap_Some in Hth as (c & -> & _). }
  split; cbn [construct heap head to_be_deleted threads_in_pop allocated freed];
    try done.
  - intros a []%elem_of_nil.
  - intros a []%elem_of_nil.
  - intros t th Hth. by rewrite (Hidle t th Hth).
  - intros _. apply NoDup_nil_2.
  - intros _ a []%elem_of_nil.
  - intros _ _ a _ []%elem_of_nil.
  - intros a [n Hn]. by rewrite lookup_empty in Hn.
  - unfold atomic_int_default. clear. induction cs as [|c cs IH]; [done|]. apply IH.
  - unfold start. by rewrite length_map.
  - intros t th a Hth. by rewrite (Hidle t th Hth).
  - intros t th a t' th' Hth. by rewrite (Hidle t th Hth).
  - intros t th a nx Hth. by rewrite (Hidle t th Hth).
  - cbn. unfold start. rewrite map_map.
    assert (map (λ c, carried ∅ (Thread None c [])) cs = map todo_values cs)
      as ->; [|done].
    apply map_ext. intros c. unfold carried. cbn. by rewrite !app_nil_r.
Qed.

(** Every step of every thread keeps the invariant. *)
Theorem cinv_cstep `{Allocator} cs ths g ms ps os vs spurious t ths' g' :
  cinv cs ths g ms ps os vs →
  cstep spurious t ths g = Ok ths' g' →
  ∃ ms' ps' os' vs', cinv cs ths' g' ms' ps' os' vs'.
Proof.
  intros Hinv. unfold cstep.
  destruct (ths !! t) as [[pc td ret]|] eqn:Ht; cbn [at_pc todo returned];
    [|intros [= <- <-]; eauto].
  destruct pc as [p|].
  2:{ destruct td as [|c td]; intros [= <- <-]; [eauto|]. by eapply step_enter. }
  destruct p as [v|a|a| | | |oh|a nx|oh|oh res|oh res|res|ntd res|res|nodes res|nodes last res|first last k res|first last k res|res];
    cbn [tstep].
  - (* PushNew *)
    destruct (new_addr (dom (heap g))) as [a|] eqn:Ha; [|done].
    intros [= <- <-]. by eapply step_PushNew.
  - (* PushLoad *)
    destruct (heap g !! a) as [n|] eqn:Hn; [|done].
    intros [= <- <-]. by eapply step_PushLoad.
  - (* PushCAS *)
    destruct (heap g !! a) as [n|] eqn:Hn; [|done].
    destruct (bool_decide (head g = next n)) eqn:Hcas; destruct spurious; cbn [andb negb];
      intros [= <- <-]; try (by eapply step_PushCAS_fail).
    apply bool_decide_eq_true in Hcas. by eapply step_PushCAS.
  - (* PushDone *)
    intros [= <- <-].
    destruct (step_return _ _ _ _ _ _ _ _ _ _ _ Hinv Ht eq_refl) as (?&?&?&?&Hi).
    rewrite app_nil_r in Hi. eauto.
  - (* PopEnter *)
    intros [= <- <-]. by eapply step_PopEnter.
  - (* PopLoad *)
    intros [= <- <-]. by eapply step_PopLoad.
  - (* PopLoop *)
    destruct oh as [a|].
    + destruct (heap g !! a) as [n|] eqn:Hn; [|done].
      intros [= <- <-]. by eapply step_PopLoop.
    + intros [= <- <-]. by eapply step_PopLoop_null.
  - (* PopCAS *)
    destruct (bool_decide (head g = Some a)) eqn:Hcas; destruct spurious;
      cbn [andb negb]; intros [= <- <-]; try (by eapply step_PopCAS_fail).
    apply bool_decide_eq_true in Hcas. by eapply step_PopCAS.
  - (* PopSwap *)
    destruct oh as [a|].
    + destruct (heap g !! a) as [n|] eqn:Hn; [|done].
      intros [= <- <-]. by eapply step_PopSwap.
    + intros [= <- <-]. by eapply step_PopSwap_null.
  - (* ReclaimCheck *)
    destruct (bool_decide (threads_in_pop g = 1)) eqn:Hone; intros [= <- <-].
    + apply bool_decide_eq_true in Hone. by eapply step_ReclaimCheck.
    + by eapply step_ReclaimCheck_defer.
  - (* ReclaimDelete *)
    destruct oh as [a|].
    + destruct (heap g !! a) as [n|] eqn:Hn; [|done].
      intros [= <- <-]. by eapply step_ReclaimDelete.
    + intros [= <- <-]. by eapply step_ReclaimDelete_null.
  - (* ReclaimExchange *)
    intros [= <- <-]. by eapply step_ReclaimExchange.
  - (* ReclaimDec *)
    cbv zeta.
    destruct (bool_decide (wrap_int (threads_in_pop g - 1) = 0)) eqn:Hz.
    + intros [= <- <-]. apply bool_decide_eq_true in Hz.
      by eapply step_ReclaimDec_free.
    + destruct ntd as [a|]; intros [= <- <-].
      * by eapply step_ReclaimDec_walk.
      * by eapply step_ReclaimDec_nothing.
  - (* ReclaimDeferDec *)
    intros [= <- <-]. by eapply step_ReclaimDeferDec.
  - (* DeleteNodes *)
    destruct nodes as [a|].
    + destruct (heap g !! a) as [n|] eqn:Hn; [|done].
      intros [= <- <-]. by eapply step_DeleteNodes.
    + intros [= <- <-]. by eapply step_DeleteNodes_null.
  - (* ChainWalk *)
    destruct last as [z|]; cbn [deref]; [|done].
    destruct (heap g !! z) as [n|] eqn:Hn; [|done].
    destruct (next n) as [b|] eqn:Hb; intros [= <- <-].
    + by eapply step_ChainWalk.
    + by eapply step_ChainWalk_end.
  - (* ChainLoad *)
    destruct last as [z|]; cbn [deref]; [|done].
    destruct (heap g !! z) as [n|] eqn:Hn; [|done].
    intros [= <- <-]. by eapply step_ChainLoad.
  - (* ChainCAS *)
    destruct last as [z|]; cbn [deref]; [|done].
    destruct (heap g !! z) as [n|] eqn:Hn; [|done].
    destruct (bool_decide (to_be_deleted g = next n)) eqn:Hcas; destruct spurious;
      cbn [andb negb]; intros [= <- <-]; try (by eapply step_ChainCAS_fail).
    apply bool_decide_eq_true in Hcas. by eapply step_ChainCAS.
  - (* PopDone *)
    intros [= <- <-].
    destruct (step_return _ _ _ _ _ _ _ _ _ _ _ Hinv Ht eq_refl) as (?&?&?&?&Hi).
    eauto.
Qed.

(** Every reachable configuration satisfies the invariant. *)
Theorem reachable_cinv cs ths g :
  Z.of_nat (length cs) < 2 ^ 31 → reachable cs ths g →
  ∃ ms ps os vs, cinv cs ths g ms ps os vs.
Proof.
  intros Hlen Hr. induction Hr as [|A ths g sp t ths' g' _ IH Hstep].
  - exists [], [], (λ _, []), []. by apply cinv_start.
  - destruct IH as (ms & ps & os & vs & Hinv). by eapply cinv_cstep.
Qed.

End Interleaved.

(** ** What the invariant gives *)

Section Consequences.
Context {T : Type}.
Implicit Types (g : shared T) (ms ps o : list positive) (os : nat → list positive).
Implicit Types (th : thread T) (ths : list (thread T)) (vs : list T).

Lemma holds_live_handles h ms vs : holds (T := T) h ms vs → live_handles h ms.
Proof.
  revert vs. induction ms as [|b ms IH]; intros [|v vs]; cbn; try done.
  - intros _ a Ha. by apply elem_of_nil in Ha.
  - intros [[q Hq] Hms] a [->|Ha]%elem_of_cons; [eauto|]. by eapply IH.
Qed.

Lemma cinv_stack_inv cs ths g ms ps os vs :
  cinv cs ths g ms ps os vs → stack_inv g ms ps.
Proof.
  intros Hinv. split; try by destruct Hinv.
  eapply holds_live_handles. by destruct Hinv.
Qed.

Lemma count_inside_idle ths :
  (∀ t th, ths !! t = Some th → at_pc th = None) → count_inside ths = 0%nat.
Proof.
  induction ths as [|th ths IH]; intros Hidle; [done|]. cbn.
  unfold inside. rewrite (Hidle 0%nat th eq_refl). cbn.
  apply IH. intros t th' Ht. by apply (Hidle (S t)).
Qed.

(** With every thread between two calls the stack is quiescent. *)
Lemma cinv_quiescent cs ths g ms ps os vs :
  cinv cs ths g ms ps os vs →
  (∀ t th, ths !! t = Some th → at_pc th = None) →
  quiescent g ms ps.
Proof.
  intros Hinv Hidle. split.
  - by eapply cinv_stack_inv.
  - rewrite (ci_counter _ _ _ _ _ _ _ Hinv). by rewrite count_inside_idle.
  - intros a Ha.
    destruct (ci_listed _ _ _ _ _ _ _ Hinv a Ha) as [?|[?|[t Ht]]]; auto.
    destruct (ths !! t) as [th|] eqn:Hth.
    + pose proof (ci_owns _ _ _ _ _ _ _ Hinv t th Hth) as Hown.
      rewrite (Hidle t th Hth) in Hown. cbn in Hown. rewrite Hown in Ht.
      by apply elem_of_nil in Ht.
    + rewrite (ci_none _ _ _ _ _ _ _ Hinv t Hth) in Ht. by apply elem_of_nil in Ht.
  - by destruct Hinv.
Qed.

(** A fault is the null dereference of [chain_pending_nodes(nullptr)],
    called from line 35: no step uses a node that was freed, and no node is
    freed twice. *)
Lemma cinv_fault `{Allocator} cs ths g ms ps os vs spurious t :
  cinv cs ths g ms ps os vs →
  cstep spurious t ths g = Fault →
  ∃ td ret res,
    ths !! t = Some (Thread (Some (ChainLoad None None ThenDecrement res)) td ret).
Proof.
  intros Hinv. unfold cstep.
  destruct (ths !! t) as [[pc td ret]|] eqn:Ht; cbn [at_pc todo returned]; [|done].
  pose proof (ci_owns _ _ _ _ _ _ _ Hinv t _ Ht) as Hown. cbn [at_pc] in Hown.
  destruct pc as [p|]; [|by destruct td].
  destruct p as [v|a|a| | | |oh|a nx|oh|oh res|oh res|res|ntd res|res|nodes res|nodes last res|first last k res|first last k res|res];
    cbn [tstep]; try done.
  - by destruct (new_addr (dom (heap g))).
  - destruct Hown as [_ (v & q & ->)]. done.
  - destruct Hown as [_ (v & q & ->)]. by destruct (_ && _).
  - destruct oh as [a|]; [|done].
    destruct (ci_held_live _ _ _ _ _ _ _ Hinv t _ a Ht eq_refl) as [n ->]. done.
  - by destruct (_ && _).
  - destruct oh as [a|]; [|done]. destruct Hown as [_ (v & q & ->)]. done.
  - by destruct (bool_decide _).
  - destruct oh as [a|]; [|done]. destruct Hown as [_ (q & ->)]. done.
  - cbv zeta. destruct (bool_decide _); [done|]. by destruct ntd.
  - destruct nodes as [a|]; [|done]. destruct Hown as [Hchain _].
    destruct (os t); [done|]. destruct Hchain as ([= <-] & n & -> & _). done.
  - destruct Hown as (_ & _ & l1 & l2 & _ & Hne & Hchain).
    destruct l2 as [|z l2]; [done|]. destruct Hchain as (-> & n & Hn & _).
    cbn [deref]. rewrite Hn. by destruct (next n).
  - destruct Hown as [(-> & -> & _ & ->)|(l & z & Hot & _ & -> & Hrel)]; [eauto|].
    destruct (Hrel z) as [q Hq].
    { rewrite Hot. apply elem_of_app. right. by apply list_elem_of_singleton. }
    cbn [deref]. by rewrite Hq.
  - destruct Hown as (l & z & Hot & _ & -> & Hrel).
    destruct (Hrel z) as [q Hq].
    { rewrite Hot. apply elem_of_app. right. by apply list_elem_of_singleton. }
    cbn [deref]. rewrite Hq. by destruct (_ && _).
Qed.

(** A schedule that runs is an interleaving. *)
Lemma run_schedule_reachable `{Allocator} cs sched : ∀ ths g ths' g',
  reachable cs ths g → run_schedule sched ths g = Ok ths' g' →
  reachable cs ths' g'.
Proof.
  induction sched as [|t sched IH]; intros ths g ths' g' Hr; cbn [run_schedule].
  - by intros [= <- <-].
  - destruct (cstep false t ths g) as [ths1 g1| | |] eqn:Hstep; try done.
    apply IH. by eapply reach_step.
Qed.

End Consequences.

(** ** The claims about every interleaving *)

Section Reachable.
Context {T : Type}.
Implicit Types (g : shared T) (ths : list (thread T)).

Lemma submseteq_concat_map (f f' : thread T → list T) ths :
  (∀ th, f th ⊆+ f' th) → concat (map f ths) ⊆+ concat (map f' ths).
Proof.
  intros Hsub. induction ths as [|th ths IH]; [done|]. cbn.
  by apply submseteq_app.
Qed.

(** C7 (teardown completeness): in every configuration an interleaving of
    calls of [push] and [pop] reaches, once every thread is between two
    calls, the destructor pops until [pop] returns the empty handle and ends
    with no node live: as many nodes have been freed as were ever allocated,
    those that were on the pending list included. *)
Theorem teardown_frees_all `{Allocator} cs ths g :
  Z.of_nat (length cs) < 2 ^ 31 →
  reachable cs ths g →
  (∀ t th, ths !! t = Some th → at_pc th = None) →
  ∃ g', destroy g = Ok tt g' ∧
        heap g' = ∅ ∧ head g' = None ∧ to_be_deleted g' = None ∧
        allocated g' = allocated g ∧ freed g' = allocated g'.
Proof.
  intros Hlen Hr Hidle.
  destruct (reachable_cinv cs ths g Hlen Hr) as (ms & ps & os & vs & Hinv).
  apply (teardown_quiescent g ms ps). by eapply cinv_quiescent.
Qed.

(** C8 (invariant set): the constructor establishes, and [push] and [pop]
    (with its call of [try_reclaim]) preserve, that the main list and the
    pending list are disjoint lists of live nodes, that every node of the
    main list holds a value handle, and that every node of the pending list
    has had its handle swapped out.  The last conjunct is the same for the
    steps of the calls interleaved: the invariant holds in every
    configuration that is reached. *)
Theorem invariants_preserved `{Allocator} :
  stack_inv (T := T) construct [] [] ∧
  (∀ g ms ps (v : T) g',
     stack_inv g ms ps → push v g = Ok tt g' → ∃ ms' ps', stack_inv g' ms' ps') ∧
  (∀ g ms ps res g',
     stack_inv g ms ps → pop g = Ok res g' → ∃ ms' ps', stack_inv g' ms' ps') ∧
  (∀ cs ths g,
     Z.of_nat (length cs) < 2 ^ 31 → reachable cs ths g →
     ∃ ms ps, stack_inv g ms ps).
Proof.
  split; [apply construct_inv|]. split; [|split].
  - intros g ms ps v g' Hi Hp.
    destruct (push_inv _ _ _ _ _ Hi Hp) as (a & _ & Hi'). eauto.
  - intros g ms ps res g' Hi Hp.
    destruct (pop_inv _ _ _ _ _ Hi Hp) as [Hi'|(a & _ & Hi')]; eauto.
  - intros cs ths g Hlen Hr.
    destruct (reachable_cinv cs ths g Hlen Hr) as (ms & ps & os & vs & Hinv).
    exists ms, ps. by eapply cinv_stack_inv.
Qed.

(** Exactly-once delivery where no call faults: at any moment the values
    the calls of [pop] have returned are among the values pushed, each as
    often at most as it was pushed; and when every thread has made all its
    calls, the values returned and the values still on the stack are
    exactly the values pushed. *)
Theorem exactly_once_delivery cs ths g :
  Z.of_nat (length cs) < 2 ^ 31 →
  reachable cs ths g →
  delivered ths ⊆+ pushed cs ∧
  ((∀ t th, ths !! t = Some th → at_pc th = None ∧ todo th = []) →
   ∃ ms vs, chain (heap g) (head g) ms ∧ holds (heap g) ms vs ∧
            vs ++ delivered ths ≡ₚ pushed cs).
Proof.
  intros Hlen Hr.
  destruct (reachable_cinv cs ths g Hlen Hr) as (ms & ps & os & vs & Hinv).
  pose proof (ci_conserved _ _ _ _ _ _ _ Hinv) as Hcons.
  split.
  - unfold pushed. rewrite <- Hcons. apply submseteq_inserts_l.
    apply submseteq_concat_map. intros th. unfold carried.
    do 2 apply submseteq_inserts_l. done.
  - intros Hend. exists ms, vs.
    split; [by destruct Hinv|]. split; [by destruct Hinv|].
    unfold pushed. rewrite <- Hcons. apply Permutation_app_head.
    unfold delivered.
    assert (map (λ th, omap id (returned th)) ths = map (carried (heap g)) ths)
      as ->; [|done].
    apply map_ext_in. intros th Hth%list_elem_of_In.
    apply list_elem_of_lookup in Hth as [t Ht].
    destruct (Hend t th Ht) as [Hpc Htd]. unfold carried. by rewrite Hpc, Htd.
Qed.

(** Memory safety: in a configuration that is reached, the only step that
    faults is the null dereference of [chain_pending_nodes(nullptr)] called
    from the deferred branch of [try_reclaim]; no step reads, writes or
    frees a node that was freed. *)
Theorem fault_is_null_chain `{Allocator} cs ths g spurious t :
  Z.of_nat (length cs) < 2 ^ 31 →
  reachable cs ths g →
  cstep spurious t ths g = Fault →
  ∃ td ret res,
    ths !! t = Some (Thread (Some (ChainLoad None None ThenDecrement res)) td ret).
Proof.
  intros Hlen Hr.
  destruct (reachable_cinv cs ths g Hlen Hr) as (ms & ps & os & vs & Hinv).
  by eapply cinv_fault.
Qed.

(** The counter counts the threads between the increment at the entry of
    [pop] and the decrement in [try_reclaim]. *)
Theorem counter_counts_threads cs ths g :
  Z.of_nat (length cs) < 2 ^ 31 →
  reachable cs ths g →
  threads_in_pop g = Z.of_nat (count_inside ths).
Proof.
  intros Hlen Hr.
  destruct (reachable_cinv cs ths g Hlen Hr) as (ms & ps & os & vs & Hinv).
  by destruct Hinv.
Qed.

End Reachable.

(** ** More on the calls of one thread *)

Section Alone.
Context {T : Type} `{Allocator}.
Implicit Types (g : shared T) (h : gmap positive (node T)) (p q : ptr).
Implicit Types (l ms ps : list positive) (vs ws : list T) (res : option T).

(** [pop] of the top node while the counter is not zero at entry. *)
Lemma pop_busy g a ms ps v q :
  stack_inv g (a :: ms) ps → heap g !! a = Some (Node (Some v) q) →
  int_range (threads_in_pop g) → threads_in_pop g ≠ 0 →
  ∃ g', pop g = Ok (Some v) g' ∧ stack_inv g' ms (a :: ps) ∧
        threads_in_pop g' = threads_in_pop g ∧
        freed g' = freed g ∧ allocated g' = allocated g ∧
        dom (heap g') = dom (heap g) ∧
        ∀ b, b ≠ a → heap g' !! b = heap g !! b.
Proof.
  intros Hinv Ha Hrange Hc.
  assert (wrap_int (threads_in_pop g + 1) ≠ 1) as Hc'.
  { by rewrite wrap_int_inc_one. }
  pose proof (inv_main _ _ _ Hinv) as Hm. pose proof Hm as (Hh & _).
  pose proof (pop_top_busy g a _ Hh Ha Hc') as Hpop. cbn [data next] in Hpop.
  eexists. split; [exact Hpop|].
  destruct (pop_inv _ _ _ _ _ Hinv Hpop) as [Hbad|(a' & Ha' & Hinv')].
  - exfalso. pose proof (inv_pending _ _ _ Hbad) as Hp. cbn in Hp. done.
  - rewrite Hh in Ha'. injection Ha' as <-. cbn [tail] in Hinv'.
    split; [done|]. cbn [heap threads_in_pop freed allocated].
    split; [by apply wrap_int_inc_dec|]. do 2 (split; [done|]).
    split.
    + rewrite dom_insert_L. apply subseteq_union_1_L, singleton_subseteq_l.
      by eapply elem_of_dom_2.
    + intros b Hb. by rewrite lookup_insert_ne.
Qed.

(** What [pop] alone ends in, for every stack and counter: it faults
    exactly on the empty stack with the counter not zero at entry
    ([chain_pending_nodes(nullptr)], line 35), and returns otherwise, the
    empty handle exactly when the stack is empty. *)
Theorem pop_alone_outcome g ms ps :
  stack_inv g ms ps → int_range (threads_in_pop g) →
  if decide (head g = None ∧ threads_in_pop g ≠ 0)
  then pop g = Fault
  else ∃ res g', pop g = Ok res g' ∧ (res = None ↔ head g = None).
Proof.
  intros Hinv Hrange.
  pose proof (wrap_int_inc_one _ Hrange) as Hone.
  pose proof (inv_main _ _ _ Hinv) as Hm.
  pose proof (inv_pending _ _ _ Hinv) as Hp.
  destruct (decide _) as [[Hh Hc]|Hno].
  - apply pop_empty_busy; [done|]. by rewrite Hone.
  - destruct ms as [|a ms].
    + cbn in Hm. assert (threads_in_pop g = 0) as Hc.
      { destruct (decide (threads_in_pop g = 0)); [done|]. by destruct Hno. }
      exists None. eexists. split; [|done].
      apply pop_empty_idle; [done|by apply Hone|done].
    + destruct (inv_live _ _ _ Hinv a) as (v & q & Ha); [apply elem_of_cons; auto|].
      pose proof Hm as (Hh & _).
      exists (Some v). destruct (decide (threads_in_pop g = 0)) as [Hc|Hc].
      * eexists. split; [|by rewrite Hh].
        apply (pop_top_idle g a _ ps Hh Ha); [by apply Hone|done|].
        apply (inv_disjoint _ _ _ Hinv), elem_of_cons; auto.
      * destruct (pop_busy g a ms ps v q) as (g' & Hpop & _); try done.
        exists g'. split; [done|]. by rewrite Hh.
Qed.

(** While the counter is not zero at entry (a thread is stalled inside
    [pop]), [pop] frees nothing: each call returns the top value and leaves
    its node at the front of the pending list, which grows by one node a
    call. *)
Theorem stalled_pop_defers l : ∀ g ms ps vs,
  stack_inv g (l ++ ms) ps → holds (heap g) l vs →
  int_range (threads_in_pop g) → threads_in_pop g ≠ 0 →
  ∃ g', pop_n (length l) g = Ok (map Some vs) g' ∧
        stack_inv g' ms (rev l ++ ps) ∧
        threads_in_pop g' = threads_in_pop g ∧
        freed g' = freed g ∧ allocated g' = allocated g ∧
        dom (heap g') = dom (heap g).
Proof.
  induction l as [|a l IH]; intros g ms ps vs Hinv Hvs Hrange Hc.
  - destruct vs; [|done]. exists g. by cbn.
  - destruct vs as [|v vs]; [done|]. destruct Hvs as [[q Ha] Hvs].
    destruct (pop_busy g a (l ++ ms) ps v q)
      as (g1 & Hpop & Hinv1 & Hc1 & Hf1 & Hal1 & Hd1 & Hsame); try done.
    destruct (IH g1 ms (a :: ps) vs) as (g2 & Hn & Hinv2 & Hc2 & Hf2 & Hal2 & Hd2).
    + done.
    + apply (holds_ext (heap g)); [|done]. intros b Hb. apply Hsame.
      intros ->. pose proof (chain_NoDup _ _ _ (inv_main _ _ _ Hinv)) as Hnd.
      cbn in Hnd. apply NoDup_cons in Hnd as [Hnd _]. apply Hnd, elem_of_app. auto.
    + by rewrite Hc1.
    + by rewrite Hc1.
    + exists g2. cbn [length pop_n map]. rewrite Hpop, Hn.
      split; [done|]. cbn [rev]. rewrite <- app_assoc. cbn [app].
      split; [done|]. by rewrite Hc2, Hf2, Hal2, Hd2.
Qed.

(** [push] and then [pop], with no thread inside [pop]: [pop] returns the
    value just pushed and the main list is as it was before the two calls.
    The node of the value is freed, and with it the whole pending list. *)
Theorem push_pop_round_trip v g ms ps g1 :
  stack_inv g ms ps → threads_in_pop g = 0 → push v g = Ok tt g1 →
  ∃ g2, pop g1 = Ok (Some v) g2 ∧
        head g2 = head g ∧ to_be_deleted g2 = None ∧ threads_in_pop g2 = 0 ∧
        (∀ a, heap g2 !! a = if decide (a ∈ ps) then None else heap g !! a) ∧
        allocated g2 = S (allocated g) ∧
        freed g2 = (S (freed g) + length ps)%nat.
Proof.
  intros Hinv Hc.
  destruct (new_addr (dom (heap g))) as [a|] eqn:Ha; [|by rewrite push_throw].
  rewrite (push_ok _ _ _ Ha). intros [= <-].
  apply new_addr_fresh, not_elem_of_dom in Ha.
  pose proof (inv_pending _ _ _ Hinv) as Hp.
  assert (a ∉ ps) as Haps.
  { intros [n Hn]%(chain_live _ _ _ _ Hp). congruence. }
  eexists. split.
  { apply (pop_top_idle _ a (Node (Some v) (head g)) ps); cbn [head heap
      to_be_deleted threads_in_pop]; [done|by rewrite lookup_insert_eq|by rewrite Hc|
      by apply chain_insert|done]. }
  cbn [data next heap allocated freed].
  destruct (free_list_proj ps (Shared (delete a (<[a:=Node (Some v) (head g)]> (heap g)))
      (head g) None 0 (S (allocated g)) (S (freed g))))
    as (-> & -> & -> & -> & -> & ->).
  cbn [heap head to_be_deleted threads_in_pop allocated freed].
  do 3 (split; [done|]). split; [|done].
  intros b. rewrite delete_insert_eq, delete_id by done.
  destruct (decide (b ∈ ps)).
  - by apply lookup_foldr_delete.
  - by apply lookup_foldr_delete_not_elem_of.
Qed.

(** One thread using the stack sees the stack of the data model: whatever
    calls of [push] and [pop] it makes in whatever order, each [pop] returns
    what the list returns, and the stack is left with the values of the
    list.  The calls end early only when a [push] finds no memory. *)
Theorem one_thread_refines_list_stack cs : ∀ g vs,
  sequential g vs →
  match run_calls cs g with
  | Ok rs g' => rs = (list_stack cs vs).1 ∧ sequential g' (list_stack cs vs).2
  | Throw g' => ∃ live, new_addr live = None
  | _ => False
  end.
Proof.
  induction cs as [|[v|] cs IH]; intros g vs Hseq; cbn [run_calls list_stack].
  - done.
  - destruct (new_addr (dom (heap g))) as [a|] eqn:Ha.
    + pose proof (push_ok v g a Ha) as Hpush. rewrite Hpush.
      apply IH. by eapply push_sequential.
    + rewrite push_throw by done. eauto.
  - destruct vs as [|v vs].
    + rewrite pop_sequential_empty by done.
      specialize (IH g [] Hseq). destruct (run_calls cs g); try done.
      destruct (list_stack cs []) as [rs ws]. cbn in *. destruct IH as [-> ?]. done.
    + destruct (pop_sequential g v vs Hseq) as (g' & -> & Hseq').
      specialize (IH g' vs Hseq'). destruct (run_calls cs g'); try done.
      destruct (list_stack cs vs) as [rs ws]. cbn in *. destruct IH as [-> ?]. done.
Qed.

(** [delete_nodes] frees the nodes of the list it is given, each once, and
    no other node; [delete_nodes(nullptr)] does nothing.  It reads no
    member of the stack. *)
Theorem delete_nodes_frees_list g nodes l res :
  chain (heap g) nodes l →
  ∃ g', resume (DeleteNodes nodes res) g = Ok (PopDone res) g' ∧
        (∀ a, heap g' !! a = if decide (a ∈ l) then None else heap g !! a) ∧
        freed g' = (freed g + length l)%nat ∧ allocated g' = allocated g ∧
        head g' = head g ∧ to_be_deleted g' = to_be_deleted g ∧
        threads_in_pop g' = threads_in_pop g.
Proof.
  intros Hl. exists (free_list l g). split.
  - apply delete_nodes_run; [done|]. unfold call_fuel.
    pose proof (chain_length _ _ _ Hl). lia.
  - destruct (free_list_proj l g) as (-> & -> & -> & -> & -> & ->).
    split; [|done]. intros a. destruct (decide (a ∈ l)).
    + by apply lookup_foldr_delete.
    + by apply lookup_foldr_delete_not_elem_of.
Qed.

End Alone.

(** ** More on the calls interleaved *)

Section Shared.
Context {T : Type}.
Implicit Types (g : shared T) (ths : list (thread T)) (ms ps : list positive).

(** Every live node has one place: in every configuration that is reached
    it is on the main list, on the pending list, or among the nodes of one
    thread inside a call, and on one of these only; as many nodes are live
    as were allocated and not freed. *)
Theorem live_nodes_accounted cs ths g :
  Z.of_nat (length cs) < 2 ^ 31 →
  reachable cs ths g →
  allocated g = (freed g + size (heap g))%nat ∧
  ∃ ms ps (os : nat → list positive),
    chain (heap g) (head g) ms ∧ chain (heap g) (to_be_deleted g) ps ∧
    (∀ t th, ths !! t = Some th → owns (heap g) (at_pc th) (os t)) ∧
    (∀ t, ths !! t = None → os t = []) ∧
    (∀ a, is_Some (heap g !! a) → a ∈ ms ∨ a ∈ ps ∨ ∃ t, a ∈ os t) ∧
    (∀ a, a ∈ ms → a ∉ ps) ∧
    (∀ t a, a ∈ os t → (a ∉ ms) ∧ (a ∉ ps)) ∧
    (∀ t1 t2 a, t1 ≠ t2 → a ∈ os t1 → a ∉ os t2).
Proof.
  intros Hlen Hr.
  destruct (reachable_cinv cs ths g Hlen Hr) as (ms & ps & os & vs & Hinv).
  split; [by destruct Hinv|]. exists ms, ps, os. by destruct Hinv.
Qed.


(** A [compare_exchange_weak] that fails although the expected value is
    there changes nothing: no member, no node.  The thread is at the head of
    its loop again. *)
Theorem spurious_failure_stutters `{Allocator} (p p' : pc T) g g' :
  tstep true p g = Ok p' g' →
  tstep false p g ≠ tstep true p g →
  g' = g ∧ (p' = p ∨ p' = PopLoop (head g)).
Proof.
  destruct g as [h hd tbd c al fr]. intros Hstep Hne.
  destruct p as [v|b|b| | | |oh|b nx|oh|oh res|oh res|res|ntd res|res|nodes res|nodes last res|first last k res|first last k res|res];
    try (by destruct Hne); cbn [tstep heap head to_be_deleted] in Hstep, Hne.
  - destruct (h !! b) as [[d nx]|] eqn:Hn; cbn [next] in Hstep, Hne; [|done].
    rewrite andb_false_r in Hstep. rewrite andb_false_r, andb_true_r in Hne.
    injection Hstep as <- <-.
    destruct (bool_decide_reflect (hd = nx)) as [->|]; [|done].
    unfold set_next, set_heap. cbn. rewrite insert_id by done. auto.
  - rewrite andb_false_r in Hstep. injection Hstep as <- <-. auto.
  - unfold deref in Hstep, Hne. cbn [heap] in Hstep, Hne.
    destruct last as [z|]; [|done].
    destruct (h !! z) as [[d nx]|] eqn:Hn; cbn [next] in Hstep, Hne; [|done].
    rewrite andb_false_r in Hstep. rewrite andb_false_r, andb_true_r in Hne.
    injection Hstep as <- <-.
    destruct (bool_decide_reflect (tbd = nx)) as [->|]; [|done].
    unfold set_next, set_heap. cbn. rewrite insert_id by done. auto.
Qed.

End Shared.

(** ** A thread left alone finishes its call *)

Section Finishing.
Context {T : Type} `{Allocator}.
Implicit Types (g : shared T) (h : gmap positive (node T)) (p q : pc T).
Implicit Types (l ms ps o : list positive) (res : option T) (k : nat).

Lemma tstep_not_PushNew sp p g p' g' v :
  tstep sp p g = Ok p' g' → p' ≠ PushNew v.
Proof.
  destruct p as [v'|b|b| | | |oh|b nx|oh|oh r|oh r|r|ntd r|r|nodes r|nodes last r|first last c r|first last c r|r];
    cbn [tstep]; unfold deref;
    repeat (case_match; try done); try (by intros [= <- _]);
    destruct c; by intros [= <- _].
Qed.

Lemma finishes_mono k k' p g : (k ≤ k')%nat → finishes k p g → finishes k' p g.
Proof. intros Hk Hfin fuel Hfuel. apply Hfin. lia. Qed.

Lemma finishes_done p g : done p = true → finishes 0 p g.
Proof. intros Hd fuel _. by rewrite run_solo_done. Qed.

Lemma finishes_step k p g p' g' :
  done p = false → tstep false p g = Ok p' g' →
  finishes k p' g' → finishes (S k) p g.
Proof.
  intros Hd Hstep Hfin [|fuel] Hfuel; [lia|].
  rewrite run_solo_S, Hd, Hstep. specialize (Hfin fuel ltac:(lia)).
  destruct (run_solo fuel p' g'); try done.
  - destruct Hfin as [v ->]. by apply tstep_not_PushNew with (v := v) in Hstep.
  - by rewrite <- (tstep_in_push _ _ _ _ _ Hstep).
Qed.

Lemma finishes_fault p g :
  done p = false → in_push p = false → tstep false p g = Fault → finishes 1 p g.
Proof.
  intros Hd Hp Hstep [|fuel] Hfuel; [lia|]. by rewrite run_solo_S, Hd, Hstep.
Qed.

Lemma finishes_throw v g :
  new_addr (dom (heap g)) = None → finishes 1 (PushNew v) g.
Proof.
  intros Hmem [|fuel] Hfuel; [lia|]. rewrite run_solo_S. cbn [done tstep].
  rewrite Hmem. eauto.
Qed.

End Finishing.

Ltac one_step :=
  eapply finishes_step; [reflexivity|state_simpl|].

Section FinishingCalls.
Context {T : Type} `{Allocator}.
Implicit Types (g : shared T) (h : gmap positive (node T)) (p q : ptr).
Implicit Types (l ms ps o : list positive) (res : option T) (k : nat).

Lemma fin_after g (c : after_chain) res : finishes 1 (after c res) g.
Proof.
  destruct c; cbn [after].
  - apply (finishes_mono 0); [lia|]. by apply finishes_done.
  - one_step; [reflexivity|]. by apply finishes_done.
Qed.

Lemma fin_ChainCAS_now g first z n c res :
  heap g !! z = Some n → to_be_deleted g = next n →
  finishes 2 (ChainCAS first (Some z) c res) g.
Proof.
  intros Hz Hn. one_step.
  - rewrite Hz, bool_decide_eq_true_2 by done. reflexivity.
  - apply fin_after.
Qed.

Lemma fin_ChainCAS g first z c res :
  is_Some (heap g !! z) → finishes 3 (ChainCAS first (Some z) c res) g.
Proof.
  intros [n Hz]. destruct (decide (to_be_deleted g = next n)) as [Hn|Hn].
  - apply (finishes_mono 2); [lia|]. by eapply fin_ChainCAS_now.
  - one_step.
    + rewrite Hz, bool_decide_eq_false_2 by done. reflexivity.
    + eapply fin_ChainCAS_now; state_simpl; [apply lookup_insert_eq|done].
Qed.

Lemma fin_ChainLoad g first z c res :
  is_Some (heap g !! z) → finishes 3 (ChainLoad first (Some z) c res) g.
Proof.
  intros [n Hz]. one_step; [rewrite Hz; reflexivity|].
  eapply fin_ChainCAS_now; state_simpl; [apply lookup_insert_eq|done].
Qed.

Lemma fin_ChainWalk l : ∀ g a nodes res,
  chain (heap g) (Some a) l →
  finishes (3 + length l) (ChainWalk nodes (Some a) res) g.
Proof.
  induction l as [|b l IH]; intros g a nodes res; [done|].
  intros ([= <-] & n & Hn & Hl). cbn [length Nat.add].
  destruct (next n) as [b'|] eqn:Hnext.
  - one_step; [rewrite Hn, Hnext; reflexivity|]. by apply IH.
  - one_step; [rewrite Hn, Hnext; reflexivity|].
    apply (finishes_mono 3); [lia|]. apply fin_ChainLoad. eauto.
Qed.

Lemma fin_DeleteNodes l : ∀ g nodes res,
  chain (heap g) nodes l → finishes (1 + length l) (DeleteNodes nodes res) g.
Proof.
  induction l as [|a l IH]; intros g nodes res Hl.
  - cbn in Hl. subst nodes. one_step; [reflexivity|]. by apply finishes_done.
  - pose proof (chain_NoDup _ _ _ Hl) as [Ha _]%NoDup_cons.
    destruct Hl as (-> & n & Hn & Hl). cbn [length Nat.add].
    one_step; [rewrite Hn; reflexivity|].
    apply IH. state_simpl. by apply chain_delete.
Qed.

Lemma fin_ReclaimDec g ntd res o :
  chain (heap g) ntd o → finishes (4 + length o) (ReclaimDec ntd res) g.
Proof.
  intros Ho.
  destruct (bool_decide (wrap_int (threads_in_pop g - 1) = 0)) eqn:Hc.
  - eapply finishes_step; [reflexivity|cbn [tstep]; cbv zeta; by rewrite Hc|].
    apply (finishes_mono (1 + length o)); [lia|]. by apply fin_DeleteNodes.
  - destruct ntd as [a|].
    + eapply finishes_step; [reflexivity|cbn [tstep]; cbv zeta; by rewrite Hc|].
      by apply fin_ChainWalk.
    + eapply finishes_step; [reflexivity|cbn [tstep]; cbv zeta; by rewrite Hc|].
      apply (finishes_mono 0); [lia|]. by apply finishes_done.
Qed.

Lemma fin_ReclaimExchange g res ps :
  chain (heap g) (to_be_deleted g) ps →
  finishes (5 + length ps) (ReclaimExchange res) g.
Proof. intros Hp. one_step; [reflexivity|]. by apply fin_ReclaimDec. Qed.

Lemma fin_ReclaimDelete g oh res ps :
  chain (heap g) (to_be_deleted g) ps →
  (∀ a, oh = Some a → is_Some (heap g !! a) ∧ a ∉ ps) →
  finishes (6 + length ps) (ReclaimDelete oh res) g.
Proof.
  intros Hp Hoh. destruct oh as [a|].
  - destruct (Hoh a eq_refl) as [[n Hn] Ha].
    one_step; [rewrite Hn; reflexivity|].
    apply fin_ReclaimExchange. state_simpl. by apply chain_delete.
  - one_step; [reflexivity|]. by apply fin_ReclaimExchange.
Qed.

Lemma fin_ReclaimCheck g oh res ps :
  chain (heap g) (to_be_deleted g) ps →
  (∀ a, oh = Some a → is_Some (heap g !! a) ∧ a ∉ ps) →
  finishes (7 + length ps) (ReclaimCheck oh res) g.
Proof.
  intros Hp Hoh. destruct (bool_decide (threads_in_pop g = 1)) eqn:Hc.
  - one_step; [by rewrite Hc|]. by apply fin_ReclaimDelete.
  - one_step; [by rewrite Hc|]. destruct oh as [a|].
    + apply (finishes_mono 3); [lia|]. apply fin_ChainLoad. by apply Hoh.
    + apply (finishes_mono 1); [lia|]. by apply finishes_fault.
Qed.

Lemma fin_PopSwap g oh ps :
  chain (heap g) (to_be_deleted g) ps →
  (∀ a, oh = Some a → is_Some (heap g !! a) ∧ a ∉ ps) →
  finishes (8 + length ps) (PopSwap oh) g.
Proof.
  intros Hp Hoh. destruct oh as [a|].
  - destruct (Hoh a eq_refl) as [[n Hn] Ha].
    one_step; [rewrite Hn; reflexivity|].
    apply fin_ReclaimCheck; state_simpl.
    + by apply chain_insert.
    + intros ? [= <-]. rewrite lookup_insert_eq. eauto.
  - one_step; [reflexivity|]. by apply fin_ReclaimCheck.
Qed.

Lemma fin_PopLoop_head g ps :
  chain (heap g) (to_be_deleted g) ps →
  (∀ b, head g = Some b → is_Some (heap g !! b) ∧ b ∉ ps) →
  finishes (10 + length ps) (PopLoop (head g)) g.
Proof.
  intros Hp Hh. destruct (head g) as [b|] eqn:Hb.
  - destruct (Hh b eq_refl) as [[n Hn] Hbp].
    one_step; [rewrite Hn; reflexivity|].
    one_step; [rewrite Hb, bool_decide_eq_true_2 by done; reflexivity|].
    apply fin_PopSwap; state_simpl; [done|].
    intros ? [= <-]. eauto.
  - one_step; [reflexivity|]. apply (finishes_mono (8 + length ps)); [lia|].
    by apply fin_PopSwap.
Qed.

Lemma fin_PopCAS g a nx ps :
  chain (heap g) (to_be_deleted g) ps →
  (∀ b, head g = Some b → is_Some (heap g !! b) ∧ b ∉ ps) →
  finishes (11 + length ps) (PopCAS a nx) g.
Proof.
  intros Hp Hh. destruct (decide (head g = Some a)) as [Ha|Ha].
  - one_step; [rewrite bool_decide_eq_true_2 by done; reflexivity|].
    apply (finishes_mono (8 + length ps)); [lia|].
    apply fin_PopSwap; state_simpl; [done|].
    intros ? [= <-]. by apply Hh.
  - one_step; [rewrite bool_decide_eq_false_2 by done; reflexivity|].
    by apply fin_PopLoop_head.
Qed.

Lemma fin_PopLoop g oh ps :
  chain (heap g) (to_be_deleted g) ps →
  (∀ b, head g = Some b → is_Some (heap g !! b) ∧ b ∉ ps) →
  (∀ a, oh = Some a → is_Some (heap g !! a)) →
  finishes (12 + length ps) (PopLoop oh) g.
Proof.
  intros Hp Hh Hoh. destruct oh as [a|].
  - destruct (Hoh a eq_refl) as [n Hn].
    one_step; [rewrite Hn; reflexivity|]. by apply fin_PopCAS.
  - one_step; [reflexivity|]. apply (finishes_mono (8 + length ps)); [lia|].
    by apply fin_PopSwap.
Qed.

Lemma fin_PopEnter g ps :
  chain (heap g) (to_be_deleted g) ps →
  (∀ b, head g = Some b → is_Some (heap g !! b) ∧ b ∉ ps) →
  finishes (12 + length ps) PopEnter g.
Proof.
  intros Hp Hh. do 2 (one_step; [reflexivity|]).
  by apply (fin_PopLoop_head (Shared _ _ _ _ _ _)).
Qed.

Lemma fin_PushCAS g a : is_Some (heap g !! a) → finishes 2 (PushCAS a) g.
Proof.
  intros [n Hn]. destruct (decide (head g = next n)) as [Hh|Hh].
  - one_step; [rewrite Hn, bool_decide_eq_true_2 by done; reflexivity|].
    apply (finishes_mono 0); [lia|]. by apply finishes_done.
  - one_step; [rewrite Hn, bool_decide_eq_false_2 by done; reflexivity|].
    one_step.
    + rewrite lookup_insert_eq. cbn [next]. by rewrite bool_decide_eq_true_2.
    + by apply finishes_done.
Qed.

Lemma fin_PushLoad g a : is_Some (heap g !! a) → finishes 3 (PushLoad a) g.
Proof.
  intros [n Hn]. one_step; [rewrite Hn; reflexivity|].
  apply fin_PushCAS. state_simpl. rewrite lookup_insert_eq. eauto.
Qed.

Lemma fin_PushNew g v : finishes 4 (PushNew v) g.
Proof.
  destruct (new_addr (dom (heap g))) as [a|] eqn:Ha.
  - one_step; [rewrite Ha; reflexivity|].
    apply fin_PushLoad. state_simpl. rewrite lookup_insert_eq. eauto.
  - apply (finishes_mono 1); [lia|]. by apply finishes_throw.
Qed.

End FinishingCalls.

Section ObstructionFree.
Context {T : Type} `{Allocator}.
Implicit Types (g : shared T) (ths : list (thread T)) (ms ps o : list positive).

(** In every configuration that is reached a thread inside a call, left
    alone with no spurious failure, ends the call: within 4 steps in [push],
    within 12 steps and one for each live node in [pop]. *)
Lemma reachable_finishes cs ths g t p td ret :
  Z.of_nat (length cs) < 2 ^ 31 →
  reachable cs ths g →
  ths !! t = Some (Thread (Some p) td ret) →
  finishes (if in_push p then 4 else 12 + size (heap g)) p g.
Proof.
  intros Hlen Hr Ht.
  destruct (reachable_cinv cs ths g Hlen Hr) as (ms & ps & os & vs & Hinv).
  pose proof (ci_pending _ _ _ _ _ _ _ Hinv) as Hp.
  pose proof (chain_length _ _ _ Hp) as Hps.
  pose proof (ci_owns _ _ _ _ _ _ _ Hinv t _ Ht) as Hown. cbn [at_pc] in Hown.
  assert (∀ b, head g = Some b → is_Some (heap g !! b) ∧ b ∉ ps) as Hhead.
  { intros b Hb. pose proof (ci_main _ _ _ _ _ _ _ Hinv) as Hm.
    destruct ms as [|b' ms]; [cbn in Hm; congruence|].
    pose proof Hm as (Hb' & n & Hn & _). assert (b' = b) as -> by congruence.
    split; [eauto|]. apply (ci_disjoint _ _ _ _ _ _ _ Hinv), elem_of_cons. auto. }
  assert (∀ a, os t = [a] → a ∉ ps) as Hmine.
  { intros a Ha. apply (ci_apart _ _ _ _ _ _ _ Hinv t). rewrite Ha.
    by apply list_elem_of_singleton. }
  destruct p as [v|a|a| | | |oh|a nx|oh|oh res|oh res|res|ntd res|res|nodes res|nodes last res|first last k res|first last k res|res];
    cbn [in_push].
  - apply (finishes_mono 4); [lia|]. apply fin_PushNew.
  - destruct Hown as [_ (v & q & Ha)].
    apply (finishes_mono 3); [lia|]. apply fin_PushLoad. eauto.
  - destruct Hown as [_ (v & q & Ha)].
    apply (finishes_mono 2); [lia|]. apply fin_PushCAS. eauto.
  - apply (finishes_mono 0); [lia|]. by apply finishes_done.
  - apply (finishes_mono (12 + length ps)); [lia|]. by apply fin_PopEnter.
  - apply (finishes_mono (11 + length ps)); [lia|].
    eapply finishes_step; [reflexivity|reflexivity|]. by apply fin_PopLoop_head.
  - apply (finishes_mono (12 + length ps)); [lia|]. apply fin_PopLoop; [done..|].
    intros a ->. by apply (ci_held_live _ _ _ _ _ _ _ Hinv t _ a Ht).
  - apply (finishes_mono (11 + length ps)); [lia|]. by apply fin_PopCAS.
  - apply (finishes_mono (8 + length ps)); [lia|]. apply fin_PopSwap; [done|].
    intros a ->. destruct Hown as [Ho (v & q & Ha)]. eauto.
  - apply (finishes_mono (7 + length ps)); [lia|]. apply fin_ReclaimCheck; [done|].
    intros a ->. destruct Hown as [Ho (q & Ha)]. eauto.
  - apply (finishes_mono (6 + length ps)); [lia|]. apply fin_ReclaimDelete; [done|].
    intros a ->. destruct Hown as [Ho (q & Ha)]. eauto.
  - apply (finishes_mono (5 + length ps)); [lia|]. by apply fin_ReclaimExchange.
  - destruct Hown as [Ho _]. pose proof (chain_length _ _ _ Ho).
    apply (finishes_mono (4 + length (os t))); [lia|]. by apply fin_ReclaimDec.
  - apply (finishes_mono 1); [lia|].
    eapply finishes_step; [reflexivity|reflexivity|]. by apply finishes_done.
  - destruct Hown as [Ho _]. pose proof (chain_length _ _ _ Ho).
    apply (finishes_mono (1 + length (os t))); [lia|]. by apply fin_DeleteNodes.
  - destruct Hown as (_ & _ & l1 & l2 & _ & Hne & Hl2).
    pose proof (chain_length _ _ _ Hl2).
    destruct l2 as [|z l2]; [done|]. pose proof Hl2 as (-> & _).
    apply (finishes_mono (3 + length (z :: l2))); [lia|]. by apply fin_ChainWalk.
  - destruct Hown as [(-> & -> & _ & ->)|(l & z & Hot & _ & -> & Hrel)].
    + apply (finishes_mono 1); [lia|]. by apply finishes_fault.
    + apply (finishes_mono 3); [lia|]. apply fin_ChainLoad.
      destruct (Hrel z) as [q Hq]; [|eauto].
      rewrite Hot. apply elem_of_app. right. by apply list_elem_of_singleton.
  - destruct Hown as (l & z & Hot & _ & -> & Hrel).
    apply (finishes_mono 3); [lia|]. apply fin_ChainCAS.
    destruct (Hrel z) as [q Hq]; [|eauto].
    rewrite Hot. apply elem_of_app. right. by apply list_elem_of_singleton.
  - apply (finishes_mono 0); [lia|]. by apply finishes_done.
Qed.

(** No step of [pop] makes the heap larger. *)
Lemma tstep_heap_size sp (p p' : pc T) g g' :
  tstep sp p g = Ok p' g' → in_push p = false →
  (size (heap g') ≤ size (heap g))%nat.
Proof.
  destruct p as [v|a|a| | | |oh|a nx|oh|oh res|oh res|res|ntd res|res|nodes res|nodes last res|first last k res|first last k res|res];
    try done; cbn [tstep]; unfold deref; cbv zeta;
    repeat (case_match; try done); intros [= _ <-] _; simplify_eq; state_simpl;
    rewrite ?map_size_insert_Some, ?map_size_delete_Some by eauto; lia.
Qed.

Lemma tstep_not_Diverge sp (p : pc T) g : tstep sp p g ≠ Diverge.
Proof.
  destruct p; cbn [tstep]; unfold deref; cbv zeta; by repeat case_match.
Qed.

(** A step inside a call is a step of the interleaved machine. *)
Lemma cstep_inside sp ths t (p : pc T) td ret g :
  ths !! t = Some (Thread (Some p) td ret) → done p = false →
  cstep sp t ths g
  = match tstep sp p g with
    | Ok p' g' => Ok (<[t := Thread (Some p') td ret]> ths) g'
    | Throw g' => Throw g'
    | Fault => Fault
    | Diverge => Diverge
    end.
Proof. intros Ht Hd. unfold cstep. rewrite Ht. by destruct p. Qed.

Lemma run_weak_done flags fuel (p : pc T) g :
  done p = true → run_weak flags fuel p g = Ok p g.
Proof.
  intros Hd. destruct flags; cbn [run_weak]; [by apply run_solo_done|by rewrite Hd].
Qed.

Lemma reachable_run_weak cs t td ret flags : ∀ ths g p fuel,
  Z.of_nat (length cs) < 2 ^ 31 →
  reachable cs ths g →
  ths !! t = Some (Thread (Some p) td ret) →
  ((if in_push p then 4 else 12 + size (heap g)) ≤ fuel)%nat →
  match run_weak flags fuel p g with
  | Ok p' g' => done p' = true
  | Throw g' => ∃ v, p = PushNew v
  | Fault => in_push p = false
  | Diverge => False
  end.
Proof.
  induction flags as [|sp flags IH]; intros ths g p fuel Hlen Hr Ht Hfuel.
  - cbn [run_weak]. by apply (reachable_finishes cs ths g t p td ret).
  - cbn [run_weak]. destruct (done p) eqn:Hd; [done|].
    pose proof (cstep_inside sp ths t p td ret g Ht Hd) as Hc.
    destruct (tstep sp p g) as [p' g'| g'| |] eqn:Hts.
    + pose proof (tstep_in_push _ _ _ _ _ Hts) as Hpush.
      assert (match run_weak flags fuel p' g' with
              | Ok p'' _ => done p'' = true
              | Throw _ => ∃ v, p' = PushNew v
              | Fault => in_push p' = false
              | Diverge => False
              end) as Hrun.
      { apply (IH (<[t := Thread (Some p') td ret]> ths)); [done| | |].
        - by eapply reach_step.
        - apply list_lookup_insert_eq. by eapply lookup_lt_Some.
        - rewrite Hpush. destruct (in_push p) eqn:Hp; [done|].
          pose proof (tstep_heap_size _ _ _ _ _ Hts Hp). lia. }
      destruct (run_weak flags fuel p' g'); try done.
      * destruct Hrun as [v ->]. by apply tstep_not_PushNew with (v := v) in Hts.
      * by rewrite <- Hpush.
    + apply tstep_throw in Hts as (v & -> & _). eauto.
    + destruct (reachable_cinv cs ths g Hlen Hr) as (ms & ps & os & vs & Hinv).
      destruct (cinv_fault _ _ _ _ _ _ _ _ _ Hinv Hc) as (td' & ret' & res & Ht').
      rewrite Ht in Ht'. by injection Ht' as -> _ _.
    + by apply tstep_not_Diverge in Hts.
Qed.

(** Obstruction freedom: in every configuration that is reached, a thread
    inside a call that runs with no step of another thread in between ends
    the call, whatever the other threads were doing when they stopped and
    however often, finitely many times, a [compare_exchange_weak] of its own
    fails spuriously: [flags] gives the spurious failures of its first
    steps, and after these at most [16 + size (heap g)] steps are left.  A
    call of [push] returns or throws at its allocation; a call of [pop]
    returns or faults ([chain_pending_nodes(nullptr)]). *)
Theorem obstruction_free cs ths g t p td ret flags :
  Z.of_nat (length cs) < 2 ^ 31 →
  reachable cs ths g →
  ths !! t = Some (Thread (Some p) td ret) →
  match run_weak flags (call_fuel g) p g with
  | Ok p' g' => done p' = true
  | Throw g' => ∃ v, p = PushNew v
  | Fault => in_push p = false
  | Diverge => False
  end.
Proof.
  intros Hlen Hr Ht. apply (reachable_run_weak cs t td ret flags ths); try done.
  unfold call_fuel. destruct (in_push p); lia.
Qed.

End ObstructionFree.

(** ** One thread calling [pop] *)

Section SingleConsumer.
Context {T : Type}.
Implicit Types (g : shared T) (th : thread T) (ths : list (thread T)).
Implicit Types (p : pc T) (cs : list (list (call T))).

Lemma count_inside_none ths :
  (∀ t th, ths !! t = Some th → inside th = false) → count_inside ths = 0%nat.
Proof.
  induction ths as [|x ths IH]; intros Hout; [done|]. cbn [count_inside].
  rewrite (Hout 0%nat x eq_refl), IH; [done|].
  intros t th Ht. by apply (Hout (S t)).
Qed.

Lemma count_inside_one ths : ∀ t0 th0,
  (∀ t th, ths !! t = Some th → t ≠ t0 → inside th = false) →
  ths !! t0 = Some th0 → inside th0 = true → count_inside ths = 1%nat.
Proof.
  induction ths as [|x ths IH]; intros [|t0] th0 Hout; try done.
  - intros [= ->] Hin. cbn [count_inside]. rewrite Hin, count_inside_none; [done|].
    intros t th Ht. by apply (Hout (S t)).
  - intros Ht0 Hin. cbn [count_inside].
    rewrite (Hout 0%nat x eq_refl) by done. apply (IH t0 th0); [|done..].
    intros t th Ht Hne. apply (Hout (S t)); [done|congruence].
Qed.

Lemma in_push_not_inside p : in_push p = true → in_pop p = false.
Proof. by destruct p. Qed.

(** The steps of [push] leave the pending list alone. *)
Lemma push_step_pending `{Allocator} sp p g p' g' :
  in_push p = true → tstep sp p g = Ok p' g' →
  to_be_deleted g' = to_be_deleted g.
Proof.
  destruct p; try done; intros _; cbn [tstep]; repeat case_match; try done;
    by intros [= _ <-].
Qed.

(** With the counter at 1 wherever it is read, [try_reclaim] frees at once
    and never calls [chain_pending_nodes]. *)
Lemma consumer_step `{Allocator} sp p g p' g' :
  in_chain p = false → (in_pop p = true → threads_in_pop g = 1) →
  to_be_deleted g = None → tstep sp p g = Ok p' g' →
  in_chain p' = false ∧ to_be_deleted g' = None.
Proof.
  destruct p as [v|b|b| | | |oh|b nx|oh|oh r|oh r|r|ntd r|r|nodes r|nodes last r|first last c r|first last c r|r];
    try done; intros _ Hc Htbd; cbn [tstep].
  all: try (repeat case_match; try done; by intros [= <- <-]).
  - rewrite (Hc eq_refl), bool_decide_eq_true_2 by done. by intros [= <- <-].
  - rewrite (Hc eq_refl). change (wrap_int (1 - 1)) with 0. cbv zeta.
    rewrite bool_decide_eq_true_2 by done. by intros [= <- <-].
Qed.

End SingleConsumer.

Section OneConsumer.
Context {T : Type}.
Implicit Types (g : shared T) (th : thread T) (ths : list (thread T)).
Implicit Types (p : pc T) (cs : list (list (call T))).

Lemma consumer_update t0 ths t th' :
  (∀ t1 th, ths !! t1 = Some th → t1 ≠ t0 →
     (CallPop ∉ todo th) ∧ ∀ p, at_pc th = Some p → in_push p = true) →
  (∀ th p, ths !! t0 = Some th → at_pc th = Some p → in_chain p = false) →
  (t ≠ t0 → (CallPop ∉ todo th') ∧ ∀ p, at_pc th' = Some p → in_push p = true) →
  (t = t0 → ∀ p, at_pc th' = Some p → in_chain p = false) →
  (∀ t1 th, <[t := th']> ths !! t1 = Some th → t1 ≠ t0 →
     (CallPop ∉ todo th) ∧ ∀ p, at_pc th = Some p → in_push p = true) ∧
  (∀ th p, <[t := th']> ths !! t0 = Some th → at_pc th = Some p → in_chain p = false).
Proof.
  intros Hothers Hmine Hnew Hnew0. split.
  - intros t1 th [(-> & -> & _)|[_ Hth]]%list_lookup_insert_Some Hne; eauto.
  - intros th p [(-> & -> & _)|[_ Hth]]%list_lookup_insert_Some; eauto.
Qed.

(** When all calls of [pop] are made by one thread [t0], nothing is ever
    pending and [t0] never calls [chain_pending_nodes]. *)
Lemma single_consumer_inv cs t0 ths g :
  Z.of_nat (length cs) < 2 ^ 31 →
  (∀ t c, cs !! t = Some c → t ≠ t0 → CallPop ∉ c) →
  reachable cs ths g →
  to_be_deleted g = None ∧
  (∀ t th, ths !! t = Some th → t ≠ t0 →
     (CallPop ∉ todo th) ∧ ∀ p, at_pc th = Some p → in_push p = true) ∧
  (∀ th p, ths !! t0 = Some th → at_pc th = Some p → in_chain p = false).
Proof.
  intros Hlen Hprod Hr. induction Hr as [|A ths g sp t ths' g' Hr IH Hstep].
  - split; [done|]. unfold start. split.
    + intros t th Ht Hne. rewrite list_lookup_fmap in Ht.
      destruct (cs !! t) as [c|] eqn:Hc; [|done]. injection Ht as <-.
      split; [by eapply Hprod|done].
    + intros th p Ht. rewrite list_lookup_fmap in Ht.
      destruct (cs !! t0); [|done]. by injection Ht as <-.
  - destruct IH as (Htbd & Hothers & Hmine).
    destruct (reachable_cinv cs ths g Hlen Hr) as (ms & ps & os & vs & Hinv).
    assert (∀ th, ths !! t0 = Some th → inside th = true → threads_in_pop g = 1)
      as Hcount.
    { intros th Hth Hin. rewrite (ci_counter _ _ _ _ _ _ _ Hinv).
      rewrite (count_inside_one ths t0 th); [done| |done..].
      intros t1 th1 Hth1 Hne. destruct (Hothers t1 th1 Hth1 Hne) as [_ Hpush].
      unfold inside. destruct (at_pc th1) as [p|]; [|done].
      by apply in_push_not_inside, Hpush. }
    unfold cstep in Hstep.
    destruct (ths !! t) as [[pc td ret]|] eqn:Ht; cbn [at_pc todo returned] in Hstep;
      [|revert Hstep; by intros [= <- <-]].
    destruct pc as [p|]; last first.
    { destruct td as [|c td]; injection Hstep as <- <-; [done|].
      split; [done|]. apply consumer_update; [done..| |]; cbn [todo at_pc].
      - intros Hne. destruct (Hothers t _ Ht Hne) as [Hpop _]. cbn [todo] in Hpop.
        apply not_elem_of_cons in Hpop as [Hc Hpop]. split; [done|].
        intros p [= <-]. by destruct c.
      - intros _ p [= <-]. by destruct c. }
    assert (∀ p' g1, tstep sp p g = Ok p' g1 →
      to_be_deleted g1 = None ∧
      (t ≠ t0 → in_push p' = true) ∧ (t = t0 → in_chain p' = false)) as Hmove.
    { intros p' g1 Hts. destruct (decide (t = t0)) as [->|Hne].
      - destruct (consumer_step sp p g p' g1) as [Hp' Hg1]; try done.
        + by eapply Hmine.
        + intros Hin. by eapply Hcount.
      - destruct (Hothers t _ Ht Hne) as [_ Hpush]. specialize (Hpush p eq_refl).
        split; [|split; [|done]].
        + by rewrite (push_step_pending sp p g p' g1).
        + intros _. by rewrite (tstep_in_push _ _ _ _ _ Hts). }
    assert (t ≠ t0 → CallPop ∉ td) as Htd.
    { intros Hne. by destruct (Hothers t _ Ht Hne) as [Hpop _]. }
    destruct p as [v|b|b| | | |oh|b nx|oh|oh r|oh r|r|ntd r|r|nodes r|nodes last r|first last c r|first last c r|r].
    all: cbn [at_pc] in Hstep.
    all: try (injection Hstep as <- <-; split; [done|];
              apply consumer_update; [done..| |]; cbn [todo at_pc]; by auto).
    all: destruct (tstep _ _ _) as [p' g1| | |] eqn:Hts; [|done..];
      injection Hstep as <- <-;
      destruct (Hmove p' g1 eq_refl) as (Hg1 & Hpush & Hchain).
    all: split; [done|]; apply consumer_update; [done..| |]; cbn [todo at_pc].
    all: try (intros Hne; split; [by auto|]; intros ? [= <-]; by auto).
    all: intros He ? [= <-]; by auto.
Qed.

(** One consumer is safe: when all calls of [pop] are made by one thread,
    with any number of threads that call [push], no step of any
    interleaving faults, and no node is ever left pending: each [pop] frees
    the node it detached before it returns. *)
Theorem single_consumer_safe `{Allocator} cs t0 ths g spurious t :
  Z.of_nat (length cs) < 2 ^ 31 →
  (∀ t c, cs !! t = Some c → t ≠ t0 → CallPop ∉ c) →
  reachable cs ths g →
  cstep spurious t ths g ≠ Fault ∧ to_be_deleted g = None.
Proof.
  intros Hlen Hprod Hr.
  destruct (single_consumer_inv cs t0 ths g Hlen Hprod Hr) as (Htbd & Hothers & Hmine).
  split; [|done]. intros Hfault.
  destruct (reachable_cinv cs ths g Hlen Hr) as (ms & ps & os & vs & Hinv).
  destruct (cinv_fault _ _ _ _ _ _ _ _ _ Hinv Hfault) as (td & ret & res & Ht).
  destruct (decide (t = t0)) as [->|Hne].
  - by specialize (Hmine _ _ Ht eq_refl).
  - destruct (Hothers t _ Ht Hne) as [_ Hpush]. by specialize (Hpush _ eq_refl).
Qed.

End OneConsumer.

(** ** Allocations *)

Section Allocations.
Context {T : Type}.
Implicit Types (g : shared T) (th : thread T) (ths : list (thread T)).
Implicit Types (p : pc T) (cs : list (list (call T))).

(** Only the first step of [push] allocates. *)
Lemma tstep_allocated `{Allocator} sp p g p' g' :
  tstep sp p g = Ok p' g' →
  allocated g' = (allocated g + match p with PushNew _ => 1 | _ => 0 end)%nat.
Proof.
  destruct p as [v|b|b| | | |oh|b nx|oh|oh r|oh r|r|ntd r|r|nodes r|nodes last r|first last c r|first last c r|r];
    cbn [tstep]; unfold deref; cbv zeta;
    repeat (case_match; try done); intros [= _ <-]; cbn; lia.
Qed.

Lemma unpushed_step `{Allocator} sp p g p' g' td ret :
  tstep sp p g = Ok p' g' →
  (allocated g' + length (unpushed (Thread (Some p') td ret))
   = allocated g + length (unpushed (Thread (Some p) td ret)))%nat.
Proof.
  intros Hstep. rewrite (tstep_allocated _ _ _ _ _ Hstep).
  unfold unpushed. cbn [todo at_pc]. rewrite !length_app.
  assert (match p' with PushNew v => [v] | _ => [] end = []) as ->.
  { destruct p' as [v| | | | | | | | | | | | | | | | | | ]; try done.
    by apply tstep_not_PushNew with (v := v) in Hstep. }
  destruct p; cbn; lia.
Qed.

(** One node a call of [push], and none for [pop]: in every configuration
    that is reached as many nodes were allocated as calls of [push] went
    past their first line, so that the live nodes are never more than the
    values given to [push]. *)
Theorem one_node_per_push cs ths g :
  Z.of_nat (length cs) < 2 ^ 31 →
  reachable cs ths g →
  (allocated g + length (concat (map unpushed ths)) = length (pushed cs))%nat ∧
  (size (heap g) ≤ length (pushed cs))%nat.
Proof.
  intros Hlen Hr.
  assert (allocated g + length (concat (map unpushed ths)) = length (pushed cs))%nat
    as Hcount.
  { clear Hlen. induction Hr as [|A ths g sp t ths' g' Hr IH Hstep].
    - unfold start, pushed. rewrite map_map. cbn [allocated construct Nat.add].
      f_equal. f_equal. apply map_ext. intros c. unfold unpushed. cbn.
      by rewrite app_nil_r.
    - rewrite <- IH. clear IH. unfold cstep in Hstep.
      destruct (ths !! t) as [[pc td ret]|] eqn:Ht; cbn [at_pc todo returned] in Hstep;
        [|by injection Hstep as <- <-].
      assert (∀ th' g1, ths' = <[t := th']> ths →
        (allocated g1 + length (unpushed th')
         = allocated g + length (unpushed (Thread pc td ret)))%nat →
        (allocated g1 + length (concat (map unpushed ths'))
         = allocated g + length (concat (map unpushed ths)))%nat) as Hupd.
      { intros th' g1 -> Hloc.
        pose proof (total_update unpushed unpushed ths t _ th' Ht
                      ltac:(done)) as Hperm.
        apply Permutation_length in Hperm. rewrite !length_app in Hperm. lia. }
      destruct pc as [p|]; last first.
      { destruct td as [|c td]; injection Hstep as <- <-; [done|].
        eapply Hupd; [done|]. unfold unpushed. cbn [todo at_pc].
        change (todo_values (c :: td))
          with (match c with CallPush v => [v] | CallPop => [] end ++ todo_values td).
        rewrite !length_app. destruct c; cbn [enter length]; lia. }
      destruct p as [v|b|b| | | |oh|b nx|oh|oh r|oh r|r|ntd r|r|nodes r|nodes last r|first last c r|first last c r|r];
        cbn [at_pc] in Hstep.
      all: try (injection Hstep as <- <-; by eapply Hupd).
      all: destruct (tstep _ _ _) as [p' g1| | |] eqn:Hts; [|done..];
        injection Hstep as <- <-; eapply Hupd; [done|]; by eapply unpushed_step. }
  split; [done|].
  destruct (reachable_cinv cs ths g Hlen Hr) as (ms & ps & os & vs & Hinv).
  pose proof (ci_count _ _ _ _ _ _ _ Hinv). lia.
Qed.

End Allocations.

(** ** The main list changes at the two exchanges only *)

Section Linearization.
Context {T : Type}.
Implicit Types (g : shared T) (th : thread T) (ths : list (thread T)).
Implicit Types (p : pc T) (cs : list (list (call T))) (o ms : list positive).

(** A step writes to the nodes of its thread or to a new node, and [head]
    changes at a [compare_exchange_weak] that succeeds. *)
Lemma tstep_frame `{Allocator} sp p g p' g' o :
  owns (heap g) (Some p) o → tstep sp p g = Ok p' g' →
  (∀ b, b ∉ o → is_Some (heap g !! b) → heap g' !! b = heap g !! b) ∧
  (head g' = head g ∨
   (∃ a n, p = PushCAS a ∧ heap g !! a = Some n ∧ next n = head g ∧
           g' = set_head (Some a) g) ∨
   (∃ a nx, p = PopCAS a nx ∧ head g = Some a ∧ g' = set_head nx g)).
Proof.
  intros Hown.
  destruct p as [v|a|a| | | |oh|a nx|oh|oh r|oh r|r|ntd r|r|nodes r|nodes last r|first last c r|first last c r|r];
    cbn [tstep owns] in *.
  - destruct (new_addr (dom (heap g))) as [a|] eqn:Ha; [|done]. intros [= <- <-].
    apply new_addr_fresh, not_elem_of_dom in Ha. split; [|by left].
    intros b _ [n Hn]. cbn [heap new_node]. apply lookup_insert_ne. congruence.
  - destruct Hown as [-> (v & q & ->)]. intros [= <- <-]. split; [|by left].
    intros b [Hb _]%not_elem_of_cons _. cbn. apply lookup_insert_ne. congruence.
  - destruct Hown as [-> (v & q & Ha)]. rewrite Ha. cbn [next].
    destruct (bool_decide_reflect (head g = q)) as [Hq|Hq]; destruct sp; cbn [andb negb];
      intros [= <- <-].
    2: { split; [done|]. right. left. exists a. eexists. by rewrite Ha. }
    all: split; [|by left]; intros b [Hb _]%not_elem_of_cons _; cbn;
      apply lookup_insert_ne; congruence.
  - intros [= <- <-]. auto.
  - intros [= <- <-]. auto.
  - intros [= <- <-]. auto.
  - destruct oh as [a|]; [destruct (heap g !! a); [|done]|]; intros [= <- <-]; auto.
  - destruct (bool_decide_reflect (head g = Some a)) as [Ha|Ha]; destruct sp;
      cbn [andb negb]; intros [= <- <-]; auto.
    split; [done|]. right. right. eauto.
  - destruct oh as [a|]; [|intros [= <- <-]; auto].
    destruct Hown as [-> (v & q & ->)]. intros [= <- <-]. split; [|by left].
    intros b [Hb _]%not_elem_of_cons _. cbn. apply lookup_insert_ne. congruence.
  - destruct (bool_decide _); intros [= <- <-]; auto.
  - destruct oh as [a|]; [|intros [= <- <-]; auto].
    destruct Hown as [-> (q & ->)]. intros [= <- <-]. split; [|by left].
    intros b [Hb _]%not_elem_of_cons _. cbn. apply lookup_delete_ne. congruence.
  - intros [= <- <-]. auto.
  - cbv zeta. destruct (bool_decide _); [|destruct ntd]; intros [= <- <-]; auto.
  - intros [= <- <-]. auto.
  - destruct nodes as [a|]; [|intros [= <- <-]; auto].
    destruct Hown as [Ho _]. destruct o as [|a' o]; [done|].
    destruct Ho as ([= <-] & n & -> & _). intros [= <- <-]. split; [|by left].
    intros b [Hb _]%not_elem_of_cons _. cbn. apply lookup_delete_ne. congruence.
  - unfold deref. destruct last as [z|]; [|done].
    destruct (heap g !! z) as [n|]; [|done].
    destruct (next n); intros [= <- <-]; auto.
  - destruct Hown as [(-> & -> & _ & ->)|(l & z & -> & _ & -> & Hrel)]; [done|].
    unfold deref. destruct (heap g !! z) as [n|]; [|done]. intros [= <- <-].
    split; [|by left]. intros b Hb _. cbn. apply lookup_insert_ne.
    intros <-. apply Hb, elem_of_app. right. by apply list_elem_of_singleton.
  - destruct Hown as (l & z & -> & _ & -> & Hrel).
    unfold deref. destruct (heap g !! z) as [n|]; [|done].
    assert (∀ b, b ∉ l ++ [z] → b ≠ z) as Hz.
    { intros b Hb <-. apply Hb, elem_of_app. right. by apply list_elem_of_singleton. }
    destruct (_ && _); intros [= <- <-]; (split; [|by left]); intros b Hb _; cbn;
      [done|]. apply lookup_insert_ne. by apply not_eq_sym, Hz.
  - intros [= <- <-]. auto.
Qed.

(** The main list is the stack, and its two exchanges are where the calls
    take effect: a step of any interleaving leaves the values of the main
    list as they are, or it is the exchange of [push] that succeeds and puts
    the value of its node on top, or the exchange of [pop] that succeeds and
    takes the top node off. *)
Theorem stack_changes_at_exchange `{Allocator} cs ths g spurious t ths' g' :
  Z.of_nat (length cs) < 2 ^ 31 →
  reachable cs ths g →
  cstep spurious t ths g = Ok ths' g' →
  ∃ ms vs ms' vs',
    chain (heap g) (head g) ms ∧ holds (heap g) ms vs ∧
    chain (heap g') (head g') ms' ∧ holds (heap g') ms' vs' ∧
    ((ms' = ms ∧ vs' = vs) ∨
     (∃ a q v td ret,
        ths !! t = Some (Thread (Some (PushCAS a)) td ret) ∧
        heap g !! a = Some (Node (Some v) q) ∧
        ms' = a :: ms ∧ vs' = v :: vs) ∨
     (∃ a nx v td ret,
        ths !! t = Some (Thread (Some (PopCAS a nx)) td ret) ∧
        ms = a :: ms' ∧ vs = v :: vs')).
Proof.
  intros Hlen Hr Hstep.
  destruct (reachable_cinv cs ths g Hlen Hr) as (ms & ps & os & vs & Hinv).
  pose proof (ci_main _ _ _ _ _ _ _ Hinv) as Hm.
  pose proof (ci_values _ _ _ _ _ _ _ Hinv) as Hv.
  exists ms, vs.
  assert (∃ ms' vs', chain (heap g) (head g) ms' ∧ holds (heap g) ms' vs' ∧
                     (ms' = ms ∧ vs' = vs)) as Hsame by eauto 10.
  unfold cstep in Hstep.
  destruct (ths !! t) as [[pc td ret]|] eqn:Ht; cbn [at_pc todo returned] in Hstep;
    [|injection Hstep as <- <-; destruct Hsame as (? & ? & ? & ? & ?); eauto 10].
  destruct pc as [p|]; last first.
  { destruct td; injection Hstep as <- <-;
      destruct Hsame as (? & ? & ? & ? & ?); eauto 10. }
  pose proof (ci_owns _ _ _ _ _ _ _ Hinv t _ Ht) as Hown. cbn [at_pc] in Hown.
  assert (∀ p' g1, tstep spurious p g = Ok p' g1 →
    ∃ ms' vs', chain (heap g1) (head g1) ms' ∧ holds (heap g1) ms' vs' ∧
      ((ms' = ms ∧ vs' = vs) ∨
       (∃ a q v, p = PushCAS a ∧ heap g !! a = Some (Node (Some v) q) ∧
                 ms' = a :: ms ∧ vs' = v :: vs) ∨
       (∃ a nx v, p = PopCAS a nx ∧ ms = a :: ms' ∧ vs = v :: vs'))) as Hmove.
  { intros p' g1 Hts.
    destruct (tstep_frame _ _ _ _ _ _ Hown Hts) as [Hframe Hhead].
    assert (∀ b, b ∈ ms → heap g1 !! b = heap g !! b) as Hkeep.
    { intros b Hb. apply Hframe; [|by eapply chain_live].
      intros Hbo. by destruct (ci_apart _ _ _ _ _ _ _ Hinv t b Hbo). }
    pose proof (chain_ext _ _ _ _ Hkeep Hm) as Hm1.
    pose proof (holds_ext _ _ _ _ Hkeep Hv) as Hv1.
    destruct Hhead as [Hh|[(a & n & -> & Ha & Hn & ->)|(a & nx & -> & Ha & ->)]].
    - exists ms, vs. rewrite Hh. auto.
    - cbn [owns] in Hown. destruct Hown as [Ho (v & q & Hq)].
      exists (a :: ms), (v :: vs). cbn [heap head set_head] in *.
      assert (n = Node (Some v) q) as -> by congruence. cbn [next] in Hn. subst q.
      split; [|split].
      + split; [done|]. eauto.
      + cbn. eauto.
      + right. left. eauto 10.
    - cbn [heap head set_head] in *.
      destruct ms as [|b ms']; [cbn in Hm; congruence|].
      pose proof Hm as (Hb & n & Hn & Hms). assert (b = a) as -> by congruence.
      destruct (ci_cas _ _ _ _ _ _ _ Hinv t _ a nx Ht eq_refl) as (n' & Hn' & Hnx).
      { apply elem_of_cons; auto. }
      assert (n' = n) as -> by congruence. subst nx.
      destruct vs as [|v vs']; [done|]. destruct Hv as [_ Hv].
      exists ms', vs'. split; [done|]. split; [done|]. right. right. eauto 10. }
  destruct p as [v|b|b| | | |oh|b nx|oh|oh r|oh r|r|ntd r|r|nodes r|nodes last r|first last c r|first last c r|r];
    cbn [at_pc] in Hstep.
  all: try (injection Hstep as <- <-;
            destruct Hsame as (? & ? & ? & ? & ?); by eauto 10).
  all: destruct (tstep _ _ _) as [p' g1| | |] eqn:Hts; [|done..];
    injection Hstep as <- <-;
    destruct (Hmove p' g1 eq_refl) as (ms' & vs' & Hm' & Hv' & Hcase);
    exists ms', vs'; do 4 (split; [done|]).
  all: destruct Hcase as [?|[(a & q & v' & Hp & Ha & -> & ->)|(a & nx' & v' & Hp & -> & ->)]];
    [by left|right; left|right; right]; try done.
  - injection Hp as <-. eauto 10.
  - injection Hp as <- <-. eauto 10.
Qed.

End Linearization.

(** ** [chain_pending_nodes] *)

Section Chaining.
Context {T : Type} `{Allocator}.
Implicit Types (g : shared T) (h : gmap positive (node T)) (p q : ptr).
Implicit Types (l qs : list positive) (res : option T).

(** Where the call goes on after the exchange of [chain_pending_nodes]. *)
Lemma run_weak_after flags g (k : after_chain) res :
  run_weak flags 1 (after k res) g
  = Ok (PopDone res)
       (match k with
        | ThenReturn => g
        | ThenDecrement => set_threads_in_pop (wrap_int (threads_in_pop g - 1)) g
        end).
Proof.
  destruct k; cbn [after]; [by apply run_weak_done|].
  destruct flags as [|sp flags]; cbn [run_weak done tstep].
  - solo_step. by rewrite run_solo_done.
  - by apply run_weak_done.
Qed.

Lemma run_weak_fuel flags : ∀ fuel fuel' (c c' : pc T) g g',
  (fuel ≤ fuel')%nat → run_weak flags fuel c g = Ok c' g' →
  run_weak flags fuel' c g = Ok c' g'.
Proof.
  induction flags as [|sp flags IH]; intros fuel fuel' c c' g g' Hle; cbn [run_weak].
  - revert fuel' c g Hle. induction fuel as [|fuel IHf]; intros fuel' c g Hle.
    + cbn [run_solo]. destruct (done c) eqn:Hd; [|done]. intros [= <- <-].
      by apply run_solo_done.
    + destruct fuel' as [|fuel']; [lia|]. rewrite !run_solo_S.
      destruct (done c); [done|]. destruct (tstep false c g); try done.
      apply IHf. lia.
  - destruct (done c); [done|]. destruct (tstep sp c g); try done. by apply IH.
Qed.

(** The exchange of [chain_pending_nodes(first, last)], whatever [last->next]
    holds from an earlier attempt and whatever steps in [flags] fail
    spuriously: every failed exchange reloads [last->next] and changes
    nothing else, and the run ends with the state in which [last->next] is
    the pending list as it was and [to_be_deleted] is [first]. *)
Lemma chain_cas_run (first : ptr) z (k : after_chain) res flags : ∀ g n,
  heap g !! z = Some n →
  run_weak flags 3 (ChainCAS first (Some z) k res) g
  = Ok (PopDone res)
       (Shared (<[z := Node (data n) (to_be_deleted g)]> (heap g)) (head g) first
               (match k with
                | ThenReturn => threads_in_pop g
                | ThenDecrement => wrap_int (threads_in_pop g - 1)
                end) (allocated g) (freed g)).
Proof.
  induction flags as [|sp flags IH]; intros g n Hz.
  - revert Hz. open_state g. intros Hz. cbn [run_weak].
    destruct (decide (tbd = next n)) as [Hn|Hn].
    + assert (<[z := Node (data n) tbd]> h = h) as ->.
      { apply insert_id. rewrite Hz, Hn. by destruct n. }
      solo_step. rewrite Hz, bool_decide_eq_true_2 by done. state_simpl.
      destruct k; cbn [after].
      * by rewrite run_solo_done.
      * solo_step. by rewrite run_solo_done.
    + solo_step. rewrite Hz, bool_decide_eq_false_2 by done. state_simpl.
      solo_step. rewrite lookup_insert_eq. cbn [next].
      rewrite bool_decide_eq_true_2 by done. state_simpl.
      destruct k; cbn [after].
      * by rewrite run_solo_done.
      * solo_step. by rewrite run_solo_done.
  - cbn [run_weak done tstep deref]. rewrite Hz.
    destruct (bool_decide (to_be_deleted g = next n) && negb sp) eqn:Hok.
    + apply andb_true_iff in Hok as [Hn%bool_decide_eq_true _].
      rewrite (run_weak_fuel flags 1 3 _ _ _ _ ltac:(lia) (run_weak_after _ _ _ _)).
      f_equal. revert Hz Hn. open_state g. intros Hz Hn.
      assert (<[z := Node (data n) tbd]> h = h) as ->.
      { apply insert_id. rewrite Hz, Hn. by destruct n. }
      by destruct k.
    + rewrite (IH _ (Node (data n) (to_be_deleted g))).
      * state_simpl. by rewrite insert_insert_eq.
      * state_simpl. apply lookup_insert_eq.
Qed.

(** [chain_pending_nodes(first, last)] at its exchange, whatever [last->next]
    holds from an earlier attempt: the nodes from [first] to [last] are put
    in front of the pending list as it is now.  With no spurious failure the
    call is over within three steps: one reload of [last->next] when the
    expected value is stale, the exchange, and [--threads_in_pop] for the
    call from line 35.  Each step of [flags] in which the exchange fails
    spuriously is one more reload, and the state at the end is the same
    whatever their number.  No node is freed and no handle is touched. *)
Theorem chain_pending_prepends g first l z n (k : after_chain) res qs flags :
  seg (heap g) first l (Some z) → heap g !! z = Some n → z ∉ l →
  chain (heap g) (to_be_deleted g) qs → z ∉ qs →
  ∃ g', run_weak flags 3 (ChainCAS first (Some z) k res) g = Ok (PopDone res) g' ∧
        to_be_deleted g' = first ∧
        chain (heap g') (to_be_deleted g') ((l ++ [z]) ++ qs) ∧
        heap g' = <[z := Node (data n) (to_be_deleted g)]> (heap g) ∧
        head g' = head g ∧ freed g' = freed g ∧ allocated g' = allocated g ∧
        threads_in_pop g'
        = match k with
          | ThenReturn => threads_in_pop g
          | ThenDecrement => wrap_int (threads_in_pop g - 1)
          end.
Proof.
  intros Hseg Hz Hzl Hqs Hzq.
  assert (chain (<[z := Node (data n) (to_be_deleted g)]> (heap g)) first
            ((l ++ [z]) ++ qs)) as Hchain.
  { apply (seg_chain _ _ _ _ (Node (data n) (to_be_deleted g))).
    - apply (seg_ext (heap g)); [|done].
      intros b Hb. apply lookup_insert_ne. congruence.
    - apply lookup_insert_eq.
    - by apply chain_insert. }
  eexists. split; [by apply chain_cas_run|]. done.
Qed.

End Chaining.

(** ** Concrete runs *)

(** Two calls of [pop] that overlap leave their nodes pending. *)
Lemma both_defer_two :
  run_schedule (both_defer 2)
    (start [[CallPush 1; CallPush 2]; [CallPop]; [CallPop]])%nat construct
  = Ok [Thread None [] []; Thread None [] [Some 2%nat]; Thread None [] [Some 1%nat]]
       both_deferred.
Proof. vm_compute. reflexivity. Qed.

Lemma both_defer_three :
  run_schedule (both_defer 3) (start three_pushes_two_pops) construct
  = Ok both_returned two_deferred.
Proof. vm_compute. reflexivity. Qed.

Lemma both_defer_three_reachable :
  reachable three_pushes_two_pops both_returned two_deferred.
Proof.
  eapply (run_schedule_reachable _ (both_defer 3)); [apply reach_start|].
  apply both_defer_three.
Qed.

Lemma pop_beside_empty_pop_reachable :
  reachable one_push_two_pops before_fault detached_ten.
Proof.
  eapply (run_schedule_reachable _ pop_beside_empty_pop); [apply reach_start|].
  vm_compute. reflexivity.
Qed.

Lemma sequential_lifo_witness :
  push_all [1; 2; 3]%nat construct
  = Ok tt (Shared (list_to_map [(1%positive, Node (Some 1%nat) None);
                                (2%positive, Node (Some 2%nat) (Some 1%positive));
                                (3%positive, Node (Some 3%nat) (Some 2%positive))])
                  (Some 3%positive) None 0 3 0) ∧
  ∃ g', pop_n 4 (Shared (list_to_map [(1%positive, Node (Some 1%nat) None);
                                      (2%positive, Node (Some 2%nat) (Some 1%positive));
                                      (3%positive, Node (Some 3%nat) (Some 2%positive))])
                        (Some 3%positive) None 0 3 0)
        = Ok [Some 3; Some 2; Some 1; None]%nat g'.
Proof.
  split; [vm_compute; reflexivity|].
  apply (sequential_lifo [1; 2; 3]%nat). vm_compute. reflexivity.
Defined.

Lemma empty_pop_idle_witness :
  ∃ g', pop both_deferred = Ok None g' ∧
        head g' = None ∧ threads_in_pop g' = 0 ∧ to_be_deleted g' = None ∧
        (∀ a, a ∈ [1%positive; 2%positive] → heap g' !! a = None) ∧
        (∀ a, a ∉ [1%positive; 2%positive] → heap g' !! a = heap both_deferred !! a) ∧
        freed g' = (freed both_deferred + length [1%positive; 2%positive])%nat ∧
        allocated g' = allocated both_deferred.
Proof.
  apply (empty_pop_idle both_deferred [1%positive; 2%positive]);
    [reflexivity|reflexivity|].
  cbn. split; [reflexivity|]. eexists. split; [reflexivity|].
  cbn. split; [reflexivity|]. eexists. split; reflexivity.
Defined.

(** C2 as stated fails twice.  With another thread inside [pop] the call
    on the empty stack faults: [chain_pending_nodes(nullptr)] writes
    [last->next].  With no other thread inside [pop] the call returns, but
    the pending list does not stay as it was: its nodes are freed. *)
Lemma empty_pop_counterexample :
  pop one_in_flight = Fault ∧
  pop both_deferred = Ok None (Shared ∅ None None 0 2 2) ∧
  to_be_deleted both_deferred ≠ to_be_deleted (Shared (T := nat) ∅ None None 0 2 2).
Proof. split; [|split]; [vm_compute; reflexivity..|discriminate]. Qed.

(** C9 at the failing input: on the empty stack with one other thread
    inside [pop], the call increments the counter to 2, reaches
    [chain_pending_nodes(nullptr)] after five steps and faults there; the
    decrement of line 36 is never reached. *)
Lemma pop_counter_not_retired :
  steps 5 PopEnter one_in_flight
    = Ok (ChainLoad None None ThenDecrement None) (Shared ∅ None None 2 0 0) ∧
  tstep false (ChainLoad None None ThenDecrement None)
    (Shared (T := nat) ∅ None None 2 0 0) = Fault ∧
  pop one_in_flight = Fault.
Proof. split; [|split]; vm_compute; reflexivity. Qed.

Lemma try_reclaim_disposition_witness :
  ∃ g', resume (ReclaimDec (Some 1%positive) None) two_taken = Ok (PopDone None) g' ∧
        threads_in_pop g' = 1 ∧ freed g' = 1%nat ∧
        chain (heap g') (to_be_deleted g') [1%positive; 2%positive].
Proof.
  destruct (try_reclaim_disposition two_pending (Some 3%positive) None
              [1%positive; 2%positive] two_taken [])
    as (_ & g' & Hrun & Hc & _ & _ & Hd).
  - reflexivity.
  - cbn. split; [reflexivity|]. eexists. split; [reflexivity|].
    cbn. split; [reflexivity|]. eexists. split; reflexivity.
  - intros a [= <-]. vm_compute. eauto.
  - intros a [->|[->|[]%elem_of_nil]%elem_of_cons]%elem_of_cons; reflexivity.
  - reflexivity.
  - intros a _. apply not_elem_of_nil.
  - exists g'. change (to_be_deleted two_pending) with (Some 1%positive) in Hrun.
    split; [exact Hrun|]. split; [exact Hc|].
    rewrite Hc in Hd. change (wrap_int (threads_in_pop two_taken - 1)) with 1 in Hd.
    rewrite decide_False in Hd by discriminate.
    destruct Hd as (Hf & _ & _ & Hl). split; [exact Hf|].
    rewrite app_nil_r in Hl. exact Hl.
Defined.

Lemma teardown_frees_all_witness :
  ∃ g', destroy two_deferred = Ok tt g' ∧
        heap g' = ∅ ∧ head g' = None ∧ to_be_deleted g' = None ∧
        allocated g' = allocated two_deferred ∧ freed g' = allocated g'.
Proof.
  apply (teardown_frees_all three_pushes_two_pops both_returned two_deferred).
  - reflexivity.
  - exact both_defer_three_reachable.
  - intros [|[|[|t]]] th [= <-]; reflexivity.
Defined.

Lemma exactly_once_delivery_witness :
  delivered both_returned ⊆+ pushed three_pushes_two_pops.
Proof.
  apply (exactly_once_delivery three_pushes_two_pops both_returned two_deferred).
  - reflexivity.
  - exact both_defer_three_reachable.
Defined.

Lemma fault_is_null_chain_witness :
  ∃ td ret res,
    before_fault !! 2%nat
    = Some (Thread (Some (ChainLoad None None ThenDecrement res)) td ret).
Proof.
  apply (fault_is_null_chain one_push_two_pops before_fault detached_ten false).
  - reflexivity.
  - exact pop_beside_empty_pop_reachable.
  - reflexivity.
Defined.

Lemma counter_counts_threads_witness :
  threads_in_pop detached_ten = Z.of_nat (count_inside before_fault).
Proof.
  apply (counter_counts_threads one_push_two_pops).
  - reflexivity.
  - exact pop_beside_empty_pop_reachable.
Defined.

(** C10 at the failing schedule: the value 10 is pushed and two threads
    call [pop].  After the steps of [pop_beside_empty_pop] thread 1 has
    detached the node, no call has returned, and thread 2 is about to call
    [chain_pending_nodes(nullptr)]; its next step faults, so the value is
    returned by no call. *)
Lemma pop_beside_empty_pop_faults :
  run_schedule pop_beside_empty_pop (start one_push_two_pops) construct
  = Ok before_fault detached_ten ∧
  run_schedule (pop_beside_empty_pop ++ [2%nat]) (start one_push_two_pops) construct
  = Fault.
Proof. split; vm_compute; reflexivity. Qed.

(** C3 at the failing input: the constructor initialises [head] and not
    its two siblings.  Built with the trivial default constructor that
    [std::atomic] has before C++20, over storage that held 1 where
    [threads_in_pop] lies or the address 1 where [to_be_deleted] lies, the
    stack has [head] null, but the counter is not zero or the pending list
    is not empty, and the first [pop] faults where it should return the
    empty handle: with any counter other than zero by
    [chain_pending_nodes(nullptr)] (line 35), with a stale pending pointer by
    [delete_nodes] on a node that is not live (line 67).  Only storage that
    held zero in both members gives the stack of [construct]. *)
Lemma construct_members_unset :
  head (construct_over (T := nat) 1 None) = None ∧
  threads_in_pop (construct_over (T := nat) 1 None) = 1 ∧
  to_be_deleted (construct_over (T := nat) 0 (Some 1%positive)) = Some 1%positive ∧
  pop (construct_over (T := nat) 1 None) = Fault ∧
  pop (construct_over (T := nat) 0 (Some 1%positive)) = Fault ∧
  (∀ c, int_range c → c ≠ 0 → pop (construct_over (T := nat) c None) = Fault) ∧
  construct_over (T := nat) 0 None = construct.
Proof.
  do 3 (split; [reflexivity|]). do 2 (split; [vm_compute; reflexivity|]).
  split; [|reflexivity]. intros c Hc Hne.
  apply pop_empty_busy; [reflexivity|]. cbn [threads_in_pop construct_over].
  by rewrite wrap_int_inc_one.
Qed.

(** ** More concrete runs *)

Lemma two_deferred_inv : stack_inv two_deferred [1%positive] [2%positive; 3%positive].
Proof.
  split; cbn.
  - split; [done|]. by eexists.
  - split; [done|]. eexists. split; [done|]. cbn. split; [done|]. by eexists.
  - intros a ->%list_elem_of_singleton [[=]|[[=]|[]%elem_of_nil]%elem_of_cons]%elem_of_cons.
  - intros a ->%list_elem_of_singleton. by eexists _, _.
  - intros a [->|[->|[]%elem_of_nil]%elem_of_cons]%elem_of_cons; by eexists.
Qed.

Lemma two_pushed_one_stalled_inv :
  stack_inv two_pushed_one_stalled [2%positive; 1%positive] [].
Proof.
  split; cbn.
  - split; [done|]. eexists. split; [done|]. cbn. split; [done|]. by eexists.
  - done.
  - intros a _ []%elem_of_nil.
  - intros a [->|[->|[]%elem_of_nil]%elem_of_cons]%elem_of_cons; by eexists _, _.
  - intros a []%elem_of_nil.
Qed.

Lemma at_exchange_reachable : reachable producers_consumer at_exchange one_on_top.
Proof.
  eapply (run_schedule_reachable _ to_exchange); [apply reach_start|].
  vm_compute. reflexivity.
Qed.

Lemma pop_alone_outcome_witness :
  ∃ res g', pop two_deferred = Ok res g' ∧ (res = None ↔ head two_deferred = None).
Proof.
  apply (pop_alone_outcome two_deferred [1%positive] [2%positive; 3%positive]).
  - exact two_deferred_inv.
  - vm_compute. split; [discriminate|reflexivity].
Defined.

Lemma stalled_pop_defers_witness :
  ∃ g', pop_n 2 two_pushed_one_stalled = Ok [Some 2%nat; Some 1%nat] g' ∧
        stack_inv g' [] [1%positive; 2%positive] ∧
        threads_in_pop g' = 1 ∧ freed g' = 0%nat ∧ allocated g' = 2%nat ∧
        dom (heap g') = dom (heap two_pushed_one_stalled).
Proof.
  apply (stalled_pop_defers [2%positive; 1%positive] two_pushed_one_stalled [] []
           [2%nat; 1%nat]).
  - exact two_pushed_one_stalled_inv.
  - cbn. split; [by eexists|]. split; [by eexists|done].
  - vm_compute. split; [discriminate|reflexivity].
  - discriminate.
Defined.

Lemma push_pop_round_trip_witness :
  ∃ g2, pop seven_on_two_deferred = Ok (Some 7%nat) g2 ∧
        head g2 = Some 1%positive ∧ to_be_deleted g2 = None ∧ threads_in_pop g2 = 0 ∧
        (∀ a, heap g2 !! a
              = if decide (a ∈ [2%positive; 3%positive]) then None
                else heap two_deferred !! a) ∧
        allocated g2 = 4%nat ∧ freed g2 = 3%nat.
Proof.
  apply (push_pop_round_trip 7%nat two_deferred [1%positive] [2%positive; 3%positive]
           seven_on_two_deferred).
  - exact two_deferred_inv.
  - reflexivity.
  - vm_compute. reflexivity.
Defined.

Lemma one_thread_refines_list_stack_witness :
  match run_calls mixed_calls construct with
  | Ok rs g' => rs = [Some 2; Some 3; Some 1; None]%nat ∧ sequential g' []
  | Throw g' => ∃ live, new_addr live = None
  | _ => False
  end.
Proof.
  apply (one_thread_refines_list_stack mixed_calls construct []).
  apply construct_sequential.
Defined.

Lemma delete_nodes_frees_list_witness :
  ∃ g', resume (DeleteNodes (Some 1%positive) None) both_deferred = Ok (PopDone None) g' ∧
        (∀ a, heap g' !! a
              = if decide (a ∈ [1%positive; 2%positive]) then None
                else heap both_deferred !! a) ∧
        freed g' = 2%nat ∧ allocated g' = 2%nat ∧
        head g' = None ∧ to_be_deleted g' = Some 1%positive ∧ threads_in_pop g' = 0.
Proof.
  apply (delete_nodes_frees_list both_deferred (Some 1%positive)
           [1%positive; 2%positive] None).
  cbn. split; [done|]. eexists. split; [done|]. cbn. split; [done|]. by eexists.
Defined.

Lemma live_nodes_accounted_witness :
  allocated two_deferred = (freed two_deferred + size (heap two_deferred))%nat ∧
  ∃ ms ps (os : nat → list positive),
    chain (heap two_deferred) (head two_deferred) ms ∧
    chain (heap two_deferred) (to_be_deleted two_deferred) ps ∧
    (∀ t th, both_returned !! t = Some th → owns (heap two_deferred) (at_pc th) (os t)) ∧
    (∀ t, both_returned !! t = None → os t = []) ∧
    (∀ a, is_Some (heap two_deferred !! a) → a ∈ ms ∨ a ∈ ps ∨ ∃ t, a ∈ os t) ∧
    (∀ a, a ∈ ms → a ∉ ps) ∧
    (∀ t a, a ∈ os t → (a ∉ ms) ∧ (a ∉ ps)) ∧
    (∀ t1 t2 a, t1 ≠ t2 → a ∈ os t1 → a ∉ os t2).
Proof.
  apply (live_nodes_accounted three_pushes_two_pops both_returned two_deferred).
  - reflexivity.
  - exact both_defer_three_reachable.
Defined.


Lemma spurious_failure_stutters_witness :
  one_on_top = one_on_top ∧
  (PopLoop (T := nat) (Some 1%positive) = PopCAS 1%positive None ∨
   PopLoop (T := nat) (Some 1%positive) = PopLoop (head one_on_top)).
Proof.
  apply (spurious_failure_stutters (PopCAS 1%positive None) (PopLoop (Some 1%positive))
           one_on_top one_on_top).
  - reflexivity.
  - vm_compute. discriminate.
Defined.

Lemma obstruction_free_witness :
  match run_weak [true; false; true] (call_fuel one_on_top)
          (PopCAS 1%positive None) one_on_top with
  | Ok p' g' => done p' = true
  | Throw g' => ∃ v : nat, PopCAS 1%positive None = PushNew v
  | Fault => in_push (PopCAS (T := nat) 1%positive None) = false
  | Diverge => False
  end.
Proof.
  apply (obstruction_free producers_consumer at_exchange one_on_top 1
           (PopCAS 1%positive None) [CallPop] [] [true; false; true]).
  - reflexivity.
  - exact at_exchange_reachable.
  - reflexivity.
Defined.

Lemma single_consumer_safe_witness :
  cstep false 1 at_exchange one_on_top ≠ Fault ∧ to_be_deleted one_on_top = None.
Proof.
  apply (single_consumer_safe producers_consumer 1 at_exchange one_on_top false 1).
  - reflexivity.
  - intros [|[|[|t]]] c [= <-] Hne; try done.
    + intros [[=]|[[=]|[]%elem_of_nil]%elem_of_cons]%elem_of_cons.
    + intros [[=]|[]%elem_of_nil]%elem_of_cons.
  - exact at_exchange_reachable.
Defined.

Lemma one_node_per_push_witness :
  (allocated one_on_top + length (concat (map unpushed at_exchange))
   = length (pushed producers_consumer))%nat ∧
  (size (heap one_on_top) ≤ length (pushed producers_consumer))%nat.
Proof.
  apply (one_node_per_push producers_consumer at_exchange one_on_top).
  - reflexivity.
  - exact at_exchange_reachable.
Defined.

Lemma stack_changes_at_exchange_witness :
  ∃ ms vs ms' vs',
    chain (heap one_on_top) (head one_on_top) ms ∧ holds (heap one_on_top) ms vs ∧
    chain (heap one_detached) (head one_detached) ms' ∧
    holds (heap one_detached) ms' vs' ∧
    ((ms' = ms ∧ vs' = vs) ∨
     (∃ a q v td ret,
        at_exchange !! 1%nat = Some (Thread (Some (PushCAS a)) td ret) ∧
        heap one_on_top !! a = Some (Node (Some v) q) ∧
        ms' = a :: ms ∧ vs' = v :: vs) ∨
     (∃ a nx v td ret,
        at_exchange !! 1%nat = Some (Thread (Some (PopCAS a nx)) td ret) ∧
        ms = a :: ms' ∧ vs = v :: vs')).
Proof.
  apply (stack_changes_at_exchange producers_consumer at_exchange one_on_top false 1
           after_exchange one_detached).
  - reflexivity.
  - exact at_exchange_reachable.
  - reflexivity.
Defined.

Lemma chain_pending_prepends_witness :
  ∃ g', run_weak [true; true] 3
          (ChainCAS (Some 1%positive) (Some 2%positive) ThenDecrement None) stale_last
        = Ok (PopDone None) g' ∧
        to_be_deleted g' = Some 1%positive ∧
        chain (heap g') (to_be_deleted g') (([1%positive] ++ [2%positive]) ++ [3%positive]) ∧
        heap g' = <[2%positive := Node None (Some 3%positive)]> (heap stale_last) ∧
        head g' = None ∧ freed g' = 0%nat ∧ allocated g' = 3%nat ∧
        threads_in_pop g' = 1.
Proof.
  apply (chain_pending_prepends stale_last (Some 1%positive) [1%positive] 2%positive
           (Node None None) ThenDecrement None [3%positive] [true; true]).
  - cbn. split; [done|]. by eexists.
  - reflexivity.
  - intros [=]%list_elem_of_singleton.
  - cbn. split; [done|]. by eexists.
  - intros [=]%list_elem_of_singleton.
Defined.
